(** * decentralized_bets : the Angular front end, embedded in Rocq

    The front end wires three injectable services and three components:

    - [LoggerService]   (logger.service.ts)  : a signal holding the list of logs;
    - [WalletService]   (wallet.service.ts)  : the sorted wallet catalog, the
      [activeWallet] signal, the effect that (un)subscribes the two event
      handlers, and the asynchronous [connectWallet] / [disconnect];
    - [ApiService]      (api.service.ts)     : one HTTP GET;
    - [NavbarComponent], [HomeComponent], [LoggerComponent] : the views.

    The sources hold two versions of the wallet service, of the api service
    and of the home component; the embedding is of the later ones, those that
    use the [LoggerService].

    Everything the application does not own is kept explicit: the wallet
    adapters (their promises settle and their events fire when the environment
    says so), the clock read by [new Date()], the HTTP backend, the moment at
    which Angular runs a scheduled effect. *)

From Stdlib Require Import String List ZArith Bool Lia Arith.
From Stdlib Require Import Sorting.Sorted Sorting.Permutation.
Import ListNotations.

Set Warnings "-register-all".

Open Scope string_scope.
Open Scope list_scope.

(* ================================================================= *)
(** * Part I : the embedding *)
(* ================================================================= *)

(** ** Data of the wallet-adapter library seen by the application *)

(** [WalletReadyState] of @solana/wallet-adapter-base. *)
Inductive WalletReadyState : Type :=
| Installed
| NotDetected
| Loadable
| Unsupported.

Definition WalletReadyState_eqb (a b : WalletReadyState) : bool :=
  match a, b with
  | Installed, Installed | NotDetected, NotDetected
  | Loadable, Loadable | Unsupported, Unsupported => true
  | _, _ => false
  end.

(** A wallet adapter object.  [ident] stands for the identity of the object
    (each adapter is created once, by one [new XxxWalletAdapter()]): two
    records denote the same object exactly when they are equal, which is what
    [===] tests. *)
Record WalletAdapter : Type := mkWallet {
  ident : nat;
  name : string;
  url : string;
  readyState : WalletReadyState
}.

Definition WalletAdapter_eqb (a b : WalletAdapter) : bool :=
  Nat.eqb (ident a) (ident b) && String.eqb (name a) (name b)
  && String.eqb (url a) (url b) && WalletReadyState_eqb (readyState a) (readyState b).

(** [x === y] on values of type [WalletAdapter | null]. *)
Definition same_wallet (x y : option WalletAdapter) : bool :=
  match x, y with
  | None, None => true
  | Some a, Some b => WalletAdapter_eqb a b
  | _, _ => false
  end.

(** The adapter classes instantiated by [all_wallets], in declaration order. *)
Inductive AdapterClass : Type :=
| PhantomWalletAdapter | SolflareWalletAdapter | AlphaWalletAdapter
| AvanaWalletAdapter | BitpieWalletAdapter | CloverWalletAdapter
| Coin98WalletAdapter | CoinbaseWalletAdapter | LedgerWalletAdapter
| TrustWalletAdapter | MathWalletAdapter | CoinhubWalletAdapter
| FractalWalletAdapter | HuobiWalletAdapter | HyperPayWalletAdapter
| KrystalWalletAdapter | NekoWalletAdapter | NightlyWalletAdapter
| NufiWalletAdapter | OntoWalletAdapter | ParticleAdapter
| SafePalWalletAdapter | SaifuWalletAdapter | SalmonWalletAdapter
| SkyWalletAdapter | SolongWalletAdapter | SpotWalletAdapter
| TokenaryWalletAdapter | TokenPocketWalletAdapter | TrezorWalletAdapter
| UnsafeBurnerWalletAdapter | XDEFIWalletAdapter.

Definition declared_classes : list AdapterClass :=
  [ PhantomWalletAdapter; SolflareWalletAdapter; AlphaWalletAdapter;
    AvanaWalletAdapter; BitpieWalletAdapter; CloverWalletAdapter;
    Coin98WalletAdapter; CoinbaseWalletAdapter; LedgerWalletAdapter;
    TrustWalletAdapter; MathWalletAdapter; CoinhubWalletAdapter;
    FractalWalletAdapter; HuobiWalletAdapter; HyperPayWalletAdapter;
    KrystalWalletAdapter; NekoWalletAdapter; NightlyWalletAdapter;
    NufiWalletAdapter; OntoWalletAdapter; ParticleAdapter;
    SafePalWalletAdapter; SaifuWalletAdapter; SalmonWalletAdapter;
    SkyWalletAdapter; SolongWalletAdapter; SpotWalletAdapter;
    TokenaryWalletAdapter; TokenPocketWalletAdapter; TrezorWalletAdapter;
    UnsafeBurnerWalletAdapter; XDEFIWalletAdapter ].

(** [all_wallets]: what the thirty-two [new] expressions evaluate to is the
    library's business (name, url and the ready state probed in this
    browser); [instantiate] is that part. *)
Definition all_wallets (instantiate : AdapterClass -> WalletAdapter)
  : list WalletAdapter :=
  map instantiate declared_classes.

(** The two events the service listens to, and its two handlers.  A handler
    closes over the [wallet] constant of the effect run that created it. *)
Inductive EventName : Type := EvDisconnect | EvError.

Inductive Handler : Type :=
| disconnectHandler (wallet : WalletAdapter)
| errorHandler (wallet : WalletAdapter).

Record Listener : Type := mkListener {
  l_target : WalletAdapter;
  l_event : EventName;
  l_handler : Handler
}.

Definition EventName_eqb (a b : EventName) : bool :=
  match a, b with
  | EvDisconnect, EvDisconnect | EvError, EvError => true
  | _, _ => false
  end.

Definition Handler_eqb (a b : Handler) : bool :=
  match a, b with
  | disconnectHandler x, disconnectHandler y => WalletAdapter_eqb x y
  | errorHandler x, errorHandler y => WalletAdapter_eqb x y
  | _, _ => false
  end.

Definition Listener_eqb (a b : Listener) : bool :=
  WalletAdapter_eqb (l_target a) (l_target b)
  && EventName_eqb (l_event a) (l_event b)
  && Handler_eqb (l_handler a) (l_handler b).

(** The two capabilities whose promises the service awaits. *)
Inductive Capability : Type := CapConnect | CapDisconnect.

(** How a promise settles; a rejection carries the rendering [`${e}`] of its
    reason. *)
Inductive Settled : Type :=
| Fulfilled
| Rejected (e : string).

(** ** LoggerService *)

Record Log : Type := mkLog {
  topic : string;
  message : string;
  timestamp : Z
}.

Module LoggerService.

(** [logs = signal<Log[]>([])]. *)
Definition logs_init : list Log := [].

(** [printLog(topic, message)]; [now] is what [new Date()] returns. *)
Definition printLog (topic message : string) (now : Z) (logs : list Log)
  : list Log :=
  logs ++ [ {| topic := topic; message := message; timestamp := now |} ].

(** A call of [printLog]: its arguments and the clock reading it gets. *)
Record Append : Type := mkAppend {
  a_topic : string;
  a_message : string;
  a_now : Z
}.

Definition entry_of (a : Append) : Log :=
  {| topic := a_topic a; message := a_message a; timestamp := a_now a |}.

(** The calls of a sequence, one after the other. *)
Definition printLogs (calls : list Append) (logs : list Log) : list Log :=
  fold_left (fun ls a => printLog (a_topic a) (a_message a) (a_now a) ls)
            calls logs.

End LoggerService.

(** ** The state the services share *)

(** One line of console output: the level and the text. *)
Inductive ConsoleLevel : Type := ConsoleLog | ConsoleError.

(** The signals of [LoggerService] and [WalletService], the effect node
    created by the constructor of [WalletService], and what the application
    has done to the outside: the listeners it holds on adapters (the [on]
    calls not yet undone by [off]), the capabilities it has invoked, the
    console. *)
Record World : Type := mkWorld {
  logs : list Log;
  wallets : list WalletAdapter;
  activeWallet : option WalletAdapter;
  effect_dirty : bool;
  effect_cleanup : option WalletAdapter;
  listeners : list Listener;
  invoked : list (Capability * WalletAdapter);
  console : list (ConsoleLevel * string)
}.

Definition set_logs (v : list Log) (w : World) : World :=
  mkWorld v (wallets w) (activeWallet w) (effect_dirty w) (effect_cleanup w)
          (listeners w) (invoked w) (console w).

Definition set_effect (dirty : bool) (cleanup : option WalletAdapter)
  (w : World) : World :=
  mkWorld (logs w) (wallets w) (activeWallet w) dirty cleanup
          (listeners w) (invoked w) (console w).

Definition set_listeners (v : list Listener) (w : World) : World :=
  mkWorld (logs w) (wallets w) (activeWallet w) (effect_dirty w)
          (effect_cleanup w) v (invoked w) (console w).

Definition set_invoked (v : list (Capability * WalletAdapter)) (w : World)
  : World :=
  mkWorld (logs w) (wallets w) (activeWallet w) (effect_dirty w)
          (effect_cleanup w) (listeners w) v (console w).

Definition set_console (v : list (ConsoleLevel * string)) (w : World) : World :=
  mkWorld (logs w) (wallets w) (activeWallet w) (effect_dirty w)
          (effect_cleanup w) (listeners w) (invoked w) v.

(** [this.logsService.printLog(topic, message)]. *)
Definition printLog (topic message : string) (now : Z) (w : World) : World :=
  set_logs (LoggerService.printLog topic message now (logs w)) w.

Definition console_log (text : string) (w : World) : World :=
  set_console (console w ++ [(ConsoleLog, text)]) w.

Definition console_error (text : string) (w : World) : World :=
  set_console (console w ++ [(ConsoleError, text)]) w.

(** [this.activeWallet.set(v)]: a signal keeps its value and notifies nobody
    when the new value is the one it holds ([Object.is]); otherwise the value
    changes and the effect that read it is marked for a new run. *)
Definition activeWallet_set (v : option WalletAdapter) (w : World) : World :=
  if same_wallet (activeWallet w) v then w
  else mkWorld (logs w) (wallets w) v true (effect_cleanup w)
               (listeners w) (invoked w) (console w).

(** [wallet.on(event, handler)] and [wallet.off(event, handler)]. *)
Definition on (wallet : WalletAdapter) (ev : EventName) (h : Handler)
  (w : World) : World :=
  set_listeners (listeners w ++ [mkListener wallet ev h]) w.

Definition off (wallet : WalletAdapter) (ev : EventName) (h : Handler)
  (w : World) : World :=
  set_listeners
    (filter (fun l => negb (Listener_eqb l (mkListener wallet ev h)))
            (listeners w)) w.

(** The body of a handler, run with the argument of the event. *)
Definition run_handler (h : Handler) (arg : string) (now : Z) (w : World)
  : World :=
  match h with
  | disconnectHandler wallet =>
      activeWallet_set None
        (printLog "info" (name wallet ++ " disconnected ❌") now w)
  | errorHandler wallet =>
      printLog "error" (name wallet ++ " error: " ++ arg) now w
  end.

(** The handlers an adapter calls when it emits [ev]. *)
Definition handlers_for (wallet : WalletAdapter) (ev : EventName)
  (ls : list Listener) : list Handler :=
  map l_handler
      (filter (fun l => WalletAdapter_eqb (l_target l) wallet
                        && EventName_eqb (l_event l) ev) ls).

(** The adapter [wallet] emits [ev] with argument [arg]. *)
Definition emit (wallet : WalletAdapter) (ev : EventName) (arg : string)
  (now : Z) (w : World) : World :=
  fold_left (fun acc h => run_handler h arg now acc)
            (handlers_for wallet ev (listeners w)) w.

(** ** Asynchronous operations *)

(** An [async] method runs to its next [await] and stops there: it is either
    settled, or it waits for the promise of a capability of an adapter, with
    the rest of the method as continuation.  The continuation gets the way
    the promise settled, the clock, and the state of that later moment. *)
Inductive Task : Type :=
| Done (r : Settled)
| Await (wallet : WalletAdapter) (cap : Capability)
        (k : Settled -> Z -> World -> World * Task).

(** [await p; rest]: when [p] is rejected the method is rejected with the same
    reason, and [rest] is not run. *)
Fixpoint await_ (w : World) (p : Task) (rest : World -> World * Task)
  {struct p} : World * Task :=
  match p with
  | Done Fulfilled => rest w
  | Done (Rejected e) => (w, Done (Rejected e))
  | Await wallet cap k =>
      (w, Await wallet cap
            (fun r now w' => let (w'', p') := k r now w' in await_ w'' p' rest))
  end.

(** Calling a capability of an adapter. *)
Definition invoke (cap : Capability) (wallet : WalletAdapter) (w : World)
  : World :=
  set_invoked (invoked w ++ [(cap, wallet)]) w.

(** ** WalletCatalog : the sort of the constructor *)

(** The [priority] table. *)
Definition priority (r : WalletReadyState) : Z :=
  match r with
  | Installed => 0
  | Loadable => 1
  | NotDetected => 2
  | Unsupported => 3
  end%Z.

(** The comparator given to [sort]. *)
Definition compare_wallets (a b : WalletAdapter) : Z :=
  (priority (readyState a) - priority (readyState b))%Z.

(** [Array.prototype.sort(cmp)], which is stable: an element goes before the
    first element that the comparator does not put before it. *)
Fixpoint sort_insert {A : Type} (cmp : A -> A -> Z) (x : A) (l : list A)
  : list A :=
  match l with
  | [] => [x]
  | y :: l' =>
      if (0 <? cmp x y)%Z then y :: sort_insert cmp x l' else x :: y :: l'
  end.

Fixpoint sort {A : Type} (cmp : A -> A -> Z) (l : list A) : list A :=
  match l with
  | [] => []
  | x :: l' => sort_insert cmp x (sort cmp l')
  end.

(** The elements of [l] whose ready state is [r], in the order of [l]. *)
Definition with_state (r : WalletReadyState) (l : list WalletAdapter)
  : list WalletAdapter :=
  filter (fun a => WalletReadyState_eqb (readyState a) r) l.

(** ** WalletService *)

Module WalletService.

(** The function registered with [onCleanup] by the last run of the effect,
    if that run got as far as registering one. *)
Definition cleanup (w : World) : World :=
  match effect_cleanup w with
  | None => w
  | Some wallet =>
      off wallet EvError (errorHandler wallet)
        (off wallet EvDisconnect (disconnectHandler wallet) w)
  end.

(** The function given to [effect]. *)
Definition effect_body (w : World) : World :=
  match activeWallet w with
  | None => set_effect false None w
  | Some wallet =>
      set_effect false (Some wallet)
        (on wallet EvError (errorHandler wallet)
           (on wallet EvDisconnect (disconnectHandler wallet) w))
  end.

(** A run of the effect: the registered cleanup first, then the body. *)
Definition run_effect (w : World) : World := effect_body (cleanup w).

(** Angular runs the effect, some time after it was marked, when it is
    marked. *)
Definition flush (w : World) : World :=
  if effect_dirty w then run_effect w else w.

(** [constructor()]: the catalog is sorted, and the effect is created,
    which schedules its first run. *)
Definition constructor_ (all_wallets : list WalletAdapter) : World :=
  mkWorld LoggerService.logs_init (sort compare_wallets all_wallets)
          None true None [] [] [].

(** [async disconnect()].  Without an active wallet the awaited value is
    [undefined] and the method only returns. *)
Definition disconnect_settled (r : Settled) (now : Z) (w : World)
  : World * Task :=
  (w, Done r).

Definition disconnect (w : World) : World * Task :=
  match activeWallet w with
  | Some active =>
      (invoke CapDisconnect active w,
       Await active CapDisconnect disconnect_settled)
  | None => (w, Done Fulfilled)
  end.

(** The callbacks given to [then] and [catch] in [connectWallet]; the
    promise that [catch] returns is fulfilled in both cases. *)
Definition connect_settled (wallet : WalletAdapter) (r : Settled) (now : Z)
  (w : World) : World * Task :=
  match r with
  | Fulfilled =>
      (console_log (name wallet ++ " connected ✅")
         (printLog "info" (name wallet ++ " connected ✅") now
            (activeWallet_set (Some wallet) w)),
       Done Fulfilled)
  | Rejected e =>
      (console_error (name wallet ++ " error: " ++ e)
         (printLog "error" (name wallet ++ " error: " ++ e) now w),
       Done Fulfilled)
  end.

(** [await wallet.connect().then(...).catch(...)]. *)
Definition invoke_connect (wallet : WalletAdapter) (w : World)
  : World * Task :=
  (invoke CapConnect wallet w, Await wallet CapConnect (connect_settled wallet)).

(** [async connectWallet(wallet)]. *)
Definition connectWallet (wallet : WalletAdapter) (w : World) : World * Task :=
  if same_wallet (activeWallet w) (Some wallet) then (w, Done Fulfilled)
  else
    match activeWallet w with
    | Some _ =>
        let (w', p) := disconnect w in await_ w' p (invoke_connect wallet)
    | None => invoke_connect wallet w
    end.

(** The continuation [connectWallet(wallet)] waits with while the wallet
    that was active disconnects. *)
Definition swap_settled (wallet : WalletAdapter) (r : Settled) (now : Z)
  (w : World) : World * Task :=
  await_ w (Done r) (invoke_connect wallet).

End WalletService.

(** ** The session as a transition system *)

(** The methods of the service a caller can start. *)
Inductive Op : Type :=
| OpConnect (wallet : WalletAdapter)
| OpDisconnect.

Definition run_op (op : Op) (w : World) : World * Task :=
  match op with
  | OpConnect wallet => WalletService.connectWallet wallet w
  | OpDisconnect => WalletService.disconnect w
  end.

(** The state of the services and the calls that wait at an [await]. *)
Record Sys : Type := mkSys {
  st : World;
  pool : list Task
}.

Definition pending (t : Task) : list Task :=
  match t with
  | Done _ => []
  | Await _ _ _ => [t]
  end.

(** A call of a method of the service that the caller does not await. *)
Definition call (op : Op) (s : Sys) : Sys :=
  let (w, t) := run_op op (st s) in mkSys w (pool s ++ pending t).

(** What can happen, one thing at a time (the event loop runs one job at a
    time): a method of the service is called; the promise the [i]-th waiting
    call awaits settles and the call goes on to its next [await]; an adapter
    emits an event; Angular runs the effect. *)
Inductive Label : Type :=
| Call (op : Op)
| Settle (i : nat) (r : Settled) (now : Z)
| Emit (wallet : WalletAdapter) (ev : EventName) (arg : string) (now : Z)
| Flush.

Definition step (l : Label) (s : Sys) : option Sys :=
  match l with
  | Call op => Some (call op s)
  | Settle i r now =>
      match nth_error (pool s) i with
      | Some (Await _ _ k) =>
          let (w, t) := k r now (st s) in
          Some (mkSys w (firstn i (pool s) ++ pending t ++ skipn (S i) (pool s)))
      | _ => None
      end
  | Emit wallet ev arg now => Some (mkSys (emit wallet ev arg now (st s)) (pool s))
  | Flush => Some (mkSys (WalletService.flush (st s)) (pool s))
  end.

Fixpoint run (ls : list Label) (s : Sys) : option Sys :=
  match ls with
  | [] => Some s
  | l :: ls' =>
      match step l s with
      | Some s' => run ls' s'
      | None => None
      end
  end.

(** The application just started, with the catalog [all]. *)
Definition boot (all : list WalletAdapter) : Sys :=
  mkSys (WalletService.constructor_ all) [].

(** A history in which no method is called while another call still waits:
    every call is awaited to its end before the next. *)
Fixpoint serial (ls : list Label) (s : Sys) : bool :=
  match ls with
  | [] => true
  | l :: ls' =>
      match l with
      | Call _ => match pool s with [] => true | _ => false end
      | _ => true
      end
      && match step l s with
         | Some s' => serial ls' s'
         | None => false
         end
  end.

Definition is_call (l : Label) : bool :=
  match l with
  | Call _ => true
  | _ => false
  end.

(** ** NavbarComponent *)

(** The services together with what the navbar owns: its [openWallet] signal,
    and the tabs it has opened with [window.open(url, target)]. *)
Record Ui : Type := mkUi {
  sys : Sys;
  openWallet : bool;
  windows : list (string * string)
}.

Module NavbarComponent.

(** [openWallets()]. *)
Definition openWallets (u : Ui) : Ui :=
  mkUi (sys u) (negb (openWallet u)) (windows u).

(** [connectWallet(name)]. *)
Definition connectWallet (name_ : string) (u : Ui) : Ui :=
  match find (fun w => String.eqb (name w) name_) (wallets (st (sys u))) with
  | None => u
  | Some wallet =>
      if WalletReadyState_eqb (readyState wallet) Installed
      then mkUi (call (OpConnect wallet) (sys u)) false (windows u)
      else mkUi (sys u) (openWallet u) (windows u ++ [(url wallet, "_blank")])
  end.

(** [disconnectWallet()]. *)
Definition disconnectWallet (u : Ui) : Ui :=
  mkUi (call OpDisconnect (sys u)) (openWallet u) (windows u).

End NavbarComponent.

(** What happens to the page: the user clicks in the navbar, or something
    happens behind it (a promise settles, an adapter emits, the effect runs);
    the navbar is the only caller of the service. *)
Inductive UiLabel : Type :=
| ClickWallet (name_ : string)
| ClickDisconnect
| ClickWallets
| Background (l : Label).

Definition ui_step (l : UiLabel) (u : Ui) : option Ui :=
  match l with
  | ClickWallet name_ => Some (NavbarComponent.connectWallet name_ u)
  | ClickDisconnect => Some (NavbarComponent.disconnectWallet u)
  | ClickWallets => Some (NavbarComponent.openWallets u)
  | Background (Call _) => None
  | Background l' =>
      match step l' (sys u) with
      | Some s' => Some (mkUi s' (openWallet u) (windows u))
      | None => None
      end
  end.

Fixpoint ui_run (ls : list UiLabel) (u : Ui) : option Ui :=
  match ls with
  | [] => Some u
  | l :: ls' =>
      match ui_step l u with
      | Some u' => ui_run ls' u'
      | None => None
      end
  end.

Definition ui_boot (all : list WalletAdapter) : Ui :=
  mkUi (boot all) false [].

(** ** ApiService and HomeComponent *)

Module ApiService.

Record League : Type := mkLeague {
  resource : string;
  id : Z;
  season_id : Z;
  country_id : Z;
  name : string;
  code : string;
  image_path : string;
  type_ : string;
  updated_at : string
}.

Record LeaguesResponse : Type := mkLeaguesResponse {
  leagues : list League
}.

Definition API_BASE_URL : string := "http://localhost:8000".

Record Request : Type := mkRequest {
  method : string;
  target : string
}.

(** What an observable of [HttpClient] delivers to its subscriber: the
    parsed body of the response ([next]), or a failure ([error]). *)
Inductive Outcome (A : Type) : Type :=
| Next (body : A)
| Failed (error : string).
Arguments Next {A} body.
Arguments Failed {A} error.

(** The request of [this.http.get<LeaguesResponse>(...)]. *)
Definition get_leagues_request : Request :=
  {| method := "GET"; target := API_BASE_URL ++ "/get_leagues" |}.

(** [get_leagues()]: the observable of [http.get], handed to the caller as
    it is; [backend] is the transport, the answer it gives to a request. *)
Definition get_leagues (backend : Request -> Outcome LeaguesResponse)
  : Outcome LeaguesResponse :=
  backend get_leagues_request.

End ApiService.

Module HomeComponent.

(** The component: its [leagues] field, and, of the outside, the requests
    it has caused and the logs of the [LoggerService] it writes to. *)
Record t : Type := mk {
  leagues : list ApiService.League;
  sent : list ApiService.Request;
  logs : list Log
}.

(** The callback given to [subscribe]. *)
Definition next (data : ApiService.LeaguesResponse) (now : Z) (h : t) : t :=
  mk (ApiService.leagues data) (sent h)
     (LoggerService.printLog "success" "Leagues fetched successfully ✅"
                             now (logs h)).

(** [subscribe(next)], with no [error] callback: a failure changes nothing
    in the component. *)
Definition subscribe (o : ApiService.Outcome ApiService.LeaguesResponse)
  (now : Z) (h : t) : t :=
  match o with
  | ApiService.Next data => next data now h
  | ApiService.Failed _ => h
  end.

(** [constructor()], up to the moment the answer has been delivered:
    [leagues] is initialised to the empty list, and the one subscription
    sends the one request. *)
Definition constructor_
  (backend : ApiService.Request -> ApiService.Outcome ApiService.LeaguesResponse)
  (now : Z) (logs0 : list Log) : t :=
  subscribe (ApiService.get_leagues backend) now
            (mk [] [ApiService.get_leagues_request] logs0).

End HomeComponent.

(** ** Notions used to state the properties *)

(** The listeners the effect holds after a run that registered its cleanup
    for [c]: the two of the body, in the order of the two [on] calls. *)
Definition subscribed (c : option WalletAdapter) : list Listener :=
  match c with
  | None => []
  | Some wallet =>
      [ mkListener wallet EvDisconnect (disconnectHandler wallet);
        mkListener wallet EvError (errorHandler wallet) ]
  end.

(** The effect and the listeners agree: the listeners are those of the last
    run of the effect, and, when no run is scheduled, that run was for the
    wallet that is active now. *)
Definition effect_in_step (w : World) : Prop :=
  listeners w = subscribed (effect_cleanup w)
  /\ (effect_dirty w = false -> effect_cleanup w = activeWallet w).

(** The calls that can wait in the pool: each is a call of [disconnect] or of
    [connectWallet wallet], for a [wallet] among those [P] allows, stopped at
    one of its [await]s. *)
Inductive waiting (P : WalletAdapter -> Prop) : Task -> Prop :=
| waiting_disconnect (active : WalletAdapter) :
    waiting P (Await active CapDisconnect WalletService.disconnect_settled)
| waiting_swap (active wallet : WalletAdapter) :
    P wallet ->
    waiting P (Await active CapDisconnect (WalletService.swap_settled wallet))
| waiting_connect (wallet : WalletAdapter) :
    P wallet ->
    waiting P (Await wallet CapConnect (WalletService.connect_settled wallet)).

(** Labels of the things that happen behind the calls. *)
Definition background (l : Label) : bool :=
  match l with
  | Emit _ _ _ _ | Flush => true
  | Call _ | Settle _ _ _ => false
  end.

(** In the history [hist], played from [start], the last call is
    [connectWallet wallet], made while [active] was the active wallet and
    nothing else was waiting; it invoked [active.disconnect()] and waited for
    it; that promise has been fulfilled since, and only then did the call go
    on; nothing else was called or settled in between. *)
Definition disconnected_first (active wallet : WalletAdapter) (start : Sys)
  (hist : list Label) : Prop :=
  exists (pre mid1 mid2 : list Label) (t : Z) (s0 : Sys),
    hist = pre ++ Call (OpConnect wallet) :: mid1
               ++ Settle 0 Fulfilled t :: mid2
    /\ run pre start = Some s0
    /\ activeWallet (st s0) = Some active
    /\ call (OpConnect wallet) s0
       = mkSys (invoke CapDisconnect active (st s0))
               [Await active CapDisconnect (WalletService.swap_settled wallet)]
    /\ forallb background mid1 = true
    /\ forallb background mid2 = true.

(** The state of a serial history, with what the history tells about the
    call that waits. *)
Inductive phase (start : Sys) : list Label -> Sys -> Prop :=
| phase_idle hist s :
    pool s = [] ->
    phase start hist s
| phase_disconnecting hist s active :
    pool s = [Await active CapDisconnect WalletService.disconnect_settled] ->
    phase start hist s
| phase_swapping hist s active wallet pre mid s0 :
    pool s = [Await active CapDisconnect (WalletService.swap_settled wallet)] ->
    hist = pre ++ Call (OpConnect wallet) :: mid ->
    run pre start = Some s0 ->
    activeWallet (st s0) = Some active ->
    call (OpConnect wallet) s0
    = mkSys (invoke CapDisconnect active (st s0))
            [Await active CapDisconnect (WalletService.swap_settled wallet)] ->
    forallb background mid = true ->
    activeWallet (st s) = None \/ activeWallet (st s) = Some active ->
    phase start hist s
| phase_connecting hist s wallet :
    pool s = [Await wallet CapConnect (WalletService.connect_settled wallet)] ->
    (forall active, activeWallet (st s) = Some active ->
                    disconnected_first active wallet start hist) ->
    phase start hist s.

(** The priority of a wallet, and the order of the sorted catalog. *)
Definition wallet_priority (a : WalletAdapter) : Z := priority (readyState a).

Definition by_priority (a b : WalletAdapter) : Prop :=
  (wallet_priority a <= wallet_priority b)%Z.

(** An invocation is allowed when, if it is an invocation of [connect], its
    wallet is among those [P] allows. *)
Definition allowed (P : WalletAdapter -> Prop) (c : Capability * WalletAdapter)
  : Prop :=
  fst c = CapConnect -> P (snd c).

(** What every piece of the application does to the world, at most: the
    catalog stays, the log and the invocations grow at the end, the effect and
    the listeners stay in step. *)
Definition extends (P : WalletAdapter -> Prop) (w w' : World) : Prop :=
  wallets w' = wallets w
  /\ (exists more, logs w' = logs w ++ more)
  /\ (exists more, invoked w' = invoked w ++ more /\ Forall (allowed P) more)
  /\ (effect_in_step w -> effect_in_step w').

(** The states the application can be in. *)
Definition sound (P : WalletAdapter -> Prop) (s : Sys) : Prop :=
  effect_in_step (st s)
  /\ Forall (waiting P) (pool s)
  /\ Forall (allowed P) (invoked (st s)).

Definition any_wallet (_ : WalletAdapter) : Prop := True.

Definition installed (wallet : WalletAdapter) : Prop :=
  readyState wallet = Installed.

(** A message contains a name. *)
Definition contains (s sub : string) : Prop :=
  exists pre post : string, s = (pre ++ sub ++ post)%string.

(** Wallets of the examples. *)
Definition walletA : WalletAdapter := mkWallet 1 "Phantom" "https://phantom.app" Installed.
Definition walletB : WalletAdapter := mkWallet 2 "Solflare" "https://solflare.com" Installed.
Definition walletC : WalletAdapter := mkWallet 3 "Ledger" "https://www.ledger.com" Loadable.
Definition walletD : WalletAdapter := mkWallet 4 "Trezor" "https://trezor.io" Unsupported.

(** ** Notions for the further properties *)

(** The entries the wallet service writes: a wallet connected, a wallet
    disconnected, an error of a wallet. *)
Definition service_entry (e : Log) : Prop :=
  exists wallet : WalletAdapter,
    (topic e = "info" /\ message e = (name wallet ++ " connected ✅")%string)
    \/ (topic e = "info"
        /\ message e = (name wallet ++ " disconnected ❌")%string)
    \/ (topic e = "error"
        /\ exists reason : string,
             message e = (name wallet ++ " error: " ++ reason)%string).

(** The log grows at its end, by entries that are all [Q]. *)
Definition appends (Q : Log -> Prop) (w w' : World) : Prop :=
  exists more, logs w' = logs w ++ more /\ Forall Q more.

(** The wallets the navbar offers to connect: those of the catalog that are
    installed. *)
Definition offered (all : list WalletAdapter) (wallet : WalletAdapter) : Prop :=
  readyState wallet = Installed /\ In wallet (sort compare_wallets all).

(** What the user does in the navbar, as opposed to what happens behind. *)
Definition is_click (l : UiLabel) : bool :=
  match l with
  | Background _ => false
  | _ => true
  end.

(** ** The page : the wallet service and HomeComponent on one log *)

(** [HomeComponent] injects the root [LoggerService], the one [WalletService]
    writes to.  The page is the services together with the [leagues] field
    of the component. *)
Record Page : Type := mkPage {
  services : Sys;
  home_leagues : list ApiService.League
}.

(** What happens on the page: something of the wallet service, or the
    leagues arrive and [HomeComponent] runs the callback it gave to
    [subscribe] (a component is created each time its route is shown, so
    this can happen more than once; a request that fails runs nothing). *)
Inductive PageLabel : Type :=
| Service (l : Label)
| LeaguesFetched (data : ApiService.LeaguesResponse) (now : Z).

Definition page_step (l : PageLabel) (p : Page) : option Page :=
  match l with
  | Service l' =>
      match step l' (services p) with
      | Some s' => Some (mkPage s' (home_leagues p))
      | None => None
      end
  | LeaguesFetched data now =>
      Some (mkPage
              (mkSys (printLog "success" "Leagues fetched successfully ✅" now
                        (st (services p)))
                     (pool (services p)))
              (ApiService.leagues data))
  end.

Fixpoint page_run (ls : list PageLabel) (p : Page) : option Page :=
  match ls with
  | [] => Some p
  | l :: ls' =>
      match page_step l p with
      | Some p' => page_run ls' p'
      | None => None
      end
  end.

Definition page_boot (all : list WalletAdapter) : Page :=
  mkPage (boot all) [].

(** The entry [HomeComponent] writes. *)
Definition home_entry (e : Log) : Prop :=
  topic e = "success" /\ message e = "Leagues fetched successfully ✅".

(** The reading of the clock at a step: what [new Date()] returns if the
    step calls it. *)
Definition clock_of (l : Label) : option Z :=
  match l with
  | Settle _ _ now | Emit _ _ _ now => Some now
  | Call _ | Flush => None
  end.

Definition page_clock (l : PageLabel) : option Z :=
  match l with
  | Service l' => clock_of l'
  | LeaguesFetched _ now => Some now
  end.

(** The successive readings of the clock along a history. *)
Definition readings (hist : list PageLabel) : list Z :=
  flat_map (fun l => match page_clock l with
                     | Some t => [t]
                     | None => []
                     end) hist.

(** An entry written at a step whose clock reading is [c]. *)
Definition stamped (c : option Z) (e : Log) : Prop :=
  c = Some (timestamp e).

(** The adapter [a] emits 'disconnect'. *)
Definition disconnect_event_of (a : WalletAdapter) (l : Label) : bool :=
  match l with
  | Emit x EvDisconnect _ _ => WalletAdapter_eqb x a
  | _ => false
  end.

(** ** The earlier wallet service *)

(** The first version of wallet.service.ts: no [LoggerService], no guard and
    no disconnect in [connectWallet], and an effect that registers its
    handlers without a cleanup; the handlers read [activeWallet] when they
    run. *)
Module Legacy.

(** The two arrow functions given to [on]. *)
Inductive Handler : Type := onDisconnect | onError.

Record Listener : Type := mkListener {
  target : WalletAdapter;
  event : EventName;
  handler : Handler
}.

Record World : Type := mkWorld {
  wallets : list WalletAdapter;
  activeWallet : option WalletAdapter;
  effect_dirty : bool;
  listeners : list Listener;
  invoked : list (Capability * WalletAdapter);
  console : list (ConsoleLevel * string)
}.

Definition console_log (text : string) (w : World) : World :=
  mkWorld (wallets w) (activeWallet w) (effect_dirty w) (listeners w)
          (invoked w) (console w ++ [(ConsoleLog, text)]).

Definition console_error (text : string) (w : World) : World :=
  mkWorld (wallets w) (activeWallet w) (effect_dirty w) (listeners w)
          (invoked w) (console w ++ [(ConsoleError, text)]).

(** [this.activeWallet.set(v)]. *)
Definition activeWallet_set (v : option WalletAdapter) (w : World) : World :=
  if same_wallet (activeWallet w) v then w
  else mkWorld (wallets w) v true (listeners w) (invoked w) (console w).

(** [wallet.on(event, handler)]. *)
Definition on (wallet : WalletAdapter) (ev : EventName) (h : Handler)
  (w : World) : World :=
  mkWorld (wallets w) (activeWallet w) (effect_dirty w)
          (listeners w ++ [mkListener wallet ev h]) (invoked w) (console w).

Definition invoke (cap : Capability) (wallet : WalletAdapter) (w : World)
  : World :=
  mkWorld (wallets w) (activeWallet w) (effect_dirty w) (listeners w)
          (invoked w ++ [(cap, wallet)]) (console w).

(** [`${this.activeWallet()?.name}`]: the name of the wallet that is active
    when the template is evaluated, and the text [undefined] when none is. *)
Definition active_name (w : World) : string :=
  match activeWallet w with
  | Some active => name active
  | None => "undefined"
  end.

(** The bodies of the two handlers; the first sets the signal, then reads
    it. *)
Definition run_handler (h : Handler) (arg : string) (w : World) : World :=
  match h with
  | onDisconnect =>
      let w' := activeWallet_set None w in
      console_log (active_name w' ++ " disconnected ❌") w'
  | onError => console_error (active_name w ++ " error: " ++ arg) w
  end.

Definition handlers_for (wallet : WalletAdapter) (ev : EventName)
  (ls : list Listener) : list Handler :=
  map handler
      (filter (fun l => WalletAdapter_eqb (target l) wallet
                        && EventName_eqb (event l) ev) ls).

Definition emit (wallet : WalletAdapter) (ev : EventName) (arg : string)
  (w : World) : World :=
  fold_left (fun acc h => run_handler h arg acc)
            (handlers_for wallet ev (listeners w)) w.

(** The function given to [effect]: two [on] calls on the active wallet, if
    there is one; nothing is registered with [onCleanup]. *)
Definition effect_body (w : World) : World :=
  match activeWallet w with
  | Some active => on active EvError onError (on active EvDisconnect onDisconnect w)
  | None => w
  end.

Definition run_effect (w : World) : World :=
  let w' := effect_body w in
  mkWorld (wallets w') (activeWallet w') false (listeners w') (invoked w')
          (console w').

Definition flush (w : World) : World :=
  if effect_dirty w then run_effect w else w.

(** [constructor()]. *)
Definition constructor_ (all_wallets : list WalletAdapter) : World :=
  mkWorld (sort compare_wallets all_wallets) None true [] [] [].

Inductive Task : Type :=
| Done (r : Settled)
| Await (wallet : WalletAdapter) (cap : Capability)
        (k : Settled -> World -> World * Task).

(** The callbacks given to [then] and [catch]. *)
Definition connect_settled (wallet : WalletAdapter) (r : Settled) (w : World)
  : World * Task :=
  match r with
  | Fulfilled =>
      (console_log (name wallet ++ " connected ✅")
         (activeWallet_set (Some wallet) w),
       Done Fulfilled)
  | Rejected e => (console_error e w, Done Fulfilled)
  end.

(** [async connectWallet(wallet)]. *)
Definition connectWallet (wallet : WalletAdapter) (w : World) : World * Task :=
  (invoke CapConnect wallet w, Await wallet CapConnect (connect_settled wallet)).

Definition disconnect_settled (r : Settled) (w : World) : World * Task :=
  (w, Done r).

(** [async disconnect()]. *)
Definition disconnect (w : World) : World * Task :=
  match activeWallet w with
  | Some active =>
      (invoke CapDisconnect active w,
       Await active CapDisconnect disconnect_settled)
  | None => (w, Done Fulfilled)
  end.

Definition run_op (op : Op) (w : World) : World * Task :=
  match op with
  | OpConnect wallet => connectWallet wallet w
  | OpDisconnect => disconnect w
  end.

Record Sys : Type := mkSys {
  st : World;
  pool : list Task
}.

Definition pending (t : Task) : list Task :=
  match t with
  | Done _ => []
  | Await _ _ _ => [t]
  end.

Definition call (op : Op) (s : Sys) : Sys :=
  let (w, t) := run_op op (st s) in mkSys w (pool s ++ pending t).

Inductive Label : Type :=
| Call (op : Op)
| Settle (i : nat) (r : Settled)
| Emit (wallet : WalletAdapter) (ev : EventName) (arg : string)
| Flush.

Definition step (l : Label) (s : Sys) : option Sys :=
  match l with
  | Call op => Some (call op s)
  | Settle i r =>
      match nth_error (pool s) i with
      | Some (Await _ _ k) =>
          let (w, t) := k r (st s) in
          Some (mkSys w (firstn i (pool s) ++ pending t ++ skipn (S i) (pool s)))
      | _ => None
      end
  | Emit wallet ev arg => Some (mkSys (emit wallet ev arg (st s)) (pool s))
  | Flush => Some (mkSys (flush (st s)) (pool s))
  end.

Fixpoint run (ls : list Label) (s : Sys) : option Sys :=
  match ls with
  | [] => Some s
  | l :: ls' =>
      match step l s with
      | Some s' => run ls' s'
      | None => None
      end
  end.

Definition boot (all : list WalletAdapter) : Sys :=
  mkSys (constructor_ all) [].

(** The calls that can wait. *)
Inductive waiting : Task -> Prop :=
| waiting_disconnect (active : WalletAdapter) :
    waiting (Await active CapDisconnect disconnect_settled)
| waiting_connect (wallet : WalletAdapter) :
    waiting (Await wallet CapConnect (connect_settled wallet)).

(** Each listener was registered by the effect: the handler is the one of
    its event. *)
Definition registered (l : Listener) : Prop :=
  match event l with
  | EvDisconnect => handler l = onDisconnect
  | EvError => handler l = onError
  end.

Definition sound (s : Sys) : Prop :=
  Forall waiting (pool s) /\ Forall registered (listeners (st s)).

(** The invocations the calls of a history make, when none of them is a call
    of [disconnect]. *)
Definition connects_of (hist : list Label) : list (Capability * WalletAdapter) :=
  flat_map (fun l => match l with
                     | Call (OpConnect wallet) => [(CapConnect, wallet)]
                     | _ => []
                     end) hist.

Definition calls_disconnect (l : Label) : bool :=
  match l with
  | Call OpDisconnect => true
  | _ => false
  end.

(** A wallet connects, the effect runs, the wallet disconnects by itself,
    the effect runs: [n] times over. *)
Fixpoint sessions (wallet : WalletAdapter) (n : nat) : list Label :=
  match n with
  | O => []
  | S n' =>
      sessions wallet n'
      ++ [ Call (OpConnect wallet); Settle 0 Fulfilled; Flush;
           Emit wallet EvDisconnect ""; Flush ]
  end.

End Legacy.

(* ================================================================= *)
(** * Part II : properties *)
(* ================================================================= *)

(** ** Equality tests *)

Lemma WalletReadyState_eqb_eq (a b : WalletReadyState) :
  WalletReadyState_eqb a b = true <-> a = b.
Proof. destruct a, b; simpl; split; congruence. Qed.

Lemma WalletAdapter_eqb_eq (a b : WalletAdapter) :
  WalletAdapter_eqb a b = true <-> a = b.
Proof.
  unfold WalletAdapter_eqb. destruct a as [i n u r], b as [i' n' u' r']; simpl.
  rewrite !andb_true_iff, Nat.eqb_eq, !String.eqb_eq, WalletReadyState_eqb_eq.
  split.
  - intros [[[-> ->] ->] ->]. reflexivity.
  - intros H. injection H as -> -> -> ->. auto.
Qed.

Lemma WalletAdapter_eqb_refl (a : WalletAdapter) : WalletAdapter_eqb a a = true.
Proof. apply WalletAdapter_eqb_eq. reflexivity. Qed.

Lemma WalletAdapter_eqb_neq (a b : WalletAdapter) :
  WalletAdapter_eqb a b = false <-> a <> b.
Proof.
  rewrite <- WalletAdapter_eqb_eq. destruct (WalletAdapter_eqb a b); split;
    congruence.
Qed.

Lemma same_wallet_eq (x y : option WalletAdapter) :
  same_wallet x y = true <-> x = y.
Proof.
  destruct x as [a|], y as [b|]; simpl; try (split; congruence).
  rewrite WalletAdapter_eqb_eq. split; congruence.
Qed.

Lemma same_wallet_neq (x y : option WalletAdapter) :
  same_wallet x y = false <-> x <> y.
Proof.
  rewrite <- same_wallet_eq. destruct (same_wallet x y); split; congruence.
Qed.

(** ** The log *)

Section Logs.

Import LoggerService.

Lemma printLogs_app (calls : list Append) (logs0 : list Log) :
  printLogs calls logs0 = logs0 ++ map entry_of calls.
Proof.
  unfold printLogs. revert logs0.
  induction calls as [|a calls IH]; intros logs0; simpl.
  - now rewrite app_nil_r.
  - rewrite IH. unfold printLog, entry_of. now rewrite <- app_assoc.
Qed.

Lemma timestamps_of_entries (calls : list Append) :
  map timestamp (map entry_of calls) = map a_now calls.
Proof. rewrite map_map. reflexivity. Qed.

End Logs.

(** ** The catalog *)

Section Catalog.

Lemma sort_insert_perm (x : WalletAdapter) (l : list WalletAdapter) :
  Permutation (x :: l) (sort_insert compare_wallets x l).
Proof.
  induction l as [|y l IH]; simpl; [reflexivity|].
  destruct (0 <? compare_wallets x y)%Z; [|reflexivity].
  rewrite perm_swap. now constructor.
Qed.

Lemma sort_perm (l : list WalletAdapter) :
  Permutation l (sort compare_wallets l).
Proof.
  induction l as [|x l IH]; simpl; [reflexivity|].
  rewrite <- sort_insert_perm. now constructor.
Qed.

Lemma sort_insert_sorted (x : WalletAdapter) (l : list WalletAdapter) :
  StronglySorted by_priority l ->
  StronglySorted by_priority (sort_insert compare_wallets x l).
Proof.
  induction 1 as [|y l Hs IH Hall]; simpl.
  - repeat constructor.
  - destruct (0 <? compare_wallets x y)%Z eqn:E.
    + constructor; [exact IH|].
      rewrite <- (sort_insert_perm x l). constructor; [|exact Hall].
      apply Z.ltb_lt in E. unfold compare_wallets in E.
      unfold by_priority, wallet_priority. lia.
    + apply Z.ltb_ge in E. unfold compare_wallets in E.
      constructor; [now constructor|].
      constructor; [unfold by_priority, wallet_priority; lia|].
      eapply Forall_impl; [|exact Hall].
      unfold by_priority, wallet_priority. intros; lia.
Qed.

Lemma sort_sorted (l : list WalletAdapter) :
  StronglySorted by_priority (sort compare_wallets l).
Proof.
  induction l as [|x l IH]; simpl; [constructor|].
  now apply sort_insert_sorted.
Qed.

(** Inserting goes past the elements the comparator puts first. *)
Lemma sort_insert_skip (x : WalletAdapter) (front back : list WalletAdapter) :
  Forall (fun y => wallet_priority y < wallet_priority x)%Z front ->
  sort_insert compare_wallets x (front ++ back)
  = front ++ sort_insert compare_wallets x back.
Proof.
  induction 1 as [|y front Hy _ IH]; simpl; [reflexivity|].
  replace (0 <? compare_wallets x y)%Z with true.
  - now rewrite IH.
  - symmetry. apply Z.ltb_lt. unfold compare_wallets. fold (wallet_priority x) (wallet_priority y).
    lia.
Qed.

(** And stops in front of the first of the others. *)
Lemma sort_insert_stop (x : WalletAdapter) (back : list WalletAdapter) :
  Forall (fun y => wallet_priority x <= wallet_priority y)%Z back ->
  sort_insert compare_wallets x back = x :: back.
Proof.
  destruct 1 as [|y back Hy _]; simpl; [reflexivity|].
  replace (0 <? compare_wallets x y)%Z with false; [reflexivity|].
  symmetry. apply Z.ltb_ge. unfold compare_wallets. fold (wallet_priority x) (wallet_priority y).
  lia.
Qed.

Lemma with_state_prio (r : WalletReadyState) (l : list WalletAdapter) :
  Forall (fun y => wallet_priority y = priority r) (with_state r l).
Proof.
  apply Forall_forall. intros y Hy. apply filter_In in Hy as [_ Hy].
  apply WalletReadyState_eqb_eq in Hy. unfold wallet_priority. now rewrite Hy.
Qed.

Lemma with_state_cons (r : WalletReadyState) (x : WalletAdapter)
  (l : list WalletAdapter) :
  with_state r (x :: l)
  = if WalletReadyState_eqb (readyState x) r then x :: with_state r l
    else with_state r l.
Proof. reflexivity. Qed.

(** The sorted catalog, bucket by bucket. *)
Lemma sort_buckets (l : list WalletAdapter) :
  sort compare_wallets l
  = with_state Installed l ++ with_state Loadable l
    ++ with_state NotDetected l ++ with_state Unsupported l.
Proof.
  induction l as [|x l IH]; [reflexivity|].
  simpl sort. rewrite IH. rewrite !with_state_cons.
  pose proof (with_state_prio Installed l) as H0.
  pose proof (with_state_prio Loadable l) as H1.
  pose proof (with_state_prio NotDetected l) as H2.
  pose proof (with_state_prio Unsupported l) as H3.
  assert (Hlt : forall r p (k : list WalletAdapter),
             Forall (fun y => wallet_priority y = priority r) k ->
             (priority r < p)%Z -> Forall (fun y => wallet_priority y < p)%Z k).
  { intros r p k Hk Hp. eapply Forall_impl; [|exact Hk]. simpl. intros; lia. }
  assert (Hle : forall r p (k : list WalletAdapter),
             Forall (fun y => wallet_priority y = priority r) k ->
             (p <= priority r)%Z -> Forall (fun y => p <= wallet_priority y)%Z k).
  { intros r p k Hk Hp. eapply Forall_impl; [|exact Hk]. simpl. intros; lia. }
  destruct (readyState x) eqn:Ex; simpl WalletReadyState_eqb; cbv iota.
  - (* Installed *)
    rewrite sort_insert_stop; [reflexivity|].
    unfold wallet_priority at 1; rewrite Ex.
    repeat (apply Forall_app; split); eapply Hle; eauto; simpl; lia.
  - (* NotDetected *)
    rewrite sort_insert_skip
      by (unfold wallet_priority at 2; rewrite Ex; eapply Hlt; eauto; simpl; lia).
    rewrite sort_insert_skip
      by (unfold wallet_priority at 2; rewrite Ex; eapply Hlt; eauto; simpl; lia).
    rewrite sort_insert_stop; [reflexivity|].
    unfold wallet_priority at 1; rewrite Ex.
    repeat (apply Forall_app; split); eapply Hle; eauto; simpl; lia.
  - (* Loadable *)
    rewrite sort_insert_skip
      by (unfold wallet_priority at 2; rewrite Ex; eapply Hlt; eauto; simpl; lia).
    rewrite sort_insert_stop; [reflexivity|].
    unfold wallet_priority at 1; rewrite Ex.
    repeat (apply Forall_app; split); eapply Hle; eauto; simpl; lia.
  - (* Unsupported *)
    rewrite sort_insert_skip
      by (unfold wallet_priority at 2; rewrite Ex; eapply Hlt; eauto; simpl; lia).
    rewrite sort_insert_skip
      by (unfold wallet_priority at 2; rewrite Ex; eapply Hlt; eauto; simpl; lia).
    rewrite sort_insert_skip
      by (unfold wallet_priority at 2; rewrite Ex; eapply Hlt; eauto; simpl; lia).
    rewrite sort_insert_stop; [reflexivity|].
    unfold wallet_priority at 1; rewrite Ex.
    eapply Hle; eauto; simpl; lia.
Qed.

Lemma with_state_with_state (r r' : WalletReadyState) (l : list WalletAdapter) :
  with_state r (with_state r' l)
  = if WalletReadyState_eqb r' r then with_state r l else [].
Proof.
  induction l as [|x l IH]; simpl; [now destruct (WalletReadyState_eqb r' r)|].
  fold (with_state r' l) (with_state r l).
  destruct (readyState x) eqn:Ex, r', r; simpl; rewrite ?Ex; simpl;
    fold (with_state Installed l) (with_state Loadable l)
         (with_state NotDetected l) (with_state Unsupported l);
    rewrite ?IH; reflexivity.
Qed.

(** Stability: the wallets of one ready state keep their order. *)
Lemma sort_stable (r : WalletReadyState) (l : list WalletAdapter) :
  with_state r (sort compare_wallets l) = with_state r l.
Proof.
  rewrite sort_buckets. unfold with_state at 1. rewrite !filter_app.
  fold (with_state r (with_state Installed l))
       (with_state r (with_state Loadable l))
       (with_state r (with_state NotDetected l))
       (with_state r (with_state Unsupported l)).
  rewrite !with_state_with_state.
  destruct r; simpl; now rewrite ?app_nil_r.
Qed.

End Catalog.

(** ** What the pieces of the service do to the world *)

Arguments WalletAdapter_eqb : simpl never.

Section Extends.

Variable P : WalletAdapter -> Prop.

Lemma extends_quiet (w w' : World) (ll : list Log)
  (cc : list (Capability * WalletAdapter)) :
  wallets w' = wallets w ->
  logs w' = logs w ++ ll ->
  invoked w' = invoked w ++ cc ->
  Forall (allowed P) cc ->
  listeners w' = listeners w ->
  effect_cleanup w' = effect_cleanup w ->
  (effect_dirty w' = false ->
   effect_dirty w = false /\ activeWallet w' = activeWallet w) ->
  extends P w w'.
Proof.
  intros Hw Hl Hi Hc Hls Hcl Hd. unfold extends.
  split; [exact Hw|]. split; [now exists ll|]. split; [now exists cc|].
  intros [H1 H2]. split.
  - congruence.
  - intros E. destruct (Hd E) as [E1 E2]. rewrite Hcl, E2. auto.
Qed.

Lemma extends_refl (w : World) : extends P w w.
Proof.
  apply (extends_quiet w w [] []); auto; now rewrite app_nil_r.
Qed.

Lemma extends_trans (w1 w2 w3 : World) :
  extends P w1 w2 -> extends P w2 w3 -> extends P w1 w3.
Proof.
  intros (Hw & [l1 Hl] & [c1 [Hc Hp]] & He) (Hw' & [l2 Hl'] & [c2 [Hc' Hp']] & He').
  unfold extends.
  split; [congruence|]. split; [|split].
  - exists (l1 ++ l2). rewrite Hl', Hl. now rewrite app_assoc.
  - exists (c1 ++ c2). rewrite Hc', Hc, app_assoc. split; [reflexivity|].
    apply Forall_app. auto.
  - auto.
Qed.

Lemma extends_printLog (topic message : string) (now : Z) (w : World) :
  extends P w (printLog topic message now w).
Proof.
  eapply (extends_quiet _ _ _ []); simpl; auto; try reflexivity.
  now rewrite app_nil_r.
Qed.

Lemma extends_console_log (text : string) (w : World) :
  extends P w (console_log text w).
Proof.
  apply (extends_quiet _ _ [] []); simpl; auto; now rewrite app_nil_r.
Qed.

Lemma extends_console_error (text : string) (w : World) :
  extends P w (console_error text w).
Proof.
  apply (extends_quiet _ _ [] []); simpl; auto; now rewrite app_nil_r.
Qed.

Lemma extends_invoke (cap : Capability) (wallet : WalletAdapter) (w : World) :
  (cap = CapConnect -> P wallet) ->
  extends P w (invoke cap wallet w).
Proof.
  intros HP.
  apply (extends_quiet _ _ [] [(cap, wallet)]); simpl; auto;
    try (now rewrite app_nil_r); try (constructor; [exact HP|constructor]).
Qed.

Lemma extends_activeWallet_set (v : option WalletAdapter) (w : World) :
  extends P w (activeWallet_set v w).
Proof.
  unfold activeWallet_set. destruct (same_wallet (activeWallet w) v).
  - apply extends_refl.
  - apply (extends_quiet _ _ [] []); simpl; auto;
      try (now rewrite app_nil_r); discriminate.
Qed.

Lemma extends_run_handler (h : Handler) (arg : string) (now : Z) (w : World) :
  extends P w (run_handler h arg now w).
Proof.
  destruct h; simpl.
  - eapply extends_trans; [apply extends_printLog|apply extends_activeWallet_set].
  - apply extends_printLog.
Qed.

Lemma extends_emit (wallet : WalletAdapter) (ev : EventName) (arg : string)
  (now : Z) (w : World) :
  extends P w (emit wallet ev arg now w).
Proof.
  unfold emit.
  generalize (handlers_for wallet ev (listeners w)) as hs. intros hs.
  revert w. induction hs as [|h hs IH]; intros w; simpl.
  - apply extends_refl.
  - eapply extends_trans; [apply extends_run_handler|apply IH].
Qed.

(** The cleanup removes the two listeners of the run that registered it. *)
Lemma cleanup_listeners (w : World) :
  listeners w = subscribed (effect_cleanup w) ->
  listeners (WalletService.cleanup w) = [].
Proof.
  unfold WalletService.cleanup. destruct (effect_cleanup w) as [c|]; simpl.
  - intros ->. unfold Listener_eqb. simpl.
    do 3 (rewrite ?WalletAdapter_eqb_refl; simpl). reflexivity.
  - auto.
Qed.

Lemma cleanup_frame (w : World) :
  logs (WalletService.cleanup w) = logs w
  /\ wallets (WalletService.cleanup w) = wallets w
  /\ activeWallet (WalletService.cleanup w) = activeWallet w
  /\ invoked (WalletService.cleanup w) = invoked w
  /\ console (WalletService.cleanup w) = console w.
Proof.
  unfold WalletService.cleanup. destruct (effect_cleanup w); simpl; auto.
Qed.

(** A run of the effect, on a world where effect and listeners agree. *)
Lemma run_effect_listeners (w : World) :
  listeners w = subscribed (effect_cleanup w) ->
  listeners (WalletService.run_effect w) = subscribed (activeWallet w)
  /\ effect_cleanup (WalletService.run_effect w) = activeWallet w
  /\ effect_dirty (WalletService.run_effect w) = false.
Proof.
  intros H. apply cleanup_listeners in H.
  destruct (cleanup_frame w) as (_ & _ & Ha & _).
  unfold WalletService.run_effect, WalletService.effect_body.
  rewrite Ha. destruct (activeWallet w) as [a|]; simpl; rewrite H; auto.
Qed.

Lemma run_effect_frame (w : World) :
  logs (WalletService.run_effect w) = logs w
  /\ wallets (WalletService.run_effect w) = wallets w
  /\ activeWallet (WalletService.run_effect w) = activeWallet w
  /\ invoked (WalletService.run_effect w) = invoked w
  /\ console (WalletService.run_effect w) = console w.
Proof.
  destruct (cleanup_frame w) as (Hl & Hw & Ha & Hi & Hc).
  unfold WalletService.run_effect, WalletService.effect_body.
  destruct (activeWallet (WalletService.cleanup w)) eqn:E; simpl;
    repeat split; congruence.
Qed.

Lemma flush_frame (w : World) :
  logs (WalletService.flush w) = logs w
  /\ wallets (WalletService.flush w) = wallets w
  /\ activeWallet (WalletService.flush w) = activeWallet w
  /\ invoked (WalletService.flush w) = invoked w
  /\ console (WalletService.flush w) = console w.
Proof.
  unfold WalletService.flush. destruct (effect_dirty w); auto.
  apply run_effect_frame.
Qed.

(** After the effect has run, the listeners are those of the active wallet,
    and no others. *)
Lemma flush_listeners (w : World) :
  effect_in_step w ->
  listeners (WalletService.flush w) = subscribed (activeWallet w)
  /\ effect_cleanup (WalletService.flush w) = activeWallet w
  /\ effect_dirty (WalletService.flush w) = false.
Proof.
  intros [Hl Hd]. unfold WalletService.flush.
  destruct (effect_dirty w) eqn:E.
  - now apply run_effect_listeners.
  - rewrite Hl, (Hd eq_refl). auto.
Qed.

Lemma extends_flush (w : World) : extends P w (WalletService.flush w).
Proof.
  destruct (flush_frame w) as (Hl & Hw & Ha & Hi & _). unfold extends.
  split; [exact Hw|]. split; [|split].
  - exists []. now rewrite app_nil_r.
  - exists []. rewrite app_nil_r. auto.
  - intros H. destruct (flush_listeners w H) as (H1 & H2 & H3).
    split; [congruence|]. intros _. congruence.
Qed.

(** The continuations. *)
Lemma extends_disconnect_settled (r : Settled) (now : Z) (w : World) :
  extends P w (fst (WalletService.disconnect_settled r now w))
  /\ Forall (waiting P) (pending (snd (WalletService.disconnect_settled r now w))).
Proof. simpl. split; [apply extends_refl|constructor]. Qed.

Lemma extends_invoke_connect (wallet : WalletAdapter) (w : World) :
  P wallet ->
  extends P w (fst (WalletService.invoke_connect wallet w))
  /\ Forall (waiting P) (pending (snd (WalletService.invoke_connect wallet w))).
Proof.
  intros HP. simpl. split; [now apply extends_invoke|].
  constructor; [now constructor|constructor].
Qed.

Lemma extends_swap_settled (wallet : WalletAdapter) (r : Settled) (now : Z)
  (w : World) :
  P wallet ->
  extends P w (fst (WalletService.swap_settled wallet r now w))
  /\ Forall (waiting P) (pending (snd (WalletService.swap_settled wallet r now w))).
Proof.
  intros HP. unfold WalletService.swap_settled. destruct r as [|e]; simpl.
  - split; [now apply extends_invoke|]. constructor; [now constructor|constructor].
  - split; [apply extends_refl|constructor].
Qed.

Lemma extends_connect_settled (wallet : WalletAdapter) (r : Settled) (now : Z)
  (w : World) :
  extends P w (fst (WalletService.connect_settled wallet r now w))
  /\ Forall (waiting P) (pending (snd (WalletService.connect_settled wallet r now w))).
Proof.
  destruct r as [|e]; simpl; (split; [|constructor]).
  - eapply extends_trans; [apply extends_activeWallet_set|].
    eapply extends_trans; [apply extends_printLog|apply extends_console_log].
  - eapply extends_trans; [apply extends_printLog|apply extends_console_error].
Qed.

(** The first step of [connectWallet], case by case. *)
Lemma connectWallet_steps (wallet : WalletAdapter) (w : World) :
  (activeWallet w = Some wallet
   /\ WalletService.connectWallet wallet w = (w, Done Fulfilled))
  \/ (activeWallet w = None
      /\ WalletService.connectWallet wallet w
         = (invoke CapConnect wallet w,
            Await wallet CapConnect (WalletService.connect_settled wallet)))
  \/ (exists active,
        activeWallet w = Some active /\ active <> wallet
        /\ WalletService.connectWallet wallet w
           = (invoke CapDisconnect active w,
              Await active CapDisconnect (WalletService.swap_settled wallet))).
Proof.
  unfold WalletService.connectWallet.
  destruct (same_wallet (activeWallet w) (Some wallet)) eqn:E.
  - left. apply same_wallet_eq in E. auto.
  - apply same_wallet_neq in E. right.
    unfold WalletService.disconnect.
    destruct (activeWallet w) as [a|] eqn:Ea.
    + right. exists a.
      split; [reflexivity|split; [congruence|reflexivity]].
    + left. auto.
Qed.

Lemma extends_run_op (op : Op) (w : World) :
  (forall wallet, op = OpConnect wallet -> P wallet) ->
  extends P w (fst (run_op op w))
  /\ Forall (waiting P) (pending (snd (run_op op w))).
Proof.
  intros HP. destruct op as [wallet|]; simpl.
  - specialize (HP wallet eq_refl).
    destruct (connectWallet_steps wallet w)
      as [[_ ->]|[[_ ->]|(a & _ & _ & ->)]]; simpl.
    + split; [apply extends_refl|constructor].
    + split; [now apply extends_invoke|].
      constructor; [now constructor|constructor].
    + split; [apply extends_invoke; discriminate|].
      constructor; [now constructor|constructor].
  - unfold WalletService.disconnect. destruct (activeWallet w) as [a|]; simpl.
    + split; [apply extends_invoke; discriminate|].
      constructor; [constructor|constructor].
    + split; [apply extends_refl|constructor].
Qed.

End Extends.

(** ** The states the application reaches *)

Lemma Forall_firstn_skipn {A : Type} (Q : A -> Prop) (n m : nat) (l : list A) :
  Forall Q l -> Forall Q (firstn n l) /\ Forall Q (skipn m l).
Proof.
  intros H. rewrite Forall_forall in H. split; apply Forall_forall; intros x Hx.
  - apply H. rewrite <- (firstn_skipn n l). apply in_or_app. now left.
  - apply H. rewrite <- (firstn_skipn m l). apply in_or_app. now right.
Qed.

Lemma run_app (ls1 ls2 : list Label) (s : Sys) :
  run (ls1 ++ ls2) s
  = match run ls1 s with
    | Some s' => run ls2 s'
    | None => None
    end.
Proof.
  revert s. induction ls1 as [|l ls1 IH]; intros s; simpl; [reflexivity|].
  destruct (step l s); [apply IH|reflexivity].
Qed.

Lemma run_snoc (ls : list Label) (l : Label) (s s' : Sys) :
  run ls s = Some s' -> run (ls ++ [l]) s = step l s'.
Proof.
  intros H. rewrite run_app, H. simpl. now destruct (step l s').
Qed.

Section Sound.

Variable P : WalletAdapter -> Prop.

(** A waiting call that goes on keeps to the rules. *)
Lemma resume_waiting (t : Task) (r : Settled) (now : Z) (w : World) :
  waiting P t ->
  match t with
  | Await _ _ k =>
      extends P w (fst (k r now w))
      /\ Forall (waiting P) (pending (snd (k r now w)))
  | Done _ => True
  end.
Proof.
  intros [a|a wallet HP|wallet HP].
  - apply extends_disconnect_settled.
  - now apply extends_swap_settled.
  - apply extends_connect_settled.
Qed.

Lemma sound_extends (s : Sys) (w : World) (p : list Task) :
  sound P s -> extends P (st s) w -> Forall (waiting P) p ->
  sound P (mkSys w p).
Proof.
  intros (He & _ & Hi) (_ & _ & [more [Hm Hall]] & Hk) Hp.
  unfold sound; simpl. split; [auto|]. split; [exact Hp|].
  rewrite Hm. apply Forall_app. auto.
Qed.

Lemma step_sound (l : Label) (s s' : Sys) :
  sound P s ->
  (forall wallet, l = Call (OpConnect wallet) -> P wallet) ->
  step l s = Some s' ->
  sound P s' /\ extends P (st s) (st s').
Proof.
  intros Hs HP Hstep. pose proof Hs as (He & Hpool & Hi).
  destruct l as [op|i r now|wallet ev arg now|]; simpl in Hstep.
  - injection Hstep as <-. unfold call.
    destruct (extends_run_op P op (st s)) as [Hx Hw].
    { intros wallet ->. now apply HP. }
    destruct (run_op op (st s)) as [w t]; simpl in *.
    split; [|exact Hx]. apply (sound_extends s); auto.
    apply Forall_app. auto.
  - destruct (nth_error (pool s) i) as [[|wallet cap k]|] eqn:E; try discriminate.
    assert (Hw : waiting P (Await wallet cap k)).
    { rewrite Forall_forall in Hpool. apply Hpool.
      eapply nth_error_In; eauto. }
    apply (resume_waiting _ r now (st s)) in Hw as [Hx Hw].
    destruct (k r now (st s)) as [w t]; simpl in *.
    injection Hstep as <-. simpl. split; [|exact Hx].
    apply (sound_extends s); auto.
    destruct (Forall_firstn_skipn (waiting P) i (S i) (pool s) Hpool).
    repeat (apply Forall_app; split); auto.
  - injection Hstep as <-. simpl.
    split; [|apply extends_emit]. apply (sound_extends s); auto.
    apply extends_emit.
  - injection Hstep as <-. simpl.
    split; [|apply extends_flush]. apply (sound_extends s); auto.
    apply extends_flush.
Qed.

Lemma boot_sound (all : list WalletAdapter) : sound P (boot all).
Proof.
  unfold sound, effect_in_step; simpl. repeat split; auto; discriminate.
Qed.

End Sound.

(** Whatever the history, the application stays sound, and the log and the
    invocations only grow. *)
Lemma run_sound (ls : list Label) (s s' : Sys) :
  sound any_wallet s ->
  run ls s = Some s' ->
  sound any_wallet s' /\ extends any_wallet (st s) (st s').
Proof.
  revert s. induction ls as [|l ls IH]; intros s Hs H; simpl in H.
  - injection H as <-. split; [exact Hs|apply extends_refl].
  - destruct (step l s) as [s1|] eqn:E; [|discriminate].
    destruct (step_sound any_wallet l s s1 Hs) as [Hs1 Hx1]; auto.
    { intros; exact I. }
    destruct (IH s1 Hs1 H) as [Hs' Hx']. split; [exact Hs'|].
    eapply extends_trans; eauto.
Qed.

Lemma reachable_sound (all : list WalletAdapter) (ls : list Label) (s : Sys) :
  run ls (boot all) = Some s -> sound any_wallet s.
Proof.
  intros H. eapply run_sound; [apply boot_sound|exact H].
Qed.

(** ** Events *)

Lemma handlers_for_subscribed_same (wallet : WalletAdapter) (ev : EventName) :
  handlers_for wallet ev (subscribed (Some wallet))
  = match ev with
    | EvDisconnect => [disconnectHandler wallet]
    | EvError => [errorHandler wallet]
    end.
Proof.
  unfold handlers_for. simpl. rewrite !WalletAdapter_eqb_refl.
  destruct ev; reflexivity.
Qed.

Lemma handlers_for_subscribed_other (c : option WalletAdapter)
  (wallet : WalletAdapter) (ev : EventName) :
  c <> Some wallet ->
  handlers_for wallet ev (subscribed c) = [].
Proof.
  intros H. destruct c as [a|]; [|reflexivity].
  unfold handlers_for. simpl.
  assert (E : WalletAdapter_eqb a wallet = false).
  { apply WalletAdapter_eqb_neq. congruence. }
  now rewrite !E.
Qed.

(** An event changes the active wallet to [null], or not at all. *)
Lemma run_handler_active (h : Handler) (arg : string) (now : Z) (w : World) :
  activeWallet (run_handler h arg now w) = activeWallet w
  \/ activeWallet (run_handler h arg now w) = None.
Proof.
  destruct h as [x|x]; simpl; [|now left].
  unfold activeWallet_set; simpl.
  destruct (activeWallet w) as [a|] eqn:E; simpl; auto.
Qed.

Lemma emit_active (wallet : WalletAdapter) (ev : EventName) (arg : string)
  (now : Z) (w : World) :
  activeWallet (emit wallet ev arg now w) = activeWallet w
  \/ activeWallet (emit wallet ev arg now w) = None.
Proof.
  unfold emit. generalize (handlers_for wallet ev (listeners w)) as hs.
  intros hs. revert w. induction hs as [|h hs IH]; intros w; simpl; [now left|].
  destruct (IH (run_handler h arg now w)) as [E|E]; rewrite E; [|now right].
  apply run_handler_active.
Qed.

Lemma flush_active (w : World) :
  activeWallet (WalletService.flush w) = activeWallet w.
Proof. apply (flush_frame w). Qed.

(** ** Calls *)

Lemma call_st (op : Op) (s : Sys) : st (call op s) = fst (run_op op (st s)).
Proof. unfold call. now destruct (run_op op (st s)). Qed.

Lemma call_pool (op : Op) (s : Sys) :
  pool (call op s) = pool s ++ pending (snd (run_op op (st s))).
Proof. unfold call. now destruct (run_op op (st s)). Qed.

(** The first step of a method never writes [activeWallet] or the log. *)
Lemma run_op_active (op : Op) (w : World) :
  activeWallet (fst (run_op op w)) = activeWallet w.
Proof.
  destruct op as [wallet|]; simpl.
  - destruct (connectWallet_steps wallet w)
      as [[_ E]|[[_ E]|(a & _ & _ & E)]]; rewrite E; reflexivity.
  - unfold WalletService.disconnect.
    destruct (activeWallet w) eqn:E; simpl; congruence.
Qed.

Lemma run_op_logs (op : Op) (w : World) :
  logs (fst (run_op op w)) = logs w.
Proof.
  destruct op as [wallet|]; simpl.
  - destruct (connectWallet_steps wallet w)
      as [[_ E]|[[_ E]|(a & _ & _ & E)]]; rewrite E; reflexivity.
  - unfold WalletService.disconnect. now destruct (activeWallet w).
Qed.

Lemma run_op_listeners (op : Op) (w : World) :
  listeners (fst (run_op op w)) = listeners w.
Proof.
  destruct op as [wallet|]; simpl.
  - destruct (connectWallet_steps wallet w)
      as [[_ E]|[[_ E]|(a & _ & _ & E)]]; rewrite E; reflexivity.
  - unfold WalletService.disconnect. now destruct (activeWallet w).
Qed.

(** ** Steps, one at a time *)

(** The callback of [then]. *)
Lemma connect_settled_fulfilled (h : WalletAdapter) (now : Z) (w : World) :
  snd (WalletService.connect_settled h Fulfilled now w) = Done Fulfilled
  /\ activeWallet (fst (WalletService.connect_settled h Fulfilled now w)) = Some h
  /\ logs (fst (WalletService.connect_settled h Fulfilled now w))
     = logs w ++ [mkLog "info" (name h ++ " connected ✅") now]
  /\ invoked (fst (WalletService.connect_settled h Fulfilled now w)) = invoked w
  /\ listeners (fst (WalletService.connect_settled h Fulfilled now w)) = listeners w.
Proof.
  simpl. unfold activeWallet_set.
  destruct (same_wallet (activeWallet w) (Some h)) eqn:E; simpl; repeat split.
  now apply same_wallet_eq in E.
Qed.

(** The callback of [catch]. *)
Lemma connect_settled_rejected (h : WalletAdapter) (e : string) (now : Z)
  (w : World) :
  WalletService.connect_settled h (Rejected e) now w
  = (mkWorld (logs w ++ [mkLog "error" (name h ++ " error: " ++ e) now])
             (wallets w) (activeWallet w) (effect_dirty w) (effect_cleanup w)
             (listeners w) (invoked w)
             (console w ++ [(ConsoleError, (name h ++ " error: " ++ e)%string)]),
     Done Fulfilled).
Proof. reflexivity. Qed.

Lemma emit_by_cleanup (x : WalletAdapter) (ev : EventName) (arg : string)
  (now : Z) (w : World) :
  listeners w = subscribed (effect_cleanup w) ->
  (effect_cleanup w <> Some x -> emit x ev arg now w = w)
  /\ (effect_cleanup w = Some x ->
      emit x ev arg now w
      = run_handler match ev with
                    | EvDisconnect => disconnectHandler x
                    | EvError => errorHandler x
                    end arg now w).
Proof.
  intros Hl. unfold emit. split; intros Hc.
  - rewrite Hl. now rewrite handlers_for_subscribed_other.
  - rewrite Hl, Hc, handlers_for_subscribed_same. now destruct ev.
Qed.

Lemma option_eq_dec_wallet (a b : option WalletAdapter) : a = b \/ a <> b.
Proof.
  destruct (same_wallet a b) eqn:E.
  - left. now apply same_wallet_eq.
  - right. now apply same_wallet_neq.
Qed.

Lemma settle_waiting (P : WalletAdapter -> Prop) (s s' : Sys) (i : nat)
  (r : Settled) (now : Z) :
  Forall (waiting P) (pool s) ->
  step (Settle i r now) s = Some s' ->
  exists wallet cap k,
    nth_error (pool s) i = Some (Await wallet cap k)
    /\ waiting P (Await wallet cap k)
    /\ st s' = fst (k r now (st s)).
Proof.
  intros Hpool Hstep. simpl in Hstep.
  destruct (nth_error (pool s) i) as [[|wallet cap k]|] eqn:E; try discriminate.
  exists wallet, cap, k. split; [reflexivity|]. split.
  - rewrite Forall_forall in Hpool. apply Hpool. eapply nth_error_In; eauto.
  - destruct (k r now (st s)). injection Hstep as <-. reflexivity.
Qed.

Section Appends.

Variable Q : Log -> Prop.

Lemma appends_refl (w : World) : appends Q w w.
Proof. exists []. rewrite app_nil_r. auto. Qed.

Lemma appends_same (w w' : World) : logs w' = logs w -> appends Q w w'.
Proof. intros E. exists []. rewrite app_nil_r. auto. Qed.

Lemma appends_trans (w1 w2 w3 : World) :
  appends Q w1 w2 -> appends Q w2 w3 -> appends Q w1 w3.
Proof.
  intros [m1 [E1 H1]] [m2 [E2 H2]]. exists (m1 ++ m2).
  rewrite E2, E1, app_assoc. split; [reflexivity|]. apply Forall_app. auto.
Qed.

Lemma appends_printLog (topic message : string) (now : Z) (w : World) :
  Q (mkLog topic message now) -> appends Q w (printLog topic message now w).
Proof. intros H. eexists. split; [reflexivity|]. auto. Qed.

End Appends.

Lemma service_entry_connected (h : WalletAdapter) (now : Z) :
  service_entry (mkLog "info" (name h ++ " connected ✅") now).
Proof. exists h. left. auto. Qed.

Lemma service_entry_disconnected (h : WalletAdapter) (now : Z) :
  service_entry (mkLog "info" (name h ++ " disconnected ❌") now).
Proof. exists h. right. left. auto. Qed.

Lemma service_entry_error (h : WalletAdapter) (reason : string) (now : Z) :
  service_entry (mkLog "error" (name h ++ " error: " ++ reason) now).
Proof. exists h. right. right. split; [reflexivity|]. now exists reason. Qed.

Lemma appends_run_handler (h : Handler) (arg : string) (now : Z) (w : World) :
  appends service_entry w (run_handler h arg now w).
Proof.
  destruct h as [x|x]; simpl.
  - eapply appends_trans;
      [apply appends_printLog, service_entry_disconnected|].
    apply appends_same. unfold activeWallet_set.
    now destruct (same_wallet _ _).
  - apply appends_printLog, service_entry_error.
Qed.

Lemma appends_emit (x : WalletAdapter) (ev : EventName) (arg : string)
  (now : Z) (w : World) :
  appends service_entry w (emit x ev arg now w).
Proof.
  unfold emit. generalize (handlers_for x ev (listeners w)) as hs.
  intros hs. revert w. induction hs as [|h hs IH]; intros w; simpl.
  - apply appends_refl.
  - eapply appends_trans; [apply appends_run_handler|apply IH].
Qed.

Lemma appends_step (l : Label) (s s' : Sys) :
  Forall (waiting any_wallet) (pool s) ->
  step l s = Some s' ->
  appends service_entry (st s) (st s').
Proof.
  intros Hpool Hstep. destruct l as [op|i r now|x ev arg now|].
  - simpl in Hstep. injection Hstep as <-. apply appends_same.
    rewrite call_st. apply run_op_logs.
  - destruct (settle_waiting _ _ _ _ _ _ Hpool Hstep)
      as (wallet & cap & k & _ & Hw & ->).
    inversion Hw as [a|a wallet' _|wallet' _]; subst.
    + apply appends_refl.
    + apply appends_same. unfold WalletService.swap_settled.
      now destruct r.
    + destruct r as [|e].
      * destruct (connect_settled_fulfilled wallet now (st s)) as (_ & _ & E & _).
        eexists. split; [exact E|]. constructor; [|constructor].
        apply service_entry_connected.
      * rewrite connect_settled_rejected. simpl. eexists.
        split; [reflexivity|]. constructor; [|constructor].
        apply service_entry_error.
  - simpl in Hstep. injection Hstep as <-. apply appends_emit.
  - simpl in Hstep. injection Hstep as <-. apply appends_same.
    apply (flush_frame (st s)).
Qed.

Lemma emit_invoked (x : WalletAdapter) (ev : EventName) (arg : string)
  (now : Z) (w : World) :
  invoked (emit x ev arg now w) = invoked w.
Proof.
  unfold emit. generalize (handlers_for x ev (listeners w)) as hs.
  intros hs. revert w. induction hs as [|h hs IH]; intros w; [reflexivity|].
  simpl. rewrite IH. destruct h; simpl; [|reflexivity].
  unfold activeWallet_set. simpl.
  now destruct (same_wallet (activeWallet w) None).
Qed.

(** What happens behind the calls always can happen, and touches neither the
    waiting calls nor the invocations. *)
Lemma background_run (evs : list Label) (s : Sys) :
  forallb background evs = true ->
  exists s',
    run evs s = Some s' /\ pool s' = pool s
    /\ invoked (st s') = invoked (st s).
Proof.
  revert s. induction evs as [|l evs IH]; intros s H.
  - exists s. auto.
  - simpl in H. apply andb_true_iff in H as [Hb H].
    assert (E : exists s1, step l s = Some s1 /\ pool s1 = pool s
                           /\ invoked (st s1) = invoked (st s)).
    { destruct l as [op|i r now|x ev arg now|]; try discriminate;
        eexists; (split; [reflexivity|]); simpl; split; auto.
      - apply emit_invoked.
      - apply (flush_frame (st s)). }
    destruct E as (s1 & E1 & Hp1 & Hi1).
    destruct (IH s1 H) as (s' & Hr & Hp & Hi).
    exists s'. simpl. rewrite E1. repeat split; congruence.
Qed.

(** What a step writes to the log carries the clock reading of the step. *)
Lemma stamps_run_handler (h : Handler) (arg : string) (now : Z) (w : World) :
  appends (stamped (Some now)) w (run_handler h arg now w).
Proof.
  destruct h as [x|x]; simpl.
  - eapply appends_trans; [apply appends_printLog; reflexivity|].
    apply appends_same. unfold activeWallet_set.
    now destruct (same_wallet _ _).
  - apply appends_printLog. reflexivity.
Qed.

Lemma stamps_emit (x : WalletAdapter) (ev : EventName) (arg : string)
  (now : Z) (w : World) :
  appends (stamped (Some now)) w (emit x ev arg now w).
Proof.
  unfold emit. generalize (handlers_for x ev (listeners w)) as hs.
  intros hs. revert w. induction hs as [|h hs IH]; intros w; simpl.
  - apply appends_refl.
  - eapply appends_trans; [apply stamps_run_handler|apply IH].
Qed.

Lemma stamps_step (l : Label) (s s' : Sys) :
  Forall (waiting any_wallet) (pool s) ->
  step l s = Some s' ->
  appends (stamped (clock_of l)) (st s) (st s').
Proof.
  intros Hpool Hstep. destruct l as [op|i r now|x ev arg now|].
  - simpl in Hstep. injection Hstep as <-. apply appends_same.
    rewrite call_st. apply run_op_logs.
  - destruct (settle_waiting _ _ _ _ _ _ Hpool Hstep)
      as (wallet & cap & k & _ & Hw & ->).
    inversion Hw as [a|a wallet' _|wallet' _]; subst.
    + apply appends_refl.
    + apply appends_same. unfold WalletService.swap_settled.
      now destruct r.
    + destruct r as [|e].
      * destruct (connect_settled_fulfilled wallet now (st s)) as (_ & _ & E & _).
        eexists. split; [exact E|]. constructor; [reflexivity|constructor].
      * rewrite connect_settled_rejected. simpl. eexists.
        split; [reflexivity|]. constructor; [reflexivity|constructor].
  - simpl in Hstep. injection Hstep as <-. apply stamps_emit.
  - simpl in Hstep. injection Hstep as <-. apply appends_same.
    apply (flush_frame (st s)).
Qed.

(** An event leaves the listeners, the effect node and the catalog alone. *)
Lemma emit_frame (x : WalletAdapter) (ev : EventName) (arg : string)
  (now : Z) (w : World) :
  listeners (emit x ev arg now w) = listeners w
  /\ effect_cleanup (emit x ev arg now w) = effect_cleanup w
  /\ wallets (emit x ev arg now w) = wallets w.
Proof.
  unfold emit. generalize (handlers_for x ev (listeners w)) as hs.
  intros hs. revert w. induction hs as [|h hs IH]; intros w; [auto|].
  simpl. destruct (IH (run_handler h arg now w)) as (-> & -> & ->).
  destruct h; simpl; auto.
  unfold activeWallet_set. simpl.
  destruct (same_wallet (activeWallet w) None); auto.
Qed.

Lemma run_op_cleanup (op : Op) (w : World) :
  effect_cleanup (fst (run_op op w)) = effect_cleanup w.
Proof.
  destruct op as [wallet|]; simpl.
  - destruct (connectWallet_steps wallet w)
      as [[_ E]|[[_ E]|(a & _ & _ & E)]]; rewrite E; reflexivity.
  - unfold WalletService.disconnect. now destruct (activeWallet w).
Qed.

(** The subscriptions change at the runs of the effect, and nowhere else. *)
Lemma step_listeners (P : WalletAdapter -> Prop) (l : Label) (s s' : Sys) :
  Forall (waiting P) (pool s) ->
  step l s = Some s' ->
  l <> Flush ->
  listeners (st s') = listeners (st s)
  /\ effect_cleanup (st s') = effect_cleanup (st s).
Proof.
  intros Hpool Hstep Hl. destruct l as [op|i r now|x ev arg now|].
  - simpl in Hstep. injection Hstep as <-. rewrite call_st.
    split; [apply run_op_listeners|apply run_op_cleanup].
  - destruct (settle_waiting _ _ _ _ _ _ Hpool Hstep)
      as (wallet & cap & k & _ & Hw & ->).
    inversion Hw as [a|a wallet' _|wallet' _]; subst.
    + auto.
    + unfold WalletService.swap_settled. destruct r; auto.
    + destruct r as [|e].
      * simpl. unfold activeWallet_set.
        destruct (same_wallet (activeWallet (st s)) (Some wallet)); auto.
      * rewrite connect_settled_rejected. auto.
  - simpl in Hstep. injection Hstep as <-. simpl.
    destruct (emit_frame x ev arg now (st s)) as (H1 & H2 & _). auto.
  - congruence.
Qed.

(** ** The navbar *)

Lemma navbar_connectWallet_cases (name_ : string) (u : Ui) :
  NavbarComponent.connectWallet name_ u = u
  \/ (exists wallet,
        readyState wallet <> Installed
        /\ NavbarComponent.connectWallet name_ u
           = mkUi (sys u) (openWallet u) (windows u ++ [(url wallet, "_blank")]))
  \/ (exists wallet,
        readyState wallet = Installed
        /\ NavbarComponent.connectWallet name_ u
           = mkUi (call (OpConnect wallet) (sys u)) false (windows u)).
Proof.
  unfold NavbarComponent.connectWallet.
  destruct (find _ _) as [wallet|]; [|now left].
  destruct (WalletReadyState_eqb (readyState wallet) Installed) eqn:E.
  - right; right. exists wallet. apply WalletReadyState_eqb_eq in E. auto.
  - right; left. exists wallet. split; [|reflexivity].
    intros H. apply WalletReadyState_eqb_eq in H. congruence.
Qed.

Lemma ui_step_sound (l : UiLabel) (u u' : Ui) :
  sound installed (sys u) -> ui_step l u = Some u' -> sound installed (sys u').
Proof.
  intros Hs H. destruct l as [name_| | |l]; simpl in H.
  - injection H as <-.
    destruct (navbar_connectWallet_cases name_ u)
      as [->|[(wallet & _ & ->)|(wallet & Hi & ->)]]; simpl; auto.
    apply (step_sound installed (Call (OpConnect wallet)) (sys u)); auto.
    intros x E. injection E as <-. exact Hi.
  - injection H as <-. simpl.
    apply (step_sound installed (Call OpDisconnect) (sys u)); auto.
    intros x E. discriminate.
  - injection H as <-. exact Hs.
  - destruct l as [op|i r now|wallet ev arg now|]; try discriminate;
      match type of H with
      | match step ?l ?s with _ => _ end = _ =>
          destruct (step l s) as [s'|] eqn:E; [|discriminate];
          injection H as <-; simpl;
          apply (step_sound installed l (sys u)); auto; intros x Ex; discriminate
      end.
Qed.

Lemma ui_run_sound (ls : list UiLabel) (u u' : Ui) :
  sound installed (sys u) -> ui_run ls u = Some u' -> sound installed (sys u').
Proof.
  revert u. induction ls as [|l ls IH]; intros u Hs H; simpl in H.
  - injection H as <-. exact Hs.
  - destruct (ui_step l u) as [u1|] eqn:E; [|discriminate].
    apply (IH u1); auto. eapply ui_step_sound; eauto.
Qed.

(** ** The no-op connect, the catalog, the leagues, the navbar *)

(** C6.  [connectWallet(h)] when [h] is already the active wallet does
    nothing: the method returns at once, fulfilled; the world is the same
    world (no capability of [h] invoked, no log, no listener added or
    removed, signals and effect untouched), and no call is left waiting. *)
Theorem connect_active_is_noop :
  forall (h : WalletAdapter) (s : Sys),
    activeWallet (st s) = Some h ->
    WalletService.connectWallet h (st s) = (st s, Done Fulfilled)
    /\ step (Call (OpConnect h)) s = Some s.
Proof.
  intros h s H.
  assert (E : WalletService.connectWallet h (st s) = (st s, Done Fulfilled)).
  { unfold WalletService.connectWallet. rewrite H. simpl.
    now rewrite WalletAdapter_eqb_refl. }
  split; [exact E|].
  simpl. unfold call. simpl. rewrite E. simpl. rewrite app_nil_r.
  now destruct s.
Qed.

Lemma connect_active_is_noop_witness :
  let s := mkSys (activeWallet_set (Some walletA) (WalletService.constructor_ [walletA])) [] in
  WalletService.connectWallet walletA (st s) = (st s, Done Fulfilled)
  /\ step (Call (OpConnect walletA)) s = Some s.
Proof.
  intros s. apply (connect_active_is_noop walletA s). reflexivity.
Defined.

(** C7.  The catalog the constructor stores is the declared list sorted by
    priority (Installed 0, Loadable 1, NotDetected 2, Unsupported 3),
    ascending and stably: it is a permutation of the declared list, in
    ascending order of priority, and the wallets of each ready state keep the
    order of the declaration; so it is the Installed wallets, then the
    Loadable, the NotDetected and the Unsupported ones, each group in the
    declared order.  This holds of any declared list, of the thirty-two
    adapters of [all_wallets] in particular.  For ready states Unsupported,
    Installed, Loadable, Installed it gives the second, the fourth, the
    third, the first. *)
Theorem catalog_sorted_by_priority :
  forall all : list WalletAdapter,
    let catalog := wallets (WalletService.constructor_ all) in
    (priority Installed = 0 /\ priority Loadable = 1
     /\ priority NotDetected = 2 /\ priority Unsupported = 3)%Z
    /\ Permutation all catalog
    /\ StronglySorted by_priority catalog
    /\ (forall r, with_state r catalog = with_state r all)
    /\ catalog = with_state Installed all ++ with_state Loadable all
                 ++ with_state NotDetected all ++ with_state Unsupported all
    /\ (forall instantiate,
          Permutation (map instantiate declared_classes)
                      (wallets (WalletService.constructor_ (all_wallets instantiate)))
          /\ length (wallets (WalletService.constructor_ (all_wallets instantiate)))
             = 32%nat)
    /\ (forall i1 n1 u1 i2 n2 u2 i3 n3 u3 i4 n4 u4,
          wallets (WalletService.constructor_
                     [ mkWallet i1 n1 u1 Unsupported; mkWallet i2 n2 u2 Installed;
                       mkWallet i3 n3 u3 Loadable; mkWallet i4 n4 u4 Installed ])
          = [ mkWallet i2 n2 u2 Installed; mkWallet i4 n4 u4 Installed;
              mkWallet i3 n3 u3 Loadable; mkWallet i1 n1 u1 Unsupported ]).
Proof.
  intros all catalog. subst catalog.
  unfold WalletService.constructor_. cbn [wallets].
  split; [repeat split|].
  split; [apply sort_perm|].
  split; [apply sort_sorted|].
  split; [intros r; apply sort_stable|].
  split; [apply sort_buckets|].
  split; [|intros; reflexivity].
  intros instantiate. split; [apply sort_perm|].
  transitivity (length (all_wallets instantiate)).
  - symmetry. apply Permutation_length, sort_perm.
  - unfold all_wallets. rewrite length_map. reflexivity.
Qed.

(** C9.  [get_leagues()] hands over what the transport delivers, untouched.
    The home component sends the request once; when the answer is a body
    [{leagues: [...]}], its [leagues] field becomes that very list (and one
    success log is written); when the transport fails, the outcome of
    [get_leagues()] is that failure, and the component, which has no error
    callback, keeps [leagues] empty, writes no log and sends nothing again. *)
Theorem leagues_pass_through :
  forall (backend : ApiService.Request -> ApiService.Outcome ApiService.LeaguesResponse)
         (now : Z) (logs0 : list Log),
    let home := HomeComponent.constructor_ backend now logs0 in
    ApiService.get_leagues backend = backend ApiService.get_leagues_request
    /\ HomeComponent.sent home = [ApiService.get_leagues_request]
    /\ (forall data,
          backend ApiService.get_leagues_request = ApiService.Next data ->
          ApiService.get_leagues backend = ApiService.Next data
          /\ HomeComponent.leagues home = ApiService.leagues data
          /\ HomeComponent.logs home
             = logs0 ++ [mkLog "success" "Leagues fetched successfully ✅" now])
    /\ (forall e,
          backend ApiService.get_leagues_request = ApiService.Failed e ->
          ApiService.get_leagues backend = ApiService.Failed e
          /\ HomeComponent.leagues home = []
          /\ HomeComponent.logs home = logs0).
Proof.
  intros backend now logs0 home. subst home.
  unfold HomeComponent.constructor_, ApiService.get_leagues.
  split; [reflexivity|]. split.
  - destruct (backend ApiService.get_leagues_request); reflexivity.
  - split; intros x E; rewrite E; simpl; auto.
Qed.

Lemma leagues_pass_through_witness :
  let league := ApiService.mkLeague "leagues" 1 2 3 "Big Bash" "BBL" "/bbl.png"
                                    "league" "2024-01-01T00:00:00Z" in
  let ok := fun _ : ApiService.Request =>
              ApiService.Next (ApiService.mkLeaguesResponse [league]) in
  let down := fun _ : ApiService.Request =>
                @ApiService.Failed ApiService.LeaguesResponse "0 Unknown Error" in
  HomeComponent.leagues (HomeComponent.constructor_ ok 5 []) = [league]
  /\ HomeComponent.leagues (HomeComponent.constructor_ down 5 []) = [].
Proof.
  intros league ok down.
  pose proof (leagues_pass_through ok 5 []) as (_ & _ & Hok & _).
  pose proof (leagues_pass_through down 5 []) as (_ & _ & _ & Hdown).
  split.
  - apply (Hok (ApiService.mkLeaguesResponse [league])). reflexivity.
  - apply (Hdown "0 Unknown Error"). reflexivity.
Defined.

(** C10.  [connectWallet(name)] of the navbar always returns.  When no wallet
    of the catalog has that name it changes nothing.  When the wallet found is
    not Installed, the services are left as they are (no method of the
    session is called) and the only thing done is [window.open(url,
    '_blank')].  Only when the wallet found is Installed is
    [connectWallet(wallet)] of the session called.  So, whatever the user
    clicks and whatever happens behind, every [connect] the application ever
    invokes is on a wallet whose ready state is Installed. *)
Theorem navbar_connect_guarded :
  forall (name_ : string) (u : Ui),
    let found := find (fun w => String.eqb (name w) name_) (wallets (st (sys u))) in
    (found = None -> NavbarComponent.connectWallet name_ u = u)
    /\ (forall wallet,
          found = Some wallet -> readyState wallet <> Installed ->
          NavbarComponent.connectWallet name_ u
          = mkUi (sys u) (openWallet u) (windows u ++ [(url wallet, "_blank")]))
    /\ (forall wallet,
          found = Some wallet -> readyState wallet = Installed ->
          NavbarComponent.connectWallet name_ u
          = mkUi (call (OpConnect wallet) (sys u)) false (windows u))
    /\ (forall all hist u' wallet,
          ui_run hist (ui_boot all) = Some u' ->
          In (CapConnect, wallet) (invoked (st (sys u'))) ->
          readyState wallet = Installed).
Proof.
  intros name_ u found. subst found. unfold NavbarComponent.connectWallet.
  split; [|split; [|split]].
  - intros ->. reflexivity.
  - intros wallet -> H.
    destruct (WalletReadyState_eqb (readyState wallet) Installed) eqn:E;
      [|reflexivity].
    apply WalletReadyState_eqb_eq in E. contradiction.
  - intros wallet -> H. rewrite H. reflexivity.
  - intros all hist u' wallet Hrun Hin.
    assert (Hs : sound installed (sys u')).
    { apply (ui_run_sound hist (ui_boot all)); [apply boot_sound|exact Hrun]. }
    destruct Hs as (_ & _ & Hall). rewrite Forall_forall in Hall.
    apply (Hall _ Hin). reflexivity.
Qed.

Lemma navbar_connect_guarded_witness :
  let u := ui_boot [walletD; walletA; walletC] in
  NavbarComponent.connectWallet "Backpack" u = u
  /\ NavbarComponent.connectWallet "Ledger" u
     = mkUi (sys u) (openWallet u) (windows u ++ [("https://www.ledger.com", "_blank")])
  /\ NavbarComponent.connectWallet "Phantom" u
     = mkUi (call (OpConnect walletA) (sys u)) false (windows u)
  /\ (forall wallet,
        In (CapConnect, wallet)
           (invoked (st (sys (NavbarComponent.connectWallet "Phantom" u)))) ->
        readyState wallet = Installed).
Proof.
  intros u.
  pose proof (navbar_connect_guarded "Backpack" u) as (H1 & _).
  pose proof (navbar_connect_guarded "Ledger" u) as (_ & H2 & _).
  pose proof (navbar_connect_guarded "Phantom" u) as (_ & _ & H3 & H4).
  split; [apply H1; reflexivity|].
  split; [apply (H2 walletC); [reflexivity|discriminate]|].
  split; [apply (H3 walletA); reflexivity|].
  intros wallet.
  apply (H4 [walletD; walletA; walletC] [ClickWallet "Phantom"]). reflexivity.
Defined.

(** ** The log, the page and the clock *)

Lemma page_step_sound (l : PageLabel) (p p' : Page) :
  sound any_wallet (services p) ->
  page_step l p = Some p' ->
  sound any_wallet (services p').
Proof.
  intros Hs H. destruct l as [l|data now]; simpl in H.
  - destruct (step l (services p)) as [s'|] eqn:E; [|discriminate].
    injection H as <-. simpl.
    apply (step_sound any_wallet l (services p)); auto. intros; exact I.
  - injection H as <-. simpl.
    apply (sound_extends any_wallet (services p)); auto.
    + apply extends_printLog.
    + apply Hs.
Qed.

Lemma page_step_stamps (l : PageLabel) (p p' : Page) :
  sound any_wallet (services p) ->
  page_step l p = Some p' ->
  appends (stamped (page_clock l)) (st (services p)) (st (services p')).
Proof.
  intros Hs H. destruct l as [l|data now]; simpl in H.
  - destruct (step l (services p)) as [s'|] eqn:E; [|discriminate].
    injection H as <-. simpl. apply (stamps_step l (services p)); auto.
    apply Hs.
  - injection H as <-. simpl. apply appends_printLog. reflexivity.
Qed.

Lemma page_run_app (ls1 ls2 : list PageLabel) (p : Page) :
  page_run (ls1 ++ ls2) p
  = match page_run ls1 p with
    | Some p' => page_run ls2 p'
    | None => None
    end.
Proof.
  revert p. induction ls1 as [|l ls1 IH]; intros p; simpl; [reflexivity|].
  destruct (page_step l p); [apply IH|reflexivity].
Qed.

Lemma page_run_sound (ls : list PageLabel) (p p' : Page) :
  sound any_wallet (services p) ->
  page_run ls p = Some p' ->
  sound any_wallet (services p')
  /\ exists more, logs (st (services p')) = logs (st (services p)) ++ more.
Proof.
  revert p. induction ls as [|l ls IH]; intros p Hs H; simpl in H.
  - injection H as <-. split; [exact Hs|]. exists []. now rewrite app_nil_r.
  - destruct (page_step l p) as [p1|] eqn:E; [|discriminate].
    pose proof (page_step_sound l p p1 Hs E) as Hs1.
    destruct (page_step_stamps l p p1 Hs E) as [m1 [E1 _]].
    destruct (IH p1 Hs1 H) as [Hs' [m2 E2]]. split; [exact Hs'|].
    exists (m1 ++ m2). rewrite E2, E1. now rewrite app_assoc.
Qed.

Lemma page_boot_sound (all : list WalletAdapter) :
  sound any_wallet (services (page_boot all)).
Proof. apply boot_sound. Qed.

(** Entries that carry one reading of the clock, put where that reading is
    among the readings, keep the order. *)
Lemma sorted_repeat (t : Z) (n : nat) (ts R : list Z) :
  StronglySorted Z.le (ts ++ t :: R) ->
  StronglySorted Z.le (ts ++ repeat t n ++ R).
Proof.
  induction ts as [|x ts IH]; simpl; intros H.
  - apply StronglySorted_inv in H as [HR Ht].
    induction n as [|n IHn]; simpl; [exact HR|].
    constructor; [exact IHn|]. apply Forall_app. split; [|exact Ht].
    apply Forall_forall. intros y Hy. apply repeat_spec in Hy. subst. lia.
  - apply StronglySorted_inv in H as [H Hx]. constructor; [now apply IH|].
    apply Forall_app in Hx as [Hx1 Hx2]. apply Forall_app. split; [exact Hx1|].
    apply Forall_app. split.
    + apply Forall_forall. intros y Hy. apply repeat_spec in Hy. subst.
      now apply Forall_inv in Hx2.
    + now apply Forall_inv_tail in Hx2.
Qed.

Lemma stamped_timestamps (c : option Z) (more : list Log) :
  Forall (stamped c) more ->
  match c with
  | Some t => map timestamp more = repeat t (length more)
  | None => more = []
  end.
Proof.
  intros H. destruct c as [t|].
  - induction H as [|e more He _ IH]; [reflexivity|].
    simpl. rewrite IH. unfold stamped in He. injection He as <-. reflexivity.
  - destruct H as [|e more He _]; [reflexivity|]. discriminate He.
Qed.

Lemma page_run_sorted (hist : list PageLabel) (p p' : Page) :
  sound any_wallet (services p) ->
  page_run hist p = Some p' ->
  StronglySorted Z.le (map timestamp (logs (st (services p))) ++ readings hist) ->
  StronglySorted Z.le (map timestamp (logs (st (services p')))).
Proof.
  revert p. induction hist as [|l hist IH]; intros p Hs H Hsorted; simpl in H.
  - injection H as <-. simpl in Hsorted. now rewrite app_nil_r in Hsorted.
  - destruct (page_step l p) as [p1|] eqn:E; [|discriminate].
    apply (IH p1 (page_step_sound l p p1 Hs E) H).
    destruct (page_step_stamps l p p1 Hs E) as [more [-> Hm]].
    apply stamped_timestamps in Hm. rewrite map_app, <- app_assoc.
    unfold readings in Hsorted. simpl in Hsorted. fold (readings hist) in Hsorted.
    destruct (page_clock l) as [t|].
    + rewrite Hm. apply sorted_repeat. exact Hsorted.
    + subst more. exact Hsorted.
Qed.

(** C8, as stated, fails for the timestamps: [printLog] stores what
    [new Date()] returns and compares it with nothing.  When the clock of the
    machine is set back between two calls, the later entry carries the
    earlier time: two calls of [printLog], and likewise a connection at
    reading 1000 followed by an 'error' event of the wallet at reading 5,
    leave the timestamps 1000, 5 in the log, in that order. *)
Lemma timestamps_follow_the_clock :
  (map timestamp
     (LoggerService.printLogs
        [ LoggerService.mkAppend "info" "Phantom connected ✅" 1000;
          LoggerService.mkAppend "error" "Phantom error: locked" 5 ]
        LoggerService.logs_init)
   = [1000; 5]%Z)
  /\ (exists s,
        run [ Call (OpConnect walletA); Settle 0 Fulfilled 1000; Flush;
              Emit walletA EvError "locked" 5 ]
            (boot [walletA]) = Some s
        /\ logs (st s)
           = [ mkLog "info" "Phantom connected ✅" 1000;
               mkLog "error" "Phantom error: locked" 5 ]
        /\ map timestamp (logs (st s)) = [1000; 5]%Z
        /\ ~ Sorted Z.le (map timestamp (logs (st s)))).
Proof.
  split; [reflexivity|]. eexists. split; [reflexivity|].
  split; [reflexivity|]. split; [reflexivity|].
  simpl. intros H. apply Sorted_inv in H as [_ H].
  apply HdRel_inv in H. lia.
Qed.

(** C8, as it holds.  The log is append-only and keeps the order of the
    calls: after the calls of a sequence, the log is the log of before
    followed by exactly one entry per call, in call order, each made of the
    topic and the message of its call and of the clock reading of its call;
    the entries of before are all still there, at their places, as they
    were; so are they after anything the wallet service and [HomeComponent]
    do, in any history of the page, which only ever adds entries at the end.
    The timestamps are the successive readings of the clock, whatever these
    are: they are non-decreasing exactly when the readings are; and in a
    history of the page along which the clock never goes back, the
    timestamps of the log are non-decreasing. *)
Theorem log_append_only :
  forall (calls : list LoggerService.Append) (logs0 : list Log),
    LoggerService.printLogs calls logs0
    = logs0 ++ map LoggerService.entry_of calls
    /\ LoggerService.printLogs calls LoggerService.logs_init
       = map LoggerService.entry_of calls
    /\ length (LoggerService.printLogs calls logs0)
       = (length logs0 + length calls)%nat
    /\ (forall i e,
          nth_error logs0 i = Some e ->
          nth_error (LoggerService.printLogs calls logs0) i = Some e)
    /\ map timestamp (LoggerService.printLogs calls LoggerService.logs_init)
       = map LoggerService.a_now calls
    /\ (Sorted Z.le (map LoggerService.a_now calls) <->
        Sorted Z.le
          (map timestamp (LoggerService.printLogs calls LoggerService.logs_init)))
    /\ (forall all hist hist' s s',
          run hist (boot all) = Some s ->
          run hist' s = Some s' ->
          exists more, logs (st s') = logs (st s) ++ more)
    /\ (forall all hist hist' p p',
          page_run hist (page_boot all) = Some p ->
          page_run hist' p = Some p' ->
          (exists more,
              logs (st (services p')) = logs (st (services p)) ++ more)
          /\ (forall i e,
                nth_error (logs (st (services p))) i = Some e ->
                nth_error (logs (st (services p'))) i = Some e))
    /\ (forall all hist p,
          page_run hist (page_boot all) = Some p ->
          Sorted Z.le (readings hist) ->
          Sorted Z.le (map timestamp (logs (st (services p))))).
Proof.
  intros calls logs0.
  split; [apply printLogs_app|].
  split; [apply printLogs_app|].
  split; [rewrite printLogs_app, length_app, length_map; reflexivity|].
  split.
  { intros i e H. rewrite printLogs_app. rewrite nth_error_app1; [exact H|].
    apply nth_error_Some. congruence. }
  split.
  { rewrite printLogs_app. simpl. apply timestamps_of_entries. }
  split.
  { rewrite printLogs_app. simpl. now rewrite timestamps_of_entries. }
  split.
  { intros all hist hist' s s' H1 H2.
    apply reachable_sound in H1.
    destruct (run_sound hist' s s' H1 H2) as (_ & _ & Hlogs & _).
    exact Hlogs. }
  split.
  { intros all hist hist' p p' H1 H2.
    apply page_run_sound in H1 as [Hs _]; [|apply page_boot_sound].
    destruct (page_run_sound hist' p p' Hs H2) as [_ [more Hm]].
    split; [now exists more|]. intros i e Hi. rewrite Hm.
    rewrite nth_error_app1; [exact Hi|]. apply nth_error_Some. congruence. }
  intros all hist p Hrun Hsorted.
  apply StronglySorted_Sorted.
  apply (page_run_sorted hist (page_boot all) p);
    [apply page_boot_sound|exact Hrun|].
  simpl. apply Sorted_StronglySorted; [|exact Hsorted].
  intros x y z. apply Z.le_trans.
Qed.

Lemma log_append_only_witness :
  Sorted Z.le
    (map timestamp
       (LoggerService.printLogs
          [ LoggerService.mkAppend "info" "Phantom connected ✅" 1000;
            LoggerService.mkAppend "error" "Phantom error: locked" 1000;
            LoggerService.mkAppend "info" "Phantom disconnected ❌" 1007 ]
          LoggerService.logs_init))
  /\ (exists more,
        logs (st (call (OpConnect walletA) (boot [walletA])))
        = logs (st (boot [walletA])) ++ more)
  /\ (exists p,
        page_run [ Service (Call (OpConnect walletA));
                   LeaguesFetched (ApiService.mkLeaguesResponse []) 990;
                   Service (Settle 0 Fulfilled 1000); Service Flush;
                   Service (Emit walletA EvError "locked" 1000);
                   Service (Emit walletA EvDisconnect "" 1007) ]
                 (page_boot [walletA]) = Some p
        /\ Sorted Z.le (map timestamp (logs (st (services p))))
        /\ length (logs (st (services p))) = 4%nat).
Proof.
  split; [|split].
  - apply (log_append_only _ []). simpl.
    repeat constructor; discriminate.
  - pose proof (log_append_only [] []) as (_ & _ & _ & _ & _ & _ & H & _).
    apply (H [walletA] [] [Call (OpConnect walletA)]); reflexivity.
  - destruct (page_run _ (page_boot [walletA])) as [p|] eqn:E;
      [|vm_compute in E; discriminate].
    exists p. split; [reflexivity|]. split.
    + pose proof (log_append_only [] []) as (_ & _ & _ & _ & _ & _ & _ & _ & H).
      apply (H _ _ _ E). simpl. repeat constructor; discriminate.
    + vm_compute in E. injection E as <-. reflexivity.
Defined.

(** ** The session *)

(** In a state the application reaches, once the effect has run, the
    listeners are the two of the active wallet. *)
Lemma settled_listeners (all : list WalletAdapter) (hist : list Label) (s : Sys) :
  run hist (boot all) = Some s ->
  effect_dirty (st s) = false ->
  listeners (st s) = subscribed (activeWallet (st s)).
Proof.
  intros H E. apply reachable_sound in H as ([Hl Hd] & _).
  rewrite Hl, (Hd E). reflexivity.
Qed.


Lemma emit_disconnect_active (h : WalletAdapter) (arg : string) (now : Z)
  (w : World) :
  listeners w = subscribed (activeWallet w) ->
  activeWallet w = Some h ->
  emit h EvDisconnect arg now w
  = mkWorld (logs w ++ [mkLog "info" (name h ++ " disconnected ❌") now])
            (wallets w) None true (effect_cleanup w) (listeners w)
            (invoked w) (console w).
Proof.
  intros Hl Ha. unfold emit.
  assert (Hh : handlers_for h EvDisconnect (listeners w) = [disconnectHandler h]).
  { rewrite Hl, Ha. apply handlers_for_subscribed_same. }
  rewrite Hh. simpl. unfold activeWallet_set. simpl. rewrite Ha. reflexivity.
Qed.


Lemma contains_prefix (a b : string) : contains (a ++ b) a.
Proof. exists "", b. reflexivity. Qed.




(** C5, as stated, fails for the subscription, which is made by the effect
    and not by [connectWallet].  The user picks Phantom and, before it has
    answered, Solflare: [connect()] of Phantom is fulfilled, Phantom is the
    active wallet and its entry is in the log; [connect()] of Solflare is
    fulfilled before the effect has run, and when it runs it subscribes to
    Solflare: no handler was ever subscribed on Phantom.  The same happens
    when every call is awaited, if Solflare is connected before the effect
    has run for Phantom. *)
Lemma connected_but_never_subscribed :
  (exists s1 s2 s3,
      run [ Flush; Call (OpConnect walletA); Call (OpConnect walletB);
            Settle 0 Fulfilled 1000 ]
          (boot [walletA; walletB]) = Some s1
      /\ step (Settle 0 Fulfilled 1001) s1 = Some s2
      /\ step Flush s2 = Some s3
      /\ activeWallet (st s1) = Some walletA
      /\ logs (st s1) = [mkLog "info" "Phantom connected ✅" 1000]
      /\ listeners (st s1) = []
      /\ listeners (st s2) = []
      /\ activeWallet (st s3) = Some walletB
      /\ listeners (st s3)
         = [ mkListener walletB EvDisconnect (disconnectHandler walletB);
             mkListener walletB EvError (errorHandler walletB) ])
  /\ (exists s1 s2 s3,
        run [Flush; Call (OpConnect walletA); Settle 0 Fulfilled 1000]
            (boot [walletA; walletB]) = Some s1
        /\ run [ Call (OpConnect walletB); Settle 0 Fulfilled 1001;
                 Settle 0 Fulfilled 1002 ] s1 = Some s2
        /\ step Flush s2 = Some s3
        /\ serial [ Flush; Call (OpConnect walletA); Settle 0 Fulfilled 1000;
                    Call (OpConnect walletB); Settle 0 Fulfilled 1001;
                    Settle 0 Fulfilled 1002; Flush ]
                  (boot [walletA; walletB]) = true
        /\ activeWallet (st s1) = Some walletA
        /\ listeners (st s1) = []
        /\ listeners (st (call (OpConnect walletB) s1)) = []
        /\ listeners (st s2) = []
        /\ activeWallet (st s3) = Some walletB
        /\ listeners (st s3)
           = [ mkListener walletB EvDisconnect (disconnectHandler walletB);
               mkListener walletB EvError (errorHandler walletB) ]).
Proof.
  split.
  - do 3 eexists. split; [vm_compute; reflexivity|].
    split; [vm_compute; reflexivity|]. split; [vm_compute; reflexivity|].
    vm_compute. repeat split.
  - do 3 eexists. split; [vm_compute; reflexivity|].
    split; [vm_compute; reflexivity|]. split; [vm_compute; reflexivity|].
    vm_compute. repeat split.
Qed.

(** C5, as it holds.  [connectWallet(h)] for a wallet [h] that is not the
    active one invokes [h.connect()], at once when no wallet is active, and
    otherwise after it has invoked [disconnect()] on the active wallet and
    that promise has been fulfilled.  When [h.connect()] is fulfilled, the
    call sets [activeWallet] to [h], appends exactly one entry, of topic
    info, whose message contains the name of [h], and ends, fulfilled; it
    subscribes nothing itself, and the change of [activeWallet] schedules a
    run of the effect.  If the effect runs next, it leaves the service
    subscribed to the 'disconnect' and 'error' events of [h], and of [h]
    only.  In general the subscriptions change at the runs of the effect and
    at no other step, and after a run they are those of the wallet that is
    active at that run. *)
Theorem connect_success :
  forall (all : list WalletAdapter) (hist : list Label) (s : Sys)
         (h : WalletAdapter),
    run hist (boot all) = Some s ->
    (activeWallet (st s) = None ->
     call (OpConnect h) s
     = mkSys (invoke CapConnect h (st s))
             (pool s ++ [Await h CapConnect (WalletService.connect_settled h)]))
    /\ (forall a,
          activeWallet (st s) = Some a -> a <> h ->
          call (OpConnect h) s
          = mkSys (invoke CapDisconnect a (st s))
                  (pool s ++ [Await a CapDisconnect (WalletService.swap_settled h)])
          /\ forall now w,
               WalletService.swap_settled h Fulfilled now w
               = (invoke CapConnect h w,
                  Await h CapConnect (WalletService.connect_settled h)))
    /\ (logs (st (call (OpConnect h) s)) = logs (st s)
        /\ listeners (st (call (OpConnect h) s)) = listeners (st s)
        /\ forall r now w,
             logs (fst (WalletService.swap_settled h r now w)) = logs w
             /\ listeners (fst (WalletService.swap_settled h r now w))
                = listeners w)
    /\ (forall i now,
          nth_error (pool s) i
          = Some (Await h CapConnect (WalletService.connect_settled h)) ->
          exists s2 s3,
            step (Settle i Fulfilled now) s = Some s2
            /\ step Flush s2 = Some s3
            /\ activeWallet (st s2) = Some h
            /\ logs (st s2)
               = logs (st s) ++ [mkLog "info" (name h ++ " connected ✅") now]
            /\ contains (name h ++ " connected ✅") (name h)
            /\ invoked (st s2) = invoked (st s)
            /\ pool s2 = firstn i (pool s) ++ skipn (S i) (pool s)
            /\ activeWallet (st s3) = Some h
            /\ logs (st s3) = logs (st s2)
            /\ listeners (st s3)
               = [ mkListener h EvDisconnect (disconnectHandler h);
                   mkListener h EvError (errorHandler h) ]
            /\ listeners (st s2) = listeners (st s)
            /\ (activeWallet (st s) <> Some h -> effect_dirty (st s2) = true))
    /\ (forall l s',
          step l s = Some s' ->
          (l <> Flush -> listeners (st s') = listeners (st s))
          /\ (l = Flush ->
              listeners (st s') = subscribed (activeWallet (st s))
              /\ activeWallet (st s') = activeWallet (st s))).
Proof.
  intros all hist s h Hrun.
  split; [|split; [|split; [|split]]].
  - intros Ha. unfold call. simpl.
    destruct (connectWallet_steps h (st s))
      as [[E _]|[[_ ->]|(a & E & _)]]; try congruence. reflexivity.
  - intros a Ha Hne. split; [|reflexivity]. unfold call. simpl.
    destruct (connectWallet_steps h (st s))
      as [[E _]|[[E _]|(a' & E & _ & ->)]]; try congruence.
    replace a' with a by congruence. reflexivity.
  - rewrite call_st. split; [apply run_op_logs|].
    split; [apply run_op_listeners|].
    intros r now w. unfold WalletService.swap_settled.
    destruct r; simpl; auto.
  - intros i now Hi.
    destruct (connect_settled_fulfilled h now (st s))
      as (Hk & Ha & Hlogs & Hinv & Hlis).
    assert (Hdirty : activeWallet (st s) <> Some h ->
                     effect_dirty
                       (fst (WalletService.connect_settled h Fulfilled now (st s)))
                     = true).
    { intros Hne. simpl. unfold activeWallet_set.
      destruct (same_wallet (activeWallet (st s)) (Some h)) eqn:E;
        [|reflexivity].
      apply same_wallet_eq in E. contradiction. }
    remember (fst (WalletService.connect_settled h Fulfilled now (st s))) as w2 eqn:Ew2.
    assert (Hstep : step (Settle i Fulfilled now) s
                    = Some (mkSys w2 (firstn i (pool s) ++ skipn (S i) (pool s)))).
    { simpl step. rewrite Hi.
      destruct (WalletService.connect_settled h Fulfilled now (st s)) as [w t].
      simpl in Hk, Ew2. subst w t. reflexivity. }
    exists (mkSys w2 (firstn i (pool s) ++ skipn (S i) (pool s))).
    exists (mkSys (WalletService.flush w2) (firstn i (pool s) ++ skipn (S i) (pool s))).
    split; [exact Hstep|]. split; [reflexivity|].
    assert (He : effect_in_step w2).
    { destruct (step_sound any_wallet _ _ _ (reachable_sound _ _ _ Hrun)
                             (fun _ _ => I) Hstep) as [(He & _) _].
      exact He. }
    destruct (flush_frame w2) as (Hfl & _ & Hfa & _).
    destruct (flush_listeners w2 He) as (Hls & _).
    cbn [st pool].
    split; [exact Ha|]. split; [exact Hlogs|].
    split; [apply contains_prefix|]. split; [exact Hinv|].
    split; [reflexivity|].
    split; [congruence|]. split; [exact Hfl|].
    split; [rewrite Hls, Ha; reflexivity|].
    split; [exact Hlis|exact Hdirty].
  - intros l s' Hstep.
    pose proof (reachable_sound _ _ _ Hrun) as (He & Hpool & _).
    split.
    + intros Hl. now apply (step_listeners any_wallet l s s' Hpool Hstep).
    + intros ->. simpl in Hstep. injection Hstep as <-. simpl.
      destruct (flush_listeners (st s) He) as (Hls & _).
      split; [exact Hls|apply flush_active].
Qed.

Lemma connect_success_witness :
  (exists s2 s3,
      step (Settle 0 Fulfilled 1000) (call (OpConnect walletA) (boot [walletA]))
      = Some s2
      /\ step Flush s2 = Some s3
      /\ activeWallet (st s2) = Some walletA
      /\ logs (st s2) = [mkLog "info" "Phantom connected ✅" 1000]
      /\ listeners (st s3)
         = [ mkListener walletA EvDisconnect (disconnectHandler walletA);
             mkListener walletA EvError (errorHandler walletA) ])
  /\ listeners
       (st (call (OpConnect walletB)
              (call (OpConnect walletA) (boot [walletA; walletB]))))
     = listeners (st (call (OpConnect walletA) (boot [walletA; walletB]))).
Proof.
  split.
  - pose proof (connect_success [walletA] [Call (OpConnect walletA)]
                  (call (OpConnect walletA) (boot [walletA])) walletA eq_refl)
      as (_ & _ & _ & H & _).
    destruct (H 0%nat 1000%Z eq_refl)
      as (s2 & s3 & H1 & H2 & H3 & H4 & _ & _ & _ & _ & _ & H5 & _).
    exists s2, s3. repeat split; assumption.
  - pose proof (connect_success [walletA; walletB] [Call (OpConnect walletA)]
                  (call (OpConnect walletA) (boot [walletA; walletB])) walletA
                  eq_refl)
      as (_ & _ & _ & _ & H).
    apply (proj1 (H (Call (OpConnect walletB)) _ eq_refl)). discriminate.
Defined.

(** ** Serial histories *)

(** What happens behind the calls leaves the waiting calls alone, and does to
    the active wallet nothing but, possibly, clear it. *)
Lemma background_step (l : Label) (s s' : Sys) :
  background l = true ->
  step l s = Some s' ->
  pool s' = pool s
  /\ (activeWallet (st s') = activeWallet (st s) \/ activeWallet (st s') = None).
Proof.
  intros Hb H. destruct l as [op|i r now|x ev arg now|]; try discriminate;
    simpl in H; injection H as <-; simpl; split; auto.
  - apply emit_active.
  - left. apply flush_active.
Qed.

Lemma disconnected_first_background (active wallet : WalletAdapter)
  (start : Sys) (hist : list Label) (l : Label) :
  disconnected_first active wallet start hist ->
  background l = true ->
  disconnected_first active wallet start (hist ++ [l]).
Proof.
  intros (pre & mid1 & mid2 & t & s0 & -> & Hrun & Ha & Hc & H1 & H2) Hb.
  exists pre, mid1, (mid2 ++ [l]), t, s0.
  split.
  { rewrite <- !app_assoc. simpl. rewrite <- !app_assoc. reflexivity. }
  repeat (split; [assumption|]).
  rewrite forallb_app, H2. simpl. now rewrite Hb.
Qed.

(** The only way a wallet becomes the active wallet: the promise of its
    [connect()], awaited by a call of [connectWallet], is fulfilled. *)
Lemma becomes_active (l : Label) (s s' : Sys) (h : WalletAdapter) :
  sound any_wallet s ->
  step l s = Some s' ->
  activeWallet (st s') = Some h ->
  activeWallet (st s) <> Some h ->
  exists i now,
    l = Settle i Fulfilled now
    /\ nth_error (pool s) i
       = Some (Await h CapConnect (WalletService.connect_settled h)).
Proof.
  intros (_ & Hpool & _) Hstep Ha Hn.
  destruct l as [op|i r now|x ev arg now|].
  - exfalso. simpl in Hstep. injection Hstep as <-.
    rewrite call_st, run_op_active in Ha. congruence.
  - simpl in Hstep.
    destruct (nth_error (pool s) i) as [[|wallet cap k]|] eqn:E; try discriminate.
    assert (Hw : waiting any_wallet (Await wallet cap k)).
    { rewrite Forall_forall in Hpool. apply Hpool. eapply nth_error_In; eauto. }
    inversion Hw as [a|a wallet' _|wallet' _]; subst.
    + exfalso. simpl in Hstep. injection Hstep as <-. simpl in Ha. congruence.
    + exfalso. unfold WalletService.swap_settled in Hstep.
      destruct r; simpl in Hstep; injection Hstep as <-; simpl in Ha; congruence.
    + destruct r as [|e].
      * destruct (connect_settled_fulfilled wallet now (st s)) as (_ & Ha' & _).
        destruct (WalletService.connect_settled wallet Fulfilled now (st s))
          as [w t] eqn:Ek.
        injection Hstep as <-. simpl in Ha, Ha'.
        assert (wallet = h) by congruence. subst wallet.
        exists i, now. auto.
      * exfalso. rewrite connect_settled_rejected in Hstep.
        injection Hstep as <-. simpl in Ha. congruence.
  - exfalso. simpl in Hstep. injection Hstep as <-. simpl in Ha.
    destruct (emit_active x ev arg now (st s)); congruence.
  - exfalso. simpl in Hstep. injection Hstep as <-. simpl in Ha.
    rewrite flush_active in Ha. congruence.
Qed.

Lemma phase_step (start : Sys) (hist : list Label) (s : Sys) (l : Label)
  (s' : Sys) :
  phase start hist s ->
  run hist start = Some s ->
  (is_call l = true -> pool s = []) ->
  step l s = Some s' ->
  phase start (hist ++ [l]) s'.
Proof.
  intros Hph Hrun Hser Hstep.
  destruct (background l) eqn:Hb.
  { (* behind the calls *)
    destruct (background_step l s s' Hb Hstep) as [Hp Ha].
    inversion Hph as [? ? Hpool|? ? a Hpool
                      |? ? a wallet pre mid s0 Hpool Hh Hpre Ha0 Hc Hmid Hact
                      |? ? wallet Hpool Hd]; subst.
    - apply phase_idle. congruence.
    - apply (phase_disconnecting start _ _ a). congruence.
    - apply (phase_swapping start _ _ a wallet pre (mid ++ [l]) s0); auto.
      + congruence.
      + rewrite <- app_assoc. reflexivity.
      + rewrite forallb_app, Hmid. simpl. now rewrite Hb.
      + destruct Ha as [Ha|Ha]; [rewrite Ha; exact Hact|now left].
    - apply (phase_connecting start _ _ wallet); [congruence|].
      intros active Hactive. apply disconnected_first_background; [|exact Hb].
      apply Hd. destruct Ha as [Ha|Ha]; congruence. }
  destruct l as [op|i r now|x ev arg now|]; try discriminate.
  - (* a call, with nothing waiting *)
    specialize (Hser eq_refl). simpl in Hstep. injection Hstep as <-.
    unfold call. rewrite Hser. simpl app.
    destruct op as [wallet|]; simpl run_op.
    + destruct (connectWallet_steps wallet (st s))
        as [[_ E]|[[Hn E]|(a & Ha & Hne & E)]]; rewrite E; simpl.
      * now apply phase_idle.
      * apply (phase_connecting start _ _ wallet); [reflexivity|].
        simpl. intros active Hactive. congruence.
      * apply (phase_swapping start _ _ a wallet hist [] s); auto;
          try (unfold call, run_op; rewrite E, Hser; reflexivity);
          try (simpl; now right).
    + unfold WalletService.disconnect.
      destruct (activeWallet (st s)) as [a|]; simpl.
      * now apply (phase_disconnecting start _ _ a).
      * now apply phase_idle.
  - (* a promise settles *)
    simpl in Hstep.
    inversion Hph as [? ? Hpool|? ? a Hpool
                      |? ? a wallet pre mid s0 Hpool Hh Hpre Ha0 Hc Hmid Hact
                      |? ? wallet Hpool Hd]; subst; rewrite Hpool in Hstep.
    + destruct i; discriminate.
    + destruct i as [|i]; [|destruct i; discriminate].
      simpl in Hstep. injection Hstep as <-. now apply phase_idle.
    + destruct i as [|i]; [|destruct i; discriminate].
      simpl in Hstep. unfold WalletService.swap_settled in Hstep.
      destruct r as [|e]; simpl in Hstep; injection Hstep as <-.
      * apply (phase_connecting start _ _ wallet); [reflexivity|].
        simpl. intros active Hactive.
        assert (active = a) by (destruct Hact; congruence). subst active.
        exists pre, mid, [], now, s0.
        split; [rewrite <- app_assoc; reflexivity|]. auto.
      * now apply phase_idle.
    + destruct i as [|i]; [|destruct i; discriminate].
      simpl in Hstep.
      destruct (WalletService.connect_settled wallet r now (st s)) as [w t] eqn:E.
      assert (t = Done Fulfilled).
      { destruct r; simpl in E; injection E as _ <-; reflexivity. }
      subst t. injection Hstep as <-. now apply phase_idle.
Qed.

Lemma serial_snoc (hist : list Label) (l : Label) (start : Sys) :
  serial (hist ++ [l]) start = true ->
  serial hist start = true
  /\ exists s s',
       run hist start = Some s /\ step l s = Some s'
       /\ (is_call l = true -> pool s = []).
Proof.
  revert start. induction hist as [|x hist IH]; intros start H; simpl in H.
  - split; [reflexivity|]. apply andb_true_iff in H as [H1 H2].
    destruct (step l start) as [s'|] eqn:E; [|discriminate].
    exists start, s'. repeat split; auto.
    intros Hc. destruct l; try discriminate.
    destruct (pool start); [reflexivity|discriminate].
  - apply andb_true_iff in H as [H1 H2]. simpl.
    destruct (step x start) as [s1|] eqn:E; [|discriminate].
    destruct (IH s1 H2) as [H3 H4]. rewrite H1, H3. auto.
Qed.

(** A serial history is in one of the four phases. *)
Lemma serial_phase (start : Sys) (hist : list Label) (s : Sys) :
  pool start = [] ->
  serial hist start = true ->
  run hist start = Some s ->
  phase start hist s.
Proof.
  intros H0. revert s. induction hist as [|l hist IH] using rev_ind;
    intros s Hser Hrun.
  - simpl in Hrun. injection Hrun as <-. now apply phase_idle.
  - apply serial_snoc in Hser as (Hser & s1 & s2 & Hr1 & Hs2 & Hc).
    rewrite (run_snoc _ _ _ _ Hr1) in Hrun.
    assert (s2 = s) by congruence. subst s2.
    eapply phase_step; eauto.
Qed.

Lemma run_suffix (pre rest : list Label) (start s0 s : Sys) :
  run (pre ++ rest) start = Some s ->
  run pre start = Some s0 ->
  run rest s0 = Some s.
Proof. intros H H0. rewrite run_app, H0 in H. exact H. Qed.

(** After a disconnect-first history, the disconnect is among the
    invocations. *)
Lemma disconnected_first_invoked (active wallet : WalletAdapter)
  (all : list WalletAdapter) (hist : list Label) (s : Sys) :
  run hist (boot all) = Some s ->
  disconnected_first active wallet (boot all) hist ->
  In (CapDisconnect, active) (invoked (st s)).
Proof.
  intros Hrun (pre & mid1 & mid2 & t & s0 & -> & Hpre & Ha & Hc & _).
  pose proof (run_suffix _ _ _ _ _ Hrun Hpre) as Hrest.
  simpl in Hrest.
  assert (Hs1 : sound any_wallet (call (OpConnect wallet) s0)).
  { apply (run_sound [Call (OpConnect wallet)] s0);
      [eapply reachable_sound; eauto|reflexivity]. }
  destruct (run_sound _ _ _ Hs1 Hrest) as (_ & _ & _ & [more [Hm _]] & _).
  rewrite Hm, Hc. simpl. apply in_or_app. left. apply in_or_app. right.
  now left.
Qed.

(** C1, as it holds: when every call is awaited to its end before the next
    call is made, at most one wallet is active at any moment, and the active
    wallet changes from a wallet [h] to another wallet [h'] only at the step
    at which [h'.connect()], awaited by [connectWallet(h')], is fulfilled,
    that call having been made while [h] was active, having invoked
    [h.disconnect()] first, and having gone on to [h'.connect()] only after
    that promise was fulfilled. *)
Theorem serial_swap_disconnects_first :
  forall (all : list WalletAdapter) (hist : list Label) (s : Sys),
    serial hist (boot all) = true ->
    run hist (boot all) = Some s ->
    (forall a b,
        activeWallet (st s) = Some a -> activeWallet (st s) = Some b -> a = b)
    /\ (forall l s' h h',
          (is_call l = true -> pool s = []) ->
          step l s = Some s' ->
          activeWallet (st s) = Some h ->
          activeWallet (st s') = Some h' ->
          h <> h' ->
          disconnected_first h h' (boot all) hist
          /\ In (CapDisconnect, h) (invoked (st s))
          /\ exists now, l = Settle 0 Fulfilled now).
Proof.
  intros all hist s Hser Hrun. split; [intros a b Ha Hb; congruence|].
  intros l s' h h' Hcall Hstep Ha Ha' Hne.
  pose proof (serial_phase (boot all) hist s eq_refl Hser Hrun) as Hph.
  destruct (becomes_active l s s' h' (reachable_sound _ _ _ Hrun) Hstep Ha')
    as (i & now & -> & Hi); [congruence|].
  assert (Hd : disconnected_first h h' (boot all) hist /\ i = 0%nat).
  { inversion Hph as [? ? Hpool|? ? a Hpool
                      |? ? a wallet pre mid s0 Hpool Hh Hpre Ha0 Hc Hmid Hact
                      |? ? wallet Hpool Hd]; subst; rewrite Hpool in Hi.
    - destruct i; discriminate.
    - destruct i as [|i]; [discriminate|destruct i; discriminate].
    - destruct i as [|i]; [discriminate|destruct i; discriminate].
    - destruct i as [|i]; [|destruct i; discriminate].
      simpl in Hi. injection Hi as ->. split; [|reflexivity].
      now apply Hd. }
  destruct Hd as [Hd ->].
  split; [exact Hd|]. split; [|now exists now].
  eapply disconnected_first_invoked; eauto.
Qed.

Lemma serial_swap_disconnects_first_witness :
  exists s s',
    run [ Call (OpConnect walletA); Settle 0 Fulfilled 1000; Flush;
          Call (OpConnect walletB); Settle 0 Fulfilled 1001 ]
        (boot [walletA; walletB]) = Some s
    /\ step (Settle 0 Fulfilled 1002) s = Some s'
    /\ activeWallet (st s) = Some walletA
    /\ activeWallet (st s') = Some walletB
    /\ In (CapDisconnect, walletA) (invoked (st s)).
Proof.
  eexists. eexists. split; [reflexivity|]. split; [reflexivity|].
  split; [reflexivity|]. split; [reflexivity|].
  match goal with
  | |- In _ (invoked (st ?s)) =>
      pose proof (serial_swap_disconnects_first [walletA; walletB]
                    [ Call (OpConnect walletA); Settle 0 Fulfilled 1000; Flush;
                      Call (OpConnect walletB); Settle 0 Fulfilled 1001 ]
                    s eq_refl eq_refl) as (_ & H)
  end.
  refine (proj1 (proj2 (H (Settle 0 Fulfilled 1002) _ walletA walletB
                          _ eq_refl eq_refl eq_refl _))).
  - discriminate.
  - discriminate.
Defined.

(** C1, as stated, fails: the user picks Phantom in the navbar and, while the
    wallet has not answered yet, picks Solflare; no wallet being active at
    either click, no [disconnect()] is invoked; Phantom answers and becomes
    the active wallet; Solflare answers and replaces it, Phantom never having
    been asked to disconnect. *)
Lemma overlapping_connects_swap_directly :
  exists u1 u2,
    ui_run [ ClickWallets; ClickWallet "Phantom";
             ClickWallets; ClickWallet "Solflare";
             Background (Settle 0 Fulfilled 1000) ]
           (ui_boot [walletA; walletB]) = Some u1
    /\ ui_step (Background (Settle 0 Fulfilled 1001)) u1 = Some u2
    /\ activeWallet (st (sys u1)) = Some walletA
    /\ activeWallet (st (sys u2)) = Some walletB
    /\ invoked (st (sys u2)) = [(CapConnect, walletA); (CapConnect, walletB)]
    /\ ~ In (CapDisconnect, walletA) (invoked (st (sys u2))).
Proof.
  eexists. eexists. split; [reflexivity|]. split; [reflexivity|].
  split; [reflexivity|]. split; [reflexivity|]. split; [reflexivity|].
  simpl. intros [H|[H|[]]]; discriminate.
Qed.

(** ** Disconnecting, and connecting that fails *)

(** With no listener and no run of the effect pending, what happens behind
    the calls changes nothing. *)
Lemma background_idle (evs : list Label) (s : Sys) :
  effect_dirty (st s) = false ->
  listeners (st s) = [] ->
  forallb background evs = true ->
  run evs s = Some s.
Proof.
  intros Hd Hl. induction evs as [|l evs IH]; intros H; [reflexivity|].
  simpl in H. apply andb_true_iff in H as [Hb H].
  assert (E : step l s = Some s).
  { destruct l as [op|i r now|x ev arg now|]; try discriminate; simpl.
    - unfold emit. rewrite Hl. simpl. now destruct s.
    - unfold WalletService.flush. rewrite Hd. now destruct s. }
  simpl. rewrite E. now apply IH.
Qed.

(** What happens behind the calls clears [activeWallet], or leaves it. *)
Lemma background_run_active (evs : list Label) (s s' : Sys) :
  forallb background evs = true ->
  run evs s = Some s' ->
  activeWallet (st s') = activeWallet (st s) \/ activeWallet (st s') = None.
Proof.
  revert s. induction evs as [|l evs IH]; intros s Hb H; simpl in H.
  - injection H as <-. now left.
  - simpl in Hb. apply andb_true_iff in Hb as [Hl Hb].
    destruct (step l s) as [s1|] eqn:E; [|discriminate].
    destruct (background_step l s s1 Hl E) as [_ H1].
    destruct (IH s1 Hb H) as [H2|H2]; [|now right].
    rewrite H2. exact H1.
Qed.

(** While [a] is the active wallet and the last run of the effect was for
    [a], a 'disconnect' event of [a] clears [activeWallet]; anything else
    that happens behind the calls leaves both as they are. *)
Lemma background_step_subscribed (a : WalletAdapter) (l : Label) (s s' : Sys) :
  effect_in_step (st s) ->
  background l = true ->
  step l s = Some s' ->
  activeWallet (st s) = Some a ->
  effect_cleanup (st s) = Some a ->
  (disconnect_event_of a l = true -> activeWallet (st s') = None)
  /\ (disconnect_event_of a l = false ->
      activeWallet (st s') = Some a /\ effect_cleanup (st s') = Some a).
Proof.
  intros [Hc Hd] Hb Hstep Ha Ec.
  destruct l as [op|i r now|x ev arg now|]; try discriminate;
    simpl in Hstep; injection Hstep as <-; simpl.
  - destruct (emit_by_cleanup x ev arg now (st s) Hc) as [Hn Hy].
    destruct (WalletAdapter_eqb x a) eqn:Ex.
    + apply WalletAdapter_eqb_eq in Ex. subst x. rewrite (Hy Ec).
      destruct ev; simpl.
      * split; [|discriminate]. intros _. unfold activeWallet_set. simpl.
        rewrite Ha. reflexivity.
      * split; [discriminate|]. auto.
    + apply WalletAdapter_eqb_neq in Ex. rewrite Hn by congruence.
      split; [destruct ev; discriminate|]. auto.
  - split; [discriminate|]. intros _. rewrite flush_active.
    split; [exact Ha|].
    destruct (flush_listeners (st s) (conj Hc Hd)) as (_ & -> & _). exact Ha.
Qed.

Lemma background_run_subscribed (a : WalletAdapter) (evs : list Label)
  (s s' : Sys) :
  sound any_wallet s ->
  forallb background evs = true ->
  run evs s = Some s' ->
  activeWallet (st s) = Some a ->
  effect_cleanup (st s) = Some a ->
  (existsb (disconnect_event_of a) evs = true -> activeWallet (st s') = None)
  /\ (existsb (disconnect_event_of a) evs = false ->
      activeWallet (st s') = Some a /\ effect_cleanup (st s') = Some a).
Proof.
  revert s. induction evs as [|l evs IH]; intros s Hs Hb H Ha Ec; simpl in H.
  - injection H as <-. simpl. split; [discriminate|auto].
  - simpl in Hb. apply andb_true_iff in Hb as [Hl Hb].
    destruct (step l s) as [s1|] eqn:E; [|discriminate].
    destruct (step_sound any_wallet l s s1 Hs (fun _ _ => I) E) as [Hs1 _].
    destruct (background_step_subscribed a l s s1 (proj1 Hs) Hl E Ha Ec)
      as [Hy Hn].
    simpl. destruct (disconnect_event_of a l); simpl.
    + split; [|discriminate]. intros _.
      destruct (background_run_active evs s1 s' Hb H) as [H1|H1]; [|exact H1].
      rewrite H1. now apply Hy.
    + destruct (Hn eq_refl) as [Ha1 Ec1]. now apply (IH s1).
Qed.

(** C2, as stated, fails: Phantom is the active wallet and the effect has
    run; [disconnect()] is called and invokes [disconnect()] of Phantom.
    When that promise is fulfilled without the adapter having emitted
    'disconnect', the call ends, the effect runs, and Phantom is still the
    active wallet, the two handlers still subscribed.  When the adapter does
    emit 'disconnect' before it fulfils the promise, [activeWallet] is [null]
    already while the call still waits for the promise, the handlers are
    still subscribed at that moment, and an info entry has been appended. *)
Lemma disconnect_leaves_wallet_active :
  (exists s,
      run [ Call (OpConnect walletA); Settle 0 Fulfilled 1000; Flush;
            Call OpDisconnect; Settle 0 Fulfilled 1007; Flush ]
          (boot [walletA; walletB]) = Some s
      /\ pool s = []
      /\ invoked (st s) = [(CapConnect, walletA); (CapDisconnect, walletA)]
      /\ activeWallet (st s) = Some walletA
      /\ listeners (st s)
         = [ mkListener walletA EvDisconnect (disconnectHandler walletA);
             mkListener walletA EvError (errorHandler walletA) ])
  /\ (exists s,
        run [ Call (OpConnect walletA); Settle 0 Fulfilled 1000; Flush;
              Call OpDisconnect; Emit walletA EvDisconnect "" 1007 ]
            (boot [walletA; walletB]) = Some s
        /\ pool s
           = [Await walletA CapDisconnect WalletService.disconnect_settled]
        /\ activeWallet (st s) = None
        /\ listeners (st s)
           = [ mkListener walletA EvDisconnect (disconnectHandler walletA);
               mkListener walletA EvError (errorHandler walletA) ]
        /\ logs (st s)
           = [ mkLog "info" "Phantom connected ✅" 1000;
               mkLog "info" "Phantom disconnected ❌" 1007 ]).
Proof. split; eexists; repeat split. Qed.

(** C2, as it holds.  Without an active wallet, [disconnect()] does nothing:
    it returns fulfilled and the state, the log included, is the same.  With
    an active wallet [a], it invokes [a.disconnect()] and awaits it, and that
    is all it does: when the promise settles, the call ends the way the
    promise did, and has changed nothing else, neither [activeWallet] nor the
    listeners.  It is the handler of the 'disconnect' event of [a] that sets
    [activeWallet] to [null], appending one info entry, and it does so if it
    is subscribed when [a] emits the event, that is if the last run of the
    effect was for [a], as it is once the effect has run since [a] became
    active; the handlers are still subscribed then, and are unsubscribed by
    the next run of the effect.  If the last run of the effect was not for
    [a], the event reaches no handler and changes nothing: [a] stays the
    active wallet. *)
Theorem disconnect_behaviour :
  forall (all : list WalletAdapter) (hist : list Label) (s : Sys),
    run hist (boot all) = Some s ->
    (activeWallet (st s) = None ->
     WalletService.disconnect (st s) = (st s, Done Fulfilled)
     /\ step (Call OpDisconnect) s = Some s)
    /\ (forall a,
          activeWallet (st s) = Some a ->
          call OpDisconnect s
          = mkSys (invoke CapDisconnect a (st s))
                  (pool s ++ [Await a CapDisconnect WalletService.disconnect_settled])
          /\ activeWallet (invoke CapDisconnect a (st s)) = Some a
          /\ listeners (invoke CapDisconnect a (st s)) = listeners (st s)
          /\ logs (invoke CapDisconnect a (st s)) = logs (st s)
          /\ (forall r now w,
                WalletService.disconnect_settled r now w = (w, Done r))
          /\ (effect_dirty (st s) = false -> effect_cleanup (st s) = Some a)
          /\ (effect_cleanup (st s) = Some a ->
              forall arg now,
                activeWallet (emit a EvDisconnect arg now (st s)) = None
                /\ logs (emit a EvDisconnect arg now (st s))
                   = logs (st s) ++ [mkLog "info" (name a ++ " disconnected ❌") now]
                /\ listeners (emit a EvDisconnect arg now (st s))
                   = [ mkListener a EvDisconnect (disconnectHandler a);
                       mkListener a EvError (errorHandler a) ]
                /\ listeners (WalletService.flush (emit a EvDisconnect arg now (st s)))
                   = []
                /\ activeWallet (WalletService.flush (emit a EvDisconnect arg now (st s)))
                   = None
                /\ logs (WalletService.flush (emit a EvDisconnect arg now (st s)))
                   = logs (emit a EvDisconnect arg now (st s)))
          /\ (effect_cleanup (st s) <> Some a ->
              forall arg now,
                emit a EvDisconnect arg now (st s) = st s
                /\ emit a EvDisconnect arg now (invoke CapDisconnect a (st s))
                   = invoke CapDisconnect a (st s))).
Proof.
  intros all hist s Hrun. split.
  - intros Ha.
    assert (E : WalletService.disconnect (st s) = (st s, Done Fulfilled)).
    { unfold WalletService.disconnect. now rewrite Ha. }
    split; [exact E|]. simpl. unfold call. simpl. rewrite E. simpl.
    rewrite app_nil_r. now destruct s.
  - intros a Ha. split.
    { unfold call. simpl. unfold WalletService.disconnect. now rewrite Ha. }
    split; [exact Ha|]. split; [reflexivity|]. split; [reflexivity|].
    split; [reflexivity|].
    pose proof (reachable_sound _ _ _ Hrun) as ([Hc Hd] & _).
    split; [intros Hq; rewrite (Hd Hq); exact Ha|]. split.
    + intros Ec arg now.
      assert (Hl : listeners (st s) = subscribed (activeWallet (st s))).
      { rewrite Hc, Ec, Ha. reflexivity. }
      pose proof (emit_disconnect_active a arg now (st s) Hl Ha) as E.
      assert (He : effect_in_step (emit a EvDisconnect arg now (st s))).
      { apply (extends_emit any_wallet). apply (reachable_sound _ _ _ Hrun). }
      destruct (flush_listeners _ He) as (Hfl & _).
      destruct (flush_frame (emit a EvDisconnect arg now (st s)))
        as (Hlogs & _ & Hact & _).
      rewrite Hfl, Hact, Hlogs. rewrite E. simpl.
      rewrite Hl, Ha. simpl. repeat split.
    + intros Ec arg now. split.
      * now apply (emit_by_cleanup a EvDisconnect arg now (st s) Hc).
      * now apply (emit_by_cleanup a EvDisconnect arg now
                     (invoke CapDisconnect a (st s)) Hc).
Qed.

Lemma disconnect_behaviour_witness :
  (exists s,
      run [Call (OpConnect walletA); Settle 0 Fulfilled 1000; Flush]
          (boot [walletA; walletB]) = Some s
      /\ step (Call OpDisconnect) (boot [walletA; walletB])
         = Some (boot [walletA; walletB])
      /\ call OpDisconnect s
         = mkSys (invoke CapDisconnect walletA (st s))
                 (pool s ++ [Await walletA CapDisconnect WalletService.disconnect_settled])
      /\ activeWallet (emit walletA EvDisconnect "" 1007 (st s)) = None
      /\ listeners (WalletService.flush (emit walletA EvDisconnect "" 1007 (st s)))
         = [])
  /\ (exists s,
        run [Flush; Call (OpConnect walletA); Settle 0 Fulfilled 1000]
            (boot [walletA; walletB]) = Some s
        /\ activeWallet (st s) = Some walletA
        /\ emit walletA EvDisconnect "" 1007 (invoke CapDisconnect walletA (st s))
           = invoke CapDisconnect walletA (st s)).
Proof.
  split.
  - destruct (run _ (boot [walletA; walletB])) as [s|] eqn:E;
      [|vm_compute in E; discriminate].
    exists s. split; [reflexivity|].
    pose proof (disconnect_behaviour [walletA; walletB] []
                  (boot [walletA; walletB]) eq_refl) as (H0 & _).
    split; [apply H0; reflexivity|].
    pose proof (disconnect_behaviour _ _ _ E) as (_ & H1).
    assert (Hs : activeWallet (st s) = Some walletA
                 /\ effect_cleanup (st s) = Some walletA).
    { vm_compute in E. injection E as <-. split; reflexivity. }
    destruct Hs as [Ha Ec].
    destruct (H1 walletA Ha) as (Hc & _ & _ & _ & _ & _ & He & _).
    split; [exact Hc|].
    destruct (He Ec "" 1007%Z) as (Hn & _ & _ & Hl & _).
    split; [exact Hn|exact Hl].
  - destruct (run _ (boot [walletA; walletB])) as [s|] eqn:E;
      [|vm_compute in E; discriminate].
    exists s. split; [reflexivity|].
    pose proof (disconnect_behaviour _ _ _ E) as (_ & H1).
    assert (Hs : activeWallet (st s) = Some walletA
                 /\ effect_cleanup (st s) = None).
    { vm_compute in E. injection E as <-. split; reflexivity. }
    destruct Hs as [Ha Ec]. split; [exact Ha|].
    destruct (H1 walletA Ha) as (_ & _ & _ & _ & _ & _ & _ & Hlost).
    apply Hlost. rewrite Ec. discriminate.
Defined.

(** C4, as stated, fails: Phantom is the active wallet; [connectWallet] is
    called for Solflare; it invokes [disconnect()] of Phantom, which emits
    its 'disconnect' event, so that the handler sets [activeWallet] to
    [null]; the promise is fulfilled, [connect()] of Solflare is invoked, and
    is rejected.  The call ends with [activeWallet] being [null], not
    Phantom as before the call. *)
Lemma failed_connect_after_disconnect :
  exists s0 s1,
    run [Call (OpConnect walletA); Settle 0 Fulfilled 1000; Flush]
        (boot [walletA; walletB]) = Some s0
    /\ pool s0 = []
    /\ activeWallet (st s0) = Some walletA
    /\ run [ Call (OpConnect walletB);
             Emit walletA EvDisconnect "" 1001;
             Settle 0 Fulfilled 1002; Flush;
             Settle 0 (Rejected "User rejected the request.") 1003 ] s0
       = Some s1
    /\ pool s1 = []
    /\ activeWallet (st s1) = None
    /\ activeWallet (st s1) <> activeWallet (st s0)
    /\ logs (st s1)
       = logs (st s0)
         ++ [ mkLog "info" "Phantom disconnected ❌" 1001;
              mkLog "error" "Solflare error: User rejected the request." 1003 ].
Proof.
  eexists. eexists. split; [reflexivity|]. split; [reflexivity|].
  split; [reflexivity|]. split; [reflexivity|]. split; [reflexivity|].
  split; [reflexivity|]. split; [discriminate|reflexivity].
Qed.

(** C4, as it holds.  When [h.connect()], awaited by [connectWallet(h)], is
    rejected, the call appends exactly one entry, of topic error, writes
    nothing else but the console, [activeWallet] in particular, and ends
    fulfilled: the failure is not passed on.  Nor do the earlier steps of the
    call write [activeWallet] or the log.  So, when no wallet is active at the
    call and nothing else is waiting, then, whatever the adapters emit in the
    meantime, the call ends with [activeWallet] still [null], having appended
    that one entry (the only entry since the call, when the effect had run
    before it).  When another wallet [a] is active at the call and nothing
    else is waiting, [a.disconnect()] is invoked and awaited first, and the
    call ends with [activeWallet] being [a] or [null], never [h]; when the
    last run of the effect was for [a], it is [null] if [a] has emitted
    'disconnect' while the call was waiting, and [a], as before the call,
    if it has not. *)
Theorem connect_failure :
  forall (all : list WalletAdapter) (hist : list Label) (s : Sys)
         (h : WalletAdapter),
    run hist (boot all) = Some s ->
    (forall i e now,
        nth_error (pool s) i
        = Some (Await h CapConnect (WalletService.connect_settled h)) ->
        exists s2,
          step (Settle i (Rejected e) now) s = Some s2
          /\ snd (WalletService.connect_settled h (Rejected e) now (st s))
             = Done Fulfilled
          /\ pool s2 = firstn i (pool s) ++ skipn (S i) (pool s)
          /\ activeWallet (st s2) = activeWallet (st s)
          /\ logs (st s2)
             = logs (st s) ++ [mkLog "error" (name h ++ " error: " ++ e) now]
          /\ listeners (st s2) = listeners (st s)
          /\ invoked (st s2) = invoked (st s))
    /\ (activeWallet (st (call (OpConnect h) s)) = activeWallet (st s)
        /\ logs (st (call (OpConnect h) s)) = logs (st s))
    /\ (forall r now w,
          activeWallet (fst (WalletService.swap_settled h r now w)) = activeWallet w
          /\ logs (fst (WalletService.swap_settled h r now w)) = logs w)
    /\ (pool s = [] ->
        activeWallet (st s) = None ->
        forall evs e now,
          forallb background evs = true ->
          exists s1 s2,
            run (Call (OpConnect h) :: evs) s = Some s1
            /\ step (Settle 0 (Rejected e) now) s1 = Some s2
            /\ pool s2 = []
            /\ activeWallet (st s1) = None
            /\ activeWallet (st s2) = None
            /\ logs (st s2)
               = logs (st s1) ++ [mkLog "error" (name h ++ " error: " ++ e) now]
            /\ invoked (st s2) = invoked (st s) ++ [(CapConnect, h)]
            /\ (effect_dirty (st s) = false -> logs (st s1) = logs (st s)))
    /\ (forall a,
          pool s = [] ->
          activeWallet (st s) = Some a ->
          a <> h ->
          forall evs1 evs2 t e now,
            forallb background evs1 = true ->
            forallb background evs2 = true ->
            exists s1 s2,
              run (Call (OpConnect h) :: evs1 ++ Settle 0 Fulfilled t :: evs2) s
              = Some s1
              /\ step (Settle 0 (Rejected e) now) s1 = Some s2
              /\ pool s2 = []
              /\ invoked (st s2)
                 = invoked (st s) ++ [(CapDisconnect, a); (CapConnect, h)]
              /\ activeWallet (st s2) = activeWallet (st s1)
              /\ logs (st s2)
                 = logs (st s1)
                   ++ [mkLog "error" (name h ++ " error: " ++ e) now]
              /\ (activeWallet (st s2) = Some a \/ activeWallet (st s2) = None)
              /\ (effect_cleanup (st s) = Some a ->
                  (existsb (disconnect_event_of a) (evs1 ++ evs2) = true ->
                   activeWallet (st s2) = None)
                  /\ (existsb (disconnect_event_of a) (evs1 ++ evs2) = false ->
                      activeWallet (st s2) = Some a))).
Proof.
  intros all hist s h Hrun. split; [|split; [|split; [|split]]].
  - intros i e now Hi. eexists. split.
    { simpl. rewrite Hi. rewrite connect_settled_rejected. reflexivity. }
    simpl. repeat split.
  - rewrite call_st. split; [apply run_op_active|apply run_op_logs].
  - intros r now w. unfold WalletService.swap_settled.
    destruct r; simpl; auto.
  - intros Hpool Ha evs e now Hevs.
    assert (Hc : call (OpConnect h) s
                 = mkSys (invoke CapConnect h (st s))
                         [Await h CapConnect (WalletService.connect_settled h)]).
    { unfold call, run_op.
      destruct (connectWallet_steps h (st s))
        as [[E _]|[[_ ->]|(a & E & _)]]; try congruence.
      now rewrite Hpool. }
    destruct (background_run evs (call (OpConnect h) s) Hevs)
      as (s1 & Hr & Hp & Hi).
    rewrite Hc in Hp, Hi. simpl in Hp, Hi.
    assert (Ha1 : activeWallet (st s1) = None).
    { destruct (background_run_active evs _ s1 Hevs Hr) as [E|E]; [|exact E].
      rewrite E, Hc. exact Ha. }
    exists s1. eexists.
    split; [simpl; exact Hr|].
    split; [simpl; rewrite Hp; rewrite connect_settled_rejected; reflexivity|].
    simpl. split; [reflexivity|]. split; [exact Ha1|]. split; [exact Ha1|].
    split; [reflexivity|]. split; [exact Hi|].
    intros Hd. pose proof (settled_listeners all hist s Hrun Hd) as Hl.
    rewrite Ha in Hl. simpl in Hl.
    rewrite Hc in Hr.
    rewrite (background_idle evs
               (mkSys (invoke CapConnect h (st s))
                      [Await h CapConnect (WalletService.connect_settled h)])
               Hd Hl Hevs) in Hr.
    injection Hr as <-. reflexivity.
  - intros a Hpool Ha Hne evs1 evs2 t e now Hevs1 Hevs2.
    pose proof (reachable_sound _ _ _ Hrun) as Hs.
    assert (Hc : call (OpConnect h) s
                 = mkSys (invoke CapDisconnect a (st s))
                         [Await a CapDisconnect (WalletService.swap_settled h)]).
    { unfold call, run_op.
      destruct (connectWallet_steps h (st s))
        as [[E _]|[[E _]|(a' & E & _ & ->)]]; try congruence.
      rewrite Hpool. replace a' with a by congruence. reflexivity. }
    assert (Hs0 : sound any_wallet (call (OpConnect h) s)).
    { apply (step_sound any_wallet (Call (OpConnect h)) s); auto.
      intros; exact I. }
    destruct (background_run evs1 (call (OpConnect h) s) Hevs1)
      as (sA & HrA & HpA & HiA).
    destruct (run_sound evs1 _ sA Hs0 HrA) as [HsA _].
    rewrite Hc in HpA, HiA. simpl in HpA, HiA.
    set (sB := mkSys (invoke CapConnect h (st sA))
                     [Await h CapConnect (WalletService.connect_settled h)]).
    assert (HstepB : step (Settle 0 Fulfilled t) sA = Some sB).
    { simpl. rewrite HpA. reflexivity. }
    destruct (step_sound any_wallet _ sA sB HsA (fun _ _ => I) HstepB)
      as [HsB _].
    destruct (background_run evs2 sB Hevs2) as (s1 & Hr1 & Hp1 & Hi1).
    simpl in Hp1, Hi1.
    assert (Hrun1 : run (Call (OpConnect h)
                           :: evs1 ++ Settle 0 Fulfilled t :: evs2) s
                    = Some s1).
    { cbn [run step]. rewrite run_app, HrA. cbn [run]. rewrite HstepB.
      exact Hr1. }
    assert (HaA : activeWallet (st sA) = Some a \/ activeWallet (st sA) = None).
    { destruct (background_run_active evs1 _ sA Hevs1 HrA) as [E|E];
        [left|now right].
      rewrite E, Hc. exact Ha. }
    assert (Ha1 : activeWallet (st s1) = Some a \/ activeWallet (st s1) = None).
    { destruct (background_run_active evs2 sB s1 Hevs2 Hr1) as [E|E];
        [|now right].
      rewrite E. exact HaA. }
    exists s1. eexists.
    split; [exact Hrun1|].
    split; [simpl; rewrite Hp1; rewrite connect_settled_rejected; reflexivity|].
    simpl. split; [reflexivity|].
    split; [rewrite Hi1, HiA, <- app_assoc; reflexivity|].
    split; [reflexivity|]. split; [reflexivity|]. split; [exact Ha1|].
    intros Ec. rewrite existsb_app.
    destruct (background_run_subscribed a evs1 _ sA Hs0 Hevs1 HrA) as [Hy Hn].
    { rewrite Hc. exact Ha. }
    { rewrite Hc. exact Ec. }
    destruct (existsb (disconnect_event_of a) evs1); simpl.
    + split; [|discriminate]. intros _.
      destruct (background_run_active evs2 sB s1 Hevs2 Hr1) as [E|E];
        [|exact E].
      rewrite E. simpl. now apply Hy.
    + destruct (Hn eq_refl) as [HaA' EcA].
      destruct (background_run_subscribed a evs2 sB s1 HsB Hevs2 Hr1 HaA' EcA)
        as [Hy2 Hn2].
      split; [exact Hy2|]. intros E. now apply Hn2.
Qed.

Lemma connect_failure_witness :
  (exists s1 s2,
      run [ Flush; Call (OpConnect walletB);
            Emit walletB EvError "locked" 1001; Flush ]
          (boot [walletA; walletB]) = Some s1
      /\ step (Settle 0 (Rejected "locked") 1002) s1 = Some s2
      /\ pool s2 = []
      /\ activeWallet (st s2) = None
      /\ logs (st s2) = [mkLog "error" "Solflare error: locked" 1002])
  /\ (exists s s1 s2,
        run [Flush; Call (OpConnect walletA); Settle 0 Fulfilled 1000; Flush]
            (boot [walletA; walletB]) = Some s
        /\ run [ Call (OpConnect walletB); Settle 0 Fulfilled 1001;
                 Emit walletA EvError "busy" 1002 ] s = Some s1
        /\ step (Settle 0 (Rejected "locked") 1003) s1 = Some s2
        /\ activeWallet (st s) = Some walletA
        /\ activeWallet (st s2) = Some walletA
        /\ invoked (st s2)
           = invoked (st s) ++ [(CapDisconnect, walletA); (CapConnect, walletB)]).
Proof.
  split.
  - pose proof (connect_failure [walletA; walletB] [Flush]
                  (mkSys (WalletService.flush (st (boot [walletA; walletB]))) [])
                  walletB eq_refl) as (_ & _ & _ & H & _).
    destruct (H eq_refl eq_refl
                [Emit walletB EvError "locked" 1001%Z; Flush] "locked" 1002%Z
                eq_refl)
      as (s1 & s2 & H1 & H2 & H3 & _ & H4 & H5 & _ & H6).
    exists s1, s2. split; [exact H1|]. split; [exact H2|]. split; [exact H3|].
    split; [exact H4|]. rewrite H5, (H6 eq_refl). reflexivity.
  - destruct (run _ (boot [walletA; walletB])) as [s|] eqn:E;
      [|vm_compute in E; discriminate].
    pose proof (connect_failure _ _ _ walletB E) as (_ & _ & _ & _ & H).
    assert (Hs : pool s = [] /\ activeWallet (st s) = Some walletA
                 /\ effect_cleanup (st s) = Some walletA).
    { vm_compute in E. injection E as <-. repeat split. }
    destruct Hs as (Hp & Ha & Ec).
    destruct (H walletA Hp Ha) with (evs1 := @nil Label)
                                    (evs2 := [Emit walletA EvError "busy" 1002%Z])
                                    (t := 1001%Z) (e := "locked") (now := 1003%Z)
      as (s1 & s2 & H1 & H2 & _ & H3 & _ & _ & _ & H4);
      [discriminate|reflexivity|reflexivity|].
    exists s, s1, s2. split; [reflexivity|]. split; [exact H1|].
    split; [exact H2|]. split; [exact Ha|]. split; [|exact H3].
    apply (H4 Ec). reflexivity.
Defined.

(* ================================================================= *)
(** * Part III : further properties of the code *)
(* ================================================================= *)

(** ** The catalog and the lookup of the navbar *)

Lemma sort_of_sorted (l : list WalletAdapter) :
  StronglySorted by_priority l -> sort compare_wallets l = l.
Proof.
  induction 1 as [|x l Hs IH Hall]; [reflexivity|].
  simpl. rewrite IH. apply sort_insert_stop. exact Hall.
Qed.

(** X1.  Sorting leaves a catalog that is in order of priority as it is; so
    sorting twice is sorting once. *)
Theorem sort_keeps_sorted :
  forall l : list WalletAdapter,
    (StronglySorted by_priority l -> sort compare_wallets l = l)
    /\ sort compare_wallets (sort compare_wallets l) = sort compare_wallets l
    /\ wallets (WalletService.constructor_ (wallets (WalletService.constructor_ l)))
       = wallets (WalletService.constructor_ l).
Proof.
  intros l. split; [apply sort_of_sorted|].
  split; apply sort_of_sorted, sort_sorted.
Qed.

Lemma sort_keeps_sorted_witness :
  sort compare_wallets [walletA; walletB; walletC; walletD]
  = [walletA; walletB; walletC; walletD].
Proof.
  apply (proj1 (sort_keeps_sorted [walletA; walletB; walletC; walletD])).
  repeat constructor; unfold by_priority, wallet_priority; simpl; lia.
Defined.

Lemma find_first_sorted {A : Type} (R : A -> A -> Prop) (f : A -> bool)
  (l : list A) (x : A) :
  StronglySorted R l ->
  find f l = Some x ->
  forall y, In y l -> f y = true -> y = x \/ R x y.
Proof.
  induction 1 as [|a l Hs IH Hall]; intros Hf y Hy Hfy; [contradiction|].
  simpl in Hf. destruct (f a) eqn:E.
  - injection Hf as <-. destruct Hy as [->|Hy]; [now left|].
    right. rewrite Forall_forall in Hall. now apply Hall.
  - destruct Hy as [->|Hy]; [congruence|]. now apply IH.
Qed.

(** X2.  The lookup [wallets().find(w => w.name === name)] over the sorted
    catalog: it finds nothing exactly when no declared wallet has the name;
    and what it finds is a declared wallet of that name, of best priority
    among the declared wallets of that name. *)
Theorem lookup_picks_best_priority :
  forall (all : list WalletAdapter) (name_ : string),
    let found := find (fun w => String.eqb (name w) name_)
                      (wallets (WalletService.constructor_ all)) in
    (found = None <-> forall w, In w all -> name w <> name_)
    /\ (forall wallet,
          found = Some wallet ->
          In wallet all /\ name wallet = name_
          /\ forall other,
               In other all -> name other = name_ -> by_priority wallet other).
Proof.
  intros all name_ found. subst found.
  unfold WalletService.constructor_. cbn [wallets].
  pose proof (sort_perm all) as Hp. split.
  - split.
    + intros H w Hw E.
      pose proof (find_none _ _ H w (Permutation_in _ Hp Hw)) as Hn.
      simpl in Hn. apply String.eqb_neq in Hn. contradiction.
    + intros H. destruct (find _ _) as [w|] eqn:E; [|reflexivity].
      apply find_some in E as [Hin Hn]. apply String.eqb_eq in Hn.
      exfalso. apply (H w); [|exact Hn].
      now apply (Permutation_in _ (Permutation_sym Hp)).
  - intros wallet H. pose proof (find_some _ _ H) as [Hin Hn].
    apply String.eqb_eq in Hn.
    split; [now apply (Permutation_in _ (Permutation_sym Hp))|].
    split; [exact Hn|]. intros other Ho Eo.
    destruct (find_first_sorted by_priority _ _ _ (sort_sorted all) H other)
      as [->|Hr]; auto.
    + now apply (Permutation_in _ Hp).
    + now apply String.eqb_eq.
    + unfold by_priority. lia.
Qed.

Lemma lookup_picks_best_priority_witness :
  let twin := mkWallet 5 "Ledger" "https://shop.ledger.com" Installed in
  find (fun w => String.eqb (name w) "Ledger")
       (wallets (WalletService.constructor_ [walletD; walletC; twin]))
  = Some twin
  /\ by_priority twin walletC.
Proof.
  intros twin. split; [reflexivity|].
  pose proof (lookup_picks_best_priority [walletD; walletC; twin] "Ledger")
    as (_ & H).
  apply (H twin eq_refl); [simpl; auto|reflexivity].
Defined.

(** ** The listeners of the service, in every state *)

(** X3.  Whatever the history (calls that overlap, events at any moment, runs of
    the effect late or early), the service never holds more than the two
    listeners of one run of the effect: they never pile up, none is there
    twice, and an event of a wallet reaches at most one handler. *)
Theorem listeners_never_pile_up :
  forall (all : list WalletAdapter) (hist : list Label) (s : Sys),
    run hist (boot all) = Some s ->
    listeners (st s) = subscribed (effect_cleanup (st s))
    /\ (length (listeners (st s)) <= 2)%nat
    /\ NoDup (listeners (st s))
    /\ (forall x ev,
          (length (handlers_for x ev (listeners (st s))) <= 1)%nat).
Proof.
  intros all hist s Hrun.
  apply reachable_sound in Hrun as ([Hl _] & _).
  split; [exact Hl|]. rewrite Hl.
  destruct (effect_cleanup (st s)) as [c|]; simpl.
  - split; [lia|]. split.
    + constructor; [|constructor; [intros []|constructor]].
      intros [H|[]]. discriminate.
    + intros x ev. unfold handlers_for. simpl.
      destruct (WalletAdapter_eqb c x), ev; simpl; lia.
  - split; [lia|]. split; [constructor|]. intros x ev. simpl. lia.
Qed.

Lemma listeners_never_pile_up_witness :
  exists s,
    run [ Call (OpConnect walletA); Call (OpConnect walletA);
          Settle 0 Fulfilled 1000; Flush; Emit walletA EvDisconnect "" 1001;
          Settle 0 Fulfilled 1002; Flush; Call (OpConnect walletB);
          Settle 0 Fulfilled 1003; Settle 0 Fulfilled 1004; Flush ]
        (boot [walletA; walletB]) = Some s
    /\ (length (listeners (st s)) <= 2)%nat.
Proof.
  destruct (run _ (boot [walletA; walletB])) as [s|] eqn:E;
    [|vm_compute in E; discriminate].
  exists s. split; [reflexivity|].
  apply (listeners_never_pile_up _ _ _ E).
Defined.

(** X4.  In every state the application reaches, an event of an adapter does one
    of three things: nothing at all, when the last run of the effect was not
    for that adapter; for 'disconnect', it appends one info entry and sets
    [activeWallet] to [null]; for 'error', it appends one error entry and
    leaves [activeWallet] alone.  So an event never makes a wallet active,
    an 'error' never changes the active wallet, and no event writes more
    than one entry. *)
Theorem event_effect :
  forall (all : list WalletAdapter) (hist : list Label) (s : Sys)
         (x : WalletAdapter) (ev : EventName) (arg : string) (now : Z),
    run hist (boot all) = Some s ->
    (effect_cleanup (st s) <> Some x -> emit x ev arg now (st s) = st s)
    /\ (effect_cleanup (st s) = Some x ->
        emit x EvDisconnect arg now (st s)
        = activeWallet_set None
            (printLog "info" (name x ++ " disconnected ❌") now (st s))
        /\ emit x EvError arg now (st s)
           = printLog "error" (name x ++ " error: " ++ arg) now (st s))
    /\ (activeWallet (emit x ev arg now (st s)) = activeWallet (st s)
        \/ activeWallet (emit x ev arg now (st s)) = None)
    /\ activeWallet (emit x EvError arg now (st s)) = activeWallet (st s)
    /\ (length (logs (emit x ev arg now (st s))) <= S (length (logs (st s))))%nat.
Proof.
  intros all hist s x ev arg now Hrun.
  apply reachable_sound in Hrun as ([Hl _] & _).
  pose proof (fun e => emit_by_cleanup x e arg now (st s) Hl) as H.
  split; [apply (H ev)|].
  split; [intros Hc; split;
          [apply (proj2 (H EvDisconnect) Hc)|apply (proj2 (H EvError) Hc)]|].
  split; [apply emit_active|]. split.
  - destruct (option_eq_dec_wallet (effect_cleanup (st s)) (Some x)) as [Hc|Hc].
    + now rewrite (proj2 (H EvError) Hc).
    + now rewrite (proj1 (H EvError) Hc).
  - destruct (option_eq_dec_wallet (effect_cleanup (st s)) (Some x)) as [Hc|Hc].
    + rewrite (proj2 (H ev) Hc). destruct ev; simpl.
      * unfold activeWallet_set. simpl.
        destruct (same_wallet (activeWallet (st s)) None); simpl;
          unfold LoggerService.printLog; rewrite length_app; simpl; lia.
      * unfold LoggerService.printLog. rewrite length_app. simpl. lia.
    + rewrite (proj1 (H ev) Hc). lia.
Qed.

Lemma event_effect_witness :
  exists s,
    run [ Call (OpConnect walletA); Settle 0 Fulfilled 1000; Flush;
          Emit walletA EvDisconnect "" 1001 ]
        (boot [walletA; walletB]) = Some s
    /\ emit walletB EvError "locked" 1002 (st s) = st s
    /\ activeWallet (emit walletA EvError "locked" 1002 (st s))
       = activeWallet (st s).
Proof.
  destruct (run _ (boot [walletA; walletB])) as [s|] eqn:E;
    [|vm_compute in E; discriminate].
  exists s. split; [reflexivity|].
  pose proof (fun x => event_effect _ _ _ x EvError "locked" 1002%Z E) as H.
  split.
  - destruct (H walletB) as (Hn & _). apply Hn.
    vm_compute in E. injection E as <-. discriminate.
  - apply (H walletA).
Defined.

(** ** Who writes [activeWallet], and on whom [disconnect()] is invoked *)

(** X5.  In every history, [activeWallet] changes at two kinds of steps only: the
    fulfilment of [h.connect()] awaited by a call of [connectWallet(h)],
    which makes [h] the active wallet; and a 'disconnect' event of the wallet
    the effect last subscribed to, which makes it [null].  No call, no
    rejection, no 'error' event and no run of the effect changes it. *)
Theorem activeWallet_writers :
  forall (all : list WalletAdapter) (hist : list Label) (s : Sys)
         (l : Label) (s' : Sys),
    run hist (boot all) = Some s ->
    step l s = Some s' ->
    activeWallet (st s') <> activeWallet (st s) ->
    (exists i now h,
        l = Settle i Fulfilled now
        /\ nth_error (pool s) i
           = Some (Await h CapConnect (WalletService.connect_settled h))
        /\ activeWallet (st s') = Some h)
    \/ (exists x arg now,
          l = Emit x EvDisconnect arg now
          /\ effect_cleanup (st s) = Some x
          /\ activeWallet (st s') = None).
Proof.
  intros all hist s l s' Hrun Hstep Hne.
  pose proof (reachable_sound _ _ _ Hrun) as Hs.
  destruct (activeWallet (st s')) as [h|] eqn:Ea.
  - left.
    destruct (becomes_active l s s' h Hs Hstep Ea) as (i & now & -> & Hi);
      [congruence|].
    exists i, now, h. auto.
  - right. destruct Hs as ([Hl _] & Hpool & _).
    destruct l as [op|i r now|x ev arg now|].
    + exfalso. simpl in Hstep. injection Hstep as <-.
      rewrite call_st, run_op_active in Ea. congruence.
    + exfalso.
      destruct (settle_waiting _ _ _ _ _ _ Hpool Hstep)
        as (wallet & cap & k & _ & Hw & Est).
      rewrite Est in Ea.
      inversion Hw as [a|a wallet' _|wallet' _]; subst.
      * simpl in Ea. congruence.
      * unfold WalletService.swap_settled in Ea.
        destruct r; simpl in Ea; congruence.
      * destruct r as [|e].
        -- destruct (connect_settled_fulfilled wallet now (st s)) as (_ & Ha' & _).
           congruence.
        -- rewrite connect_settled_rejected in Ea. simpl in Ea. congruence.
    + simpl in Hstep. injection Hstep as <-. simpl in Ea.
      destruct (emit_by_cleanup x ev arg now (st s) Hl) as [Hn Hy].
      destruct (option_eq_dec_wallet (effect_cleanup (st s)) (Some x)) as [Hc|Hc].
      * destruct ev.
        -- exists x, arg, now. auto.
        -- exfalso. rewrite (Hy Hc) in Ea. simpl in Ea. congruence.
      * exfalso. rewrite (Hn Hc) in Ea. congruence.
    + exfalso. simpl in Hstep. injection Hstep as <-. simpl in Ea.
      rewrite flush_active in Ea. congruence.
Qed.

Lemma activeWallet_writers_witness :
  exists s s',
    run [Call (OpConnect walletA); Settle 0 Fulfilled 1000; Flush]
        (boot [walletA]) = Some s
    /\ step (Emit walletA EvDisconnect "" 1001) s = Some s'
    /\ effect_cleanup (st s) = Some walletA
    /\ activeWallet (st s') = None.
Proof.
  destruct (run _ (boot [walletA])) as [s|] eqn:E;
    [|vm_compute in E; discriminate].
  exists s. eexists. split; [reflexivity|]. split; [reflexivity|].
  destruct (activeWallet_writers _ _ _ (Emit walletA EvDisconnect "" 1001) _
              E eq_refl)
    as [(i & now & h & H & _)|(x & arg & now & H & Hc & Ha)].
  - vm_compute in E. injection E as <-. discriminate.
  - discriminate H.
  - injection H as <- _ _. auto.
Defined.

(** X6.  A step invokes at most one capability, and [disconnect()] is invoked on
    the wallet that is active at that very step, and on no other: by a call
    of [disconnect], or by a call of [connectWallet] for another wallet. *)
Theorem disconnect_only_on_active :
  forall (all : list WalletAdapter) (hist : list Label) (s : Sys)
         (l : Label) (s' : Sys),
    run hist (boot all) = Some s ->
    step l s = Some s' ->
    exists more,
      invoked (st s') = invoked (st s) ++ more
      /\ (length more <= 1)%nat
      /\ (forall x,
            In (CapDisconnect, x) more ->
            activeWallet (st s) = Some x
            /\ (l = Call OpDisconnect
                \/ exists h, l = Call (OpConnect h) /\ h <> x)).
Proof.
  intros all hist s l s' Hrun Hstep.
  pose proof (reachable_sound _ _ _ Hrun) as (_ & Hpool & _).
  assert (Hnone : forall w : World,
             exists more : list (Capability * WalletAdapter),
               invoked w = invoked w ++ more /\ (length more <= 1)%nat
               /\ forall x, In (CapDisconnect, x) more ->
                   activeWallet (st s) = Some x
                   /\ (l = Call OpDisconnect
                       \/ exists h, l = Call (OpConnect h) /\ h <> x)).
  { intros w. exists []. rewrite app_nil_r. simpl. split; [reflexivity|].
    split; [lia|]. intros x []. }
  destruct l as [op|i r now|x ev arg now|].
  - simpl in Hstep. injection Hstep as <-. rewrite call_st.
    destruct op as [h|]; simpl.
    + destruct (connectWallet_steps h (st s))
        as [[_ E]|[[_ E]|(a & Ha & Hne & E)]]; rewrite E; simpl.
      * apply Hnone.
      * exists [(CapConnect, h)]. split; [reflexivity|]. split; [simpl; lia|].
        intros x [H|[]]. discriminate.
      * exists [(CapDisconnect, a)]. split; [reflexivity|].
        split; [simpl; lia|]. intros x [H|[]]. injection H as <-.
        split; [exact Ha|]. right. exists h. split; [reflexivity|congruence].
    + unfold WalletService.disconnect.
      destruct (activeWallet (st s)) as [a|] eqn:Ea; simpl.
      * exists [(CapDisconnect, a)]. split; [reflexivity|].
        split; [simpl; lia|]. intros x [H|[]]. injection H as <-. auto.
      * apply Hnone.
  - destruct (settle_waiting _ _ _ _ _ _ Hpool Hstep)
      as (wallet & cap & k & _ & Hw & Est).
    rewrite Est.
    inversion Hw as [a|a wallet' _|wallet' _]; subst.
    + simpl. apply Hnone.
    + unfold WalletService.swap_settled. destruct r; simpl; [|apply Hnone].
      exists [(CapConnect, wallet')]. split; [reflexivity|].
      split; [simpl; lia|]. intros x [H|[]]. discriminate.
    + destruct r as [|e].
      * destruct (connect_settled_fulfilled wallet now (st s)) as (_ & _ & _ & -> & _).
        apply Hnone.
      * rewrite connect_settled_rejected. simpl. apply Hnone.
  - simpl in Hstep. injection Hstep as <-. simpl.
    destruct (extends_emit any_wallet x ev arg now (st s)) as (_ & _ & _ & _).
    assert (E : invoked (emit x ev arg now (st s)) = invoked (st s)).
    { unfold emit. generalize (handlers_for x ev (listeners (st s))) as hs.
      intros hs. generalize (st s) as w. induction hs as [|h hs IH]; intros w.
      - reflexivity.
      - simpl. rewrite IH. destruct h; simpl; [|reflexivity].
        unfold activeWallet_set. simpl.
        now destruct (same_wallet (activeWallet w) None). }
    rewrite E. apply Hnone.
  - simpl in Hstep. injection Hstep as <-. simpl.
    destruct (flush_frame (st s)) as (_ & _ & _ & -> & _). apply Hnone.
Qed.

Lemma disconnect_only_on_active_witness :
  exists s,
    run [Call (OpConnect walletA); Settle 0 Fulfilled 1000; Flush]
        (boot [walletA; walletB]) = Some s
    /\ invoked (st (call (OpConnect walletB) s))
       = invoked (st s) ++ [(CapDisconnect, walletA)]
    /\ activeWallet (st s) = Some walletA.
Proof.
  destruct (run _ (boot [walletA; walletB])) as [s|] eqn:E;
    [|vm_compute in E; discriminate].
  exists s. split; [reflexivity|].
  destruct (disconnect_only_on_active _ _ _ (Call (OpConnect walletB)) _
              E eq_refl) as (more & Hm & _ & Hd).
  assert (Hx : invoked (st (call (OpConnect walletB) s))
               = invoked (st s) ++ [(CapDisconnect, walletA)]).
  { vm_compute in E. injection E as <-. reflexivity. }
  split; [exact Hx|].
  apply (Hd walletA). rewrite Hx in Hm. apply app_inv_head in Hm. subst more.
  now left.
Defined.

(** ** What the service writes to the log *)

(** X7.  Every entry the wallet service writes is of one of three kinds: topic
    info and message "<name> connected ✅", topic info and message
    "<name> disconnected ❌", topic error and message
    "<name> error: <reason>", for the name of some wallet; a step of the
    service appends entries of these kinds only, whatever the log holds.
    [HomeComponent] writes to the same log, one entry of topic success each
    time the leagues arrive.  So, in any history of the page, every entry of
    the log is of one of these four kinds, and every entry whose topic is not
    success is one of the wallet service. *)
Theorem log_entries_of_the_service :
  forall (all : list WalletAdapter) (hist : list PageLabel) (p : Page),
    page_run hist (page_boot all) = Some p ->
    Forall (fun e => service_entry e \/ home_entry e) (logs (st (services p)))
    /\ (forall e,
          In e (logs (st (services p))) ->
          topic e = "info" \/ topic e = "error" \/ topic e = "success")
    /\ (forall e,
          In e (logs (st (services p))) ->
          topic e <> "success" -> service_entry e)
    /\ (forall l p',
          page_step (Service l) p = Some p' ->
          exists more,
            logs (st (services p')) = logs (st (services p)) ++ more
            /\ Forall service_entry more)
    /\ (forall data now p',
          page_step (LeaguesFetched data now) p = Some p' ->
          logs (st (services p'))
          = logs (st (services p))
            ++ [mkLog "success" "Leagues fetched successfully ✅" now]
          /\ home_leagues p' = ApiService.leagues data
          /\ activeWallet (st (services p')) = activeWallet (st (services p))
          /\ listeners (st (services p')) = listeners (st (services p))
          /\ pool (services p') = pool (services p)).
Proof.
  intros all hist p Hrun.
  assert (G : forall ls p0 p1,
             sound any_wallet (services p0) ->
             Forall (fun e => service_entry e \/ home_entry e)
                    (logs (st (services p0))) ->
             page_run ls p0 = Some p1 ->
             Forall (fun e => service_entry e \/ home_entry e)
                    (logs (st (services p1)))).
  { induction ls as [|l ls IH]; intros p0 p1 Hs H0 Hr; simpl in Hr.
    - injection Hr as <-. exact H0.
    - destruct (page_step l p0) as [p2|] eqn:E; [|discriminate].
      apply (IH p2 p1 (page_step_sound l p0 p2 Hs E)); [|exact Hr].
      destruct l as [l|data now]; simpl in E.
      + destruct (step l (services p0)) as [s2|] eqn:E2; [|discriminate].
        injection E as <-. simpl.
        destruct (appends_step l _ s2 (proj1 (proj2 Hs)) E2) as [more [-> Hm]].
        apply Forall_app. split; [exact H0|].
        eapply Forall_impl; [|exact Hm]. intros e He. now left.
      + injection E as <-. simpl. apply Forall_app. split; [exact H0|].
        constructor; [|constructor]. right. split; reflexivity. }
  assert (H : Forall (fun e => service_entry e \/ home_entry e)
                     (logs (st (services p)))).
  { apply (G hist (page_boot all) p);
      [apply page_boot_sound|constructor|exact Hrun]. }
  pose proof (page_run_sound hist _ p (page_boot_sound all) Hrun) as [Hs _].
  split; [exact H|]. rewrite Forall_forall in H. split; [|split; [|split]].
  - intros e He.
    destruct (H e He) as [[wallet [[Ht _]|[[Ht _]|[Ht _]]]]|[Ht _]]; auto.
  - intros e He Hne. destruct (H e He) as [Hse|[Ht _]]; [exact Hse|].
    contradiction.
  - intros l p' Hstep. simpl in Hstep.
    destruct (step l (services p)) as [s'|] eqn:E; [|discriminate].
    injection Hstep as <-. simpl.
    apply (appends_step l (services p) s' (proj1 (proj2 Hs)) E).
  - intros data now p' Hstep. simpl in Hstep. injection Hstep as <-.
    simpl. repeat split.
Qed.

Lemma log_entries_of_the_service_witness :
  exists p,
    page_run [ Service (Call (OpConnect walletA));
               LeaguesFetched (ApiService.mkLeaguesResponse []) 999;
               Service (Settle 0 Fulfilled 1000); Service Flush;
               Service (Emit walletA EvError "locked" 1001);
               Service (Call (OpConnect walletB));
               Service (Emit walletA EvDisconnect "" 1002);
               Service (Settle 0 Fulfilled 1003);
               Service (Settle 0 (Rejected "denied") 1004) ]
             (page_boot [walletA; walletB]) = Some p
    /\ length (logs (st (services p))) = 5%nat
    /\ nth_error (logs (st (services p))) 0
       = Some (mkLog "success" "Leagues fetched successfully ✅" 999)
    /\ Forall (fun e => service_entry e \/ home_entry e)
              (logs (st (services p))).
Proof.
  destruct (page_run _ (page_boot [walletA; walletB])) as [p|] eqn:E;
    [|vm_compute in E; discriminate].
  exists p. split; [reflexivity|]. split; [|split].
  - vm_compute in E. injection E as <-. reflexivity.
  - vm_compute in E. injection E as <-. reflexivity.
  - apply (log_entries_of_the_service _ _ _ E).
Defined.

(** ** A session from its beginning to its end *)

Lemma World_ext (w w' : World) :
  logs w = logs w' -> wallets w = wallets w' ->
  activeWallet w = activeWallet w' -> effect_dirty w = effect_dirty w' ->
  effect_cleanup w = effect_cleanup w' -> listeners w = listeners w' ->
  invoked w = invoked w' -> console w = console w' ->
  w = w'.
Proof. destruct w, w'; simpl; intros; subst; reflexivity. Qed.

(** X8.  From a state with no active wallet, no call waiting and no run of the
    effect pending: [connectWallet(h)] whose [connect()] is fulfilled, the
    run of the effect, a 'disconnect' event of [h], the run of the effect.
    The session is back where it was: no active wallet, no listener, no
    cleanup registered, nothing waiting; the log has the two entries of the
    session and [connect()] of [h] is the one capability invoked. *)
Theorem session_round_trip :
  forall (all : list WalletAdapter) (hist : list Label) (s : Sys)
         (h : WalletAdapter) (t1 t2 : Z) (arg : string),
    run hist (boot all) = Some s ->
    pool s = [] ->
    effect_dirty (st s) = false ->
    activeWallet (st s) = None ->
    exists s',
      run [ Call (OpConnect h); Settle 0 Fulfilled t1; Flush;
            Emit h EvDisconnect arg t2; Flush ] s = Some s'
      /\ pool s' = []
      /\ activeWallet (st s') = None
      /\ effect_dirty (st s') = false
      /\ effect_cleanup (st s') = None
      /\ listeners (st s') = []
      /\ wallets (st s') = wallets (st s)
      /\ logs (st s')
         = logs (st s) ++ [ mkLog "info" (name h ++ " connected ✅") t1;
                            mkLog "info" (name h ++ " disconnected ❌") t2 ]
      /\ invoked (st s') = invoked (st s) ++ [(CapConnect, h)].
Proof.
  intros all hist s h t1 t2 arg Hrun Hpool Hd Ha.
  pose proof (settled_listeners _ _ _ Hrun Hd) as Hl.
  apply reachable_sound in Hrun as ([_ Hc] & _). specialize (Hc Hd).
  rewrite Ha in Hl, Hc. simpl in Hl.
  destruct s as [[lg ws act dirty cl ls inv con] p]. simpl in *. subst.
  exists (mkSys
            (mkWorld
               (lg ++ [ mkLog "info" (name h ++ " connected ✅") t1;
                        mkLog "info" (name h ++ " disconnected ❌") t2 ])
               ws None false None [] (inv ++ [(CapConnect, h)])
               (con ++ [(ConsoleLog, (name h ++ " connected ✅")%string)]))
            []).
  split; [|simpl; repeat split].
  unfold call, run_op, WalletService.connectWallet. simpl.
  unfold WalletService.flush, WalletService.run_effect, WalletService.cleanup,
    WalletService.effect_body, emit, handlers_for, off, Listener_eqb.
  simpl. repeat (rewrite ?WalletAdapter_eqb_refl; simpl).
  f_equal. f_equal. apply World_ext; simpl; try reflexivity.
  unfold LoggerService.printLog. rewrite <- app_assoc. reflexivity.
Qed.

Lemma session_round_trip_witness :
  exists s',
    run [ Flush; Call (OpConnect walletA); Settle 0 Fulfilled 1000; Flush;
          Emit walletA EvDisconnect "" 1007; Flush ]
        (boot [walletA; walletB]) = Some s'
    /\ listeners (st s') = []
    /\ activeWallet (st s') = None
    /\ logs (st s')
       = [ mkLog "info" "Phantom connected ✅" 1000;
           mkLog "info" "Phantom disconnected ❌" 1007 ].
Proof.
  destruct (session_round_trip [walletA; walletB] [Flush]
              (mkSys (WalletService.flush (st (boot [walletA; walletB]))) [])
              walletA 1000 1007 "" eq_refl eq_refl eq_refl eq_refl)
    as (s' & Hr & _ & Ha & _ & _ & Hl & _ & Hlog & _).
  exists s'. split; [exact Hr|]. split; [exact Hl|]. split; [exact Ha|].
  exact Hlog.
Defined.

(** ** The disconnect that fails, the connect fulfilled twice *)

(** X9.  When [connectWallet(h)] is called while another wallet [a] is active and
    [a.disconnect()] is rejected, the call ends there, rejected with the same
    reason: [h.connect()] is never invoked, the state is left as the
    rejection found it, and nothing is written to the log about the failure
    (the [catch] of [connectWallet] covers [connect()] only). *)
Theorem rejected_disconnect_ends_connect :
  forall (all : list WalletAdapter) (hist : list Label) (s : Sys)
         (h a : WalletAdapter) (e : string) (now : Z) (evs : list Label),
    run hist (boot all) = Some s ->
    pool s = [] ->
    activeWallet (st s) = Some a ->
    a <> h ->
    forallb background evs = true ->
    exists s1 s',
      run (Call (OpConnect h) :: evs) s = Some s1
      /\ pool s1 = [Await a CapDisconnect (WalletService.swap_settled h)]
      /\ step (Settle 0 (Rejected e) now) s1 = Some s'
      /\ snd (WalletService.swap_settled h (Rejected e) now (st s1))
         = Done (Rejected e)
      /\ st s' = st s1
      /\ pool s' = []
      /\ invoked (st s') = invoked (st s) ++ [(CapDisconnect, a)].
Proof.
  intros all hist s h a e now evs _ Hpool Ha Hne Hevs.
  assert (Hc : call (OpConnect h) s
               = mkSys (invoke CapDisconnect a (st s))
                       [Await a CapDisconnect (WalletService.swap_settled h)]).
  { unfold call, run_op.
    destruct (connectWallet_steps h (st s))
      as [[E _]|[[E _]|(a' & E & _ & ->)]]; try congruence.
    rewrite Hpool. replace a' with a by congruence. reflexivity. }
  destruct (background_run evs (call (OpConnect h) s) Hevs)
    as (s1 & Hr & Hp & Hi).
  rewrite Hc in Hp, Hi. simpl in Hp, Hi.
  exists s1, (mkSys (st s1) []).
  split; [simpl; exact Hr|]. split; [exact Hp|].
  split; [simpl; rewrite Hp; reflexivity|].
  split; [reflexivity|]. split; [reflexivity|]. split; [reflexivity|].
  exact Hi.
Qed.

Lemma rejected_disconnect_ends_connect_witness :
  exists s s1 s',
    run [Call (OpConnect walletA); Settle 0 Fulfilled 1000; Flush]
        (boot [walletA; walletB]) = Some s
    /\ run [Call (OpConnect walletB); Emit walletA EvError "busy" 1001] s
       = Some s1
    /\ step (Settle 0 (Rejected "busy") 1002) s1 = Some s'
    /\ pool s' = []
    /\ invoked (st s')
       = invoked (st s) ++ [(CapDisconnect, walletA)].
Proof.
  destruct (run _ (boot [walletA; walletB])) as [s|] eqn:E;
    [|vm_compute in E; discriminate].
  assert (Hs : pool s = [] /\ activeWallet (st s) = Some walletA).
  { vm_compute in E. injection E as <-. split; reflexivity. }
  destruct Hs as [Hp Ha].
  destruct (rejected_disconnect_ends_connect _ _ _ walletB walletA "busy"
              1002%Z [Emit walletA EvError "busy" 1001%Z] E Hp Ha)
    as (s1 & s' & H1 & _ & H2 & _ & _ & H3 & H4);
    [discriminate|reflexivity|].
  exists s, s1, s'. auto.
Defined.

(** X10.  When [h.connect()] is fulfilled for a call of [connectWallet(h)] while
    [h] is the active wallet already (the same wallet was picked twice
    before it answered), the call appends its "connected" entry all the
    same, but the signal keeps its value: [activeWallet] does not change, no
    run of the effect is scheduled, and the listeners are left alone. *)
Theorem fulfilled_again_logs_again :
  forall (s : Sys) (h : WalletAdapter) (i : nat) (now : Z),
    activeWallet (st s) = Some h ->
    nth_error (pool s) i
    = Some (Await h CapConnect (WalletService.connect_settled h)) ->
    exists s',
      step (Settle i Fulfilled now) s = Some s'
      /\ pool s' = firstn i (pool s) ++ skipn (S i) (pool s)
      /\ logs (st s')
         = logs (st s) ++ [mkLog "info" (name h ++ " connected ✅") now]
      /\ activeWallet (st s') = Some h
      /\ effect_dirty (st s') = effect_dirty (st s)
      /\ effect_cleanup (st s') = effect_cleanup (st s)
      /\ listeners (st s') = listeners (st s)
      /\ invoked (st s') = invoked (st s).
Proof.
  intros s h i now Ha Hi. eexists. split.
  { simpl. rewrite Hi. simpl. reflexivity. }
  simpl. unfold activeWallet_set. rewrite Ha. simpl.
  rewrite WalletAdapter_eqb_refl. simpl. rewrite Ha. repeat split.
Qed.

Lemma fulfilled_again_logs_again_witness :
  exists u s',
    ui_run [ ClickWallets; ClickWallet "Phantom";
             ClickWallets; ClickWallet "Phantom";
             Background (Settle 0 Fulfilled 1000); Background Flush ]
           (ui_boot [walletA; walletB]) = Some u
    /\ step (Settle 0 Fulfilled 1001) (sys u) = Some s'
    /\ logs (st s')
       = [ mkLog "info" "Phantom connected ✅" 1000;
           mkLog "info" "Phantom connected ✅" 1001 ]
    /\ effect_dirty (st s') = false.
Proof.
  destruct (ui_run _ (ui_boot [walletA; walletB])) as [u|] eqn:E;
    [|vm_compute in E; discriminate].
  assert (Hu : activeWallet (st (sys u)) = Some walletA
               /\ nth_error (pool (sys u)) 0
                  = Some (Await walletA CapConnect
                            (WalletService.connect_settled walletA))
               /\ logs (st (sys u)) = [mkLog "info" "Phantom connected ✅" 1000]
               /\ effect_dirty (st (sys u)) = false).
  { vm_compute in E. injection E as <-. repeat split. }
  destruct Hu as (Ha & Hi & Hl & Hd).
  destruct (fulfilled_again_logs_again (sys u) walletA 0 1001 Ha Hi)
    as (s' & H1 & _ & H2 & _ & H3 & _).
  exists u, s'. split; [reflexivity|]. split; [exact H1|].
  split; [rewrite H2, Hl; reflexivity|]. congruence.
Defined.

(** ** The page: the catalog, the active wallet, the tabs *)

Lemma waiting_weaken (P Q : WalletAdapter -> Prop) (t : Task) :
  (forall w, P w -> Q w) -> waiting P t -> waiting Q t.
Proof. intros H [a|a w Hw|w Hw]; constructor; auto. Qed.

Lemma sound_weaken (P Q : WalletAdapter -> Prop) (s : Sys) :
  (forall w, P w -> Q w) -> sound P s -> sound Q s.
Proof.
  intros H (He & Hp & Hi). split; [exact He|]. split.
  - eapply Forall_impl; [|exact Hp]. intros t. now apply waiting_weaken.
  - eapply Forall_impl; [|exact Hi]. unfold allowed. auto.
Qed.

(** A wallet that becomes active is one a waiting call was for. *)
Lemma becomes_active_allowed (P : WalletAdapter -> Prop) (l : Label)
  (s s' : Sys) (h : WalletAdapter) :
  sound P s ->
  step l s = Some s' ->
  activeWallet (st s') = Some h ->
  activeWallet (st s) = Some h \/ P h.
Proof.
  intros Hs Hstep Ha.
  destruct (option_eq_dec_wallet (activeWallet (st s)) (Some h)) as [E|E];
    [now left|right].
  destruct (becomes_active l s s' h (sound_weaken P any_wallet s (fun _ _ => I) Hs)
              Hstep Ha E) as (i & now & _ & Hi).
  destruct Hs as (_ & Hpool & _). rewrite Forall_forall in Hpool.
  pose proof (Hpool _ (nth_error_In _ _ Hi)) as Hw.
  inversion Hw; subst; assumption.
Qed.

(** What the page keeps true at every step. *)
Lemma ui_step_keeps (all : list WalletAdapter) (l : UiLabel) (u u' : Ui) :
  ui_step l u = Some u' ->
  sound (offered all) (sys u)
  /\ wallets (st (sys u)) = sort compare_wallets all
  /\ (forall h, activeWallet (st (sys u)) = Some h -> offered all h)
  /\ Forall (fun e => exists w, In w (sort compare_wallets all)
                                /\ readyState w <> Installed
                                /\ e = (url w, "_blank")) (windows u) ->
  sound (offered all) (sys u')
  /\ wallets (st (sys u')) = sort compare_wallets all
  /\ (forall h, activeWallet (st (sys u')) = Some h -> offered all h)
  /\ Forall (fun e => exists w, In w (sort compare_wallets all)
                                /\ readyState w <> Installed
                                /\ e = (url w, "_blank")) (windows u').
Proof.
  intros Hstep (Hs & Hw & Ha & Hwin).
  assert (Hsys : forall l' s',
             step l' (sys u) = Some s' ->
             (forall wallet, l' = Call (OpConnect wallet) -> offered all wallet) ->
             sound (offered all) s'
             /\ wallets (st s') = sort compare_wallets all
             /\ (forall h, activeWallet (st s') = Some h -> offered all h)).
  { intros l' s' Hst HP.
    destruct (step_sound (offered all) l' (sys u) s' Hs HP Hst)
      as [Hs' (Hw' & _)].
    split; [exact Hs'|]. split; [congruence|]. intros h Hh.
    destruct (becomes_active_allowed _ _ _ _ _ Hs Hst Hh); auto. }
  destruct l as [name_| | |l]; simpl in Hstep.
  - injection Hstep as <-. unfold NavbarComponent.connectWallet.
    destruct (find _ _) as [wallet|] eqn:Ef; [|auto].
    apply find_some in Ef as [Hin _]. rewrite Hw in Hin.
    destruct (WalletReadyState_eqb (readyState wallet) Installed) eqn:Er; simpl.
    + apply WalletReadyState_eqb_eq in Er.
      destruct (Hsys (Call (OpConnect wallet)) _ eq_refl) as (H1 & H2 & H3).
      { intros x E. injection E as <-. split; assumption. }
      auto.
    + repeat (split; [assumption|]). apply Forall_app. split; [exact Hwin|].
      constructor; [|constructor]. exists wallet.
      split; [exact Hin|]. split; [|reflexivity].
      intros E. apply WalletReadyState_eqb_eq in E. congruence.
  - injection Hstep as <-. simpl.
    destruct (Hsys (Call OpDisconnect) _ eq_refl) as (H1 & H2 & H3).
    { intros x E. discriminate. }
    auto.
  - injection Hstep as <-. simpl. auto.
  - destruct l as [op|i r now|x ev arg now|]; try discriminate;
      match type of Hstep with
      | match step ?l' ?s with _ => _ end = _ =>
          destruct (step l' s) as [s'|] eqn:E; [|discriminate];
          injection Hstep as <-; simpl;
          destruct (Hsys l' s' E) as (H1 & H2 & H3);
          [intros wl Ewl; discriminate|auto]
      end.
Qed.

Lemma ui_run_keeps (all : list WalletAdapter) (ls : list UiLabel) (u : Ui) :
  ui_run ls (ui_boot all) = Some u ->
  sound (offered all) (sys u)
  /\ wallets (st (sys u)) = sort compare_wallets all
  /\ (forall h, activeWallet (st (sys u)) = Some h -> offered all h)
  /\ Forall (fun e => exists w, In w (sort compare_wallets all)
                                /\ readyState w <> Installed
                                /\ e = (url w, "_blank")) (windows u).
Proof.
  assert (G : forall ls u0 u1,
             ui_run ls u0 = Some u1 ->
             sound (offered all) (sys u0)
             /\ wallets (st (sys u0)) = sort compare_wallets all
             /\ (forall h, activeWallet (st (sys u0)) = Some h -> offered all h)
             /\ Forall (fun e => exists w, In w (sort compare_wallets all)
                                           /\ readyState w <> Installed
                                           /\ e = (url w, "_blank")) (windows u0) ->
             sound (offered all) (sys u1)
             /\ wallets (st (sys u1)) = sort compare_wallets all
             /\ (forall h, activeWallet (st (sys u1)) = Some h -> offered all h)
             /\ Forall (fun e => exists w, In w (sort compare_wallets all)
                                           /\ readyState w <> Installed
                                           /\ e = (url w, "_blank")) (windows u1)).
  { induction ls0 as [|l ls0 IH]; intros u0 u1 Hr H0; simpl in Hr.
    - injection Hr as <-. exact H0.
    - destruct (ui_step l u0) as [u2|] eqn:E; [|discriminate].
      apply (IH u2 u1 Hr). eapply ui_step_keeps; eauto. }
  intros Hr. apply (G ls (ui_boot all) u Hr).
  split; [apply boot_sound|]. split; [reflexivity|].
  split; [intros h H; discriminate|constructor].
Qed.

(** X11.  Whatever the user clicks and whatever happens behind, the catalog the
    navbar shows stays the sorted declared list, and the active wallet, when
    there is one, is a declared wallet whose ready state is Installed. *)
Theorem active_wallet_is_installed :
  forall (all : list WalletAdapter) (hist : list UiLabel) (u : Ui),
    ui_run hist (ui_boot all) = Some u ->
    wallets (st (sys u)) = wallets (WalletService.constructor_ all)
    /\ (forall h,
          activeWallet (st (sys u)) = Some h ->
          readyState h = Installed /\ In h all
          /\ In h (wallets (st (sys u)))).
Proof.
  intros all hist u Hr.
  destruct (ui_run_keeps all hist u Hr) as (_ & Hw & Ha & _).
  split; [exact Hw|]. intros h Hh. destruct (Ha h Hh) as [Hi Hin].
  split; [exact Hi|]. split; [|now rewrite Hw].
  apply (Permutation_in _ (Permutation_sym (sort_perm all)) Hin).
Qed.

Lemma active_wallet_is_installed_witness :
  exists u,
    ui_run [ ClickWallets; ClickWallet "Ledger"; ClickWallet "Phantom";
             Background (Settle 0 Fulfilled 1000); Background Flush ]
           (ui_boot [walletD; walletC; walletA]) = Some u
    /\ activeWallet (st (sys u)) = Some walletA
    /\ readyState walletA = Installed.
Proof.
  destruct (ui_run _ (ui_boot [walletD; walletC; walletA])) as [u|] eqn:E;
    [|vm_compute in E; discriminate].
  exists u. split; [reflexivity|].
  assert (Ha : activeWallet (st (sys u)) = Some walletA).
  { vm_compute in E. injection E as <-. reflexivity. }
  split; [exact Ha|].
  apply (proj2 (active_wallet_is_installed _ _ _ E) walletA Ha).
Defined.

(** X12.  Every tab the page ever opens is the install page of a declared wallet
    that is not Installed, opened with target '_blank'; picking an Installed
    wallet, disconnecting, and whatever happens behind open no tab. *)
Theorem tabs_are_install_pages :
  forall (all : list WalletAdapter) (hist : list UiLabel) (u : Ui),
    ui_run hist (ui_boot all) = Some u ->
    (forall e,
        In e (windows u) ->
        exists w,
          In w all /\ readyState w <> Installed /\ e = (url w, "_blank"))
    /\ (forall l u',
          ui_step l u = Some u' ->
          windows u' = windows u
          \/ exists name_ w,
               l = ClickWallet name_ /\ name w = name_ /\ In w all
               /\ readyState w <> Installed
               /\ windows u' = windows u ++ [(url w, "_blank")]).
Proof.
  intros all hist u Hr.
  destruct (ui_run_keeps all hist u Hr) as (_ & Hw & _ & Hwin).
  split.
  - intros e He. rewrite Forall_forall in Hwin.
    destruct (Hwin e He) as (w & Hin & Hn & ->). exists w.
    split; [|auto].
    apply (Permutation_in _ (Permutation_sym (sort_perm all)) Hin).
  - intros l u' Hstep. destruct l as [name_| | |l]; simpl in Hstep.
    + injection Hstep as <-. unfold NavbarComponent.connectWallet.
      destruct (find _ _) as [wallet|] eqn:Ef; [|now left].
      apply find_some in Ef as [Hin Hn]. rewrite Hw in Hin.
      apply String.eqb_eq in Hn.
      destruct (WalletReadyState_eqb (readyState wallet) Installed) eqn:Er;
        simpl; [now left|].
      right. exists name_, wallet. split; [reflexivity|]. split; [exact Hn|].
      split; [apply (Permutation_in _ (Permutation_sym (sort_perm all)) Hin)|].
      split; [|reflexivity].
      intros E. apply WalletReadyState_eqb_eq in E. congruence.
    + injection Hstep as <-. now left.
    + injection Hstep as <-. now left.
    + left. destruct l as [op|i r now|x ev arg now|]; try discriminate;
        match type of Hstep with
        | match step ?l' ?s with _ => _ end = _ =>
            destruct (step l' s) as [s'|]; [|discriminate];
            injection Hstep as <-; reflexivity
        end.
Qed.

Lemma tabs_are_install_pages_witness :
  exists u,
    ui_run [ ClickWallets; ClickWallet "Ledger"; ClickWallet "Phantom";
             ClickWallet "Trezor"; ClickDisconnect ]
           (ui_boot [walletD; walletC; walletA]) = Some u
    /\ windows u = [ ("https://www.ledger.com", "_blank");
                     ("https://trezor.io", "_blank") ]
    /\ (forall e, In e (windows u) ->
                  exists w, In w [walletD; walletC; walletA]
                            /\ readyState w <> Installed
                            /\ e = (url w, "_blank")).
Proof.
  destruct (ui_run _ (ui_boot [walletD; walletC; walletA])) as [u|] eqn:E;
    [|vm_compute in E; discriminate].
  exists u. split; [reflexivity|]. split.
  - vm_compute in E. injection E as <-. reflexivity.
  - apply (proj1 (tabs_are_install_pages _ _ _ E)).
Defined.

(** ** The earlier wallet service *)

Section LegacyService.

Import Legacy.

Lemma legacy_run_onDisconnect (arg : string) (w : World) :
  run_handler onDisconnect arg w
  = console_log "undefined disconnected ❌" (activeWallet_set None w).
Proof.
  unfold run_handler. cbv zeta. f_equal.
  unfold active_name, activeWallet_set.
  destruct (same_wallet (activeWallet w) None) eqn:E; simpl; [|reflexivity].
  apply same_wallet_eq in E. now rewrite E.
Qed.

Lemma legacy_run_handler_frame (h : Handler) (arg : string) (w : World) :
  listeners (run_handler h arg w) = listeners w
  /\ invoked (run_handler h arg w) = invoked w
  /\ wallets (run_handler h arg w) = wallets w.
Proof.
  destruct h.
  - rewrite legacy_run_onDisconnect. unfold activeWallet_set.
    destruct (same_wallet (activeWallet w) None); simpl; auto.
  - simpl. auto.
Qed.

Lemma legacy_emit_frame (x : WalletAdapter) (ev : EventName) (arg : string)
  (w : World) :
  listeners (emit x ev arg w) = listeners w
  /\ invoked (emit x ev arg w) = invoked w
  /\ wallets (emit x ev arg w) = wallets w.
Proof.
  unfold emit. generalize (handlers_for x ev (listeners w)) as hs.
  intros hs. revert w. induction hs as [|h hs IH]; intros w; simpl; auto.
  destruct (IH (run_handler h arg w)) as (-> & -> & ->).
  apply legacy_run_handler_frame.
Qed.

(** The handlers an event reaches are those the effect registered for it. *)
Lemma legacy_handlers_registered (x : WalletAdapter) (ev : EventName)
  (ls : list Listener) :
  Forall registered ls ->
  handlers_for x ev ls
  = repeat match ev with EvDisconnect => onDisconnect | EvError => onError end
           (length (handlers_for x ev ls)).
Proof.
  unfold handlers_for. induction 1 as [|l ls Hl _ IH]; [reflexivity|].
  simpl.
  destruct (WalletAdapter_eqb (target l) x && EventName_eqb (event l) ev) eqn:E;
    [|exact IH].
  simpl. rewrite <- IH. f_equal.
  apply andb_true_iff in E as [_ E]. unfold registered in Hl.
  destruct (event l), ev; try discriminate; exact Hl.
Qed.

(** [n] runs of the 'disconnect' handler, [n] not zero. *)
Lemma legacy_disconnects (n : nat) (arg : string) (w : World) :
  activeWallet
    (fold_left (fun acc h => run_handler h arg acc) (repeat onDisconnect (S n)) w)
  = None
  /\ console
       (fold_left (fun acc h => run_handler h arg acc) (repeat onDisconnect (S n)) w)
     = console w ++ repeat (ConsoleLog, "undefined disconnected ❌") (S n).
Proof.
  revert w. induction n as [|n IH]; intros w.
  - cbn [fold_left repeat]. rewrite legacy_run_onDisconnect. simpl.
    unfold activeWallet_set.
    destruct (same_wallet (activeWallet w) None) eqn:E; simpl;
      (split; [|reflexivity]); [|reflexivity].
    now apply same_wallet_eq in E.
  - change (repeat onDisconnect (S (S n)))
      with (onDisconnect :: repeat onDisconnect (S n)).
    cbn [fold_left]. destruct (IH (run_handler onDisconnect arg w)) as [-> ->].
    split; [reflexivity|]. rewrite legacy_run_onDisconnect.
    assert (E : console (console_log "undefined disconnected ❌"
                           (activeWallet_set None w))
                = console w ++ [(ConsoleLog, "undefined disconnected ❌")]).
    { unfold activeWallet_set.
      destruct (same_wallet (activeWallet w) None); reflexivity. }
    rewrite E, <- app_assoc. reflexivity.
Qed.

(** [n] runs of the 'error' handler. *)
Lemma legacy_errors (n : nat) (arg : string) (w : World) :
  fold_left (fun acc h => run_handler h arg acc) (repeat onError n) w
  = mkWorld (wallets w) (activeWallet w) (effect_dirty w) (listeners w)
            (invoked w)
            (console w
             ++ repeat (ConsoleError, (active_name w ++ " error: " ++ arg)%string) n).
Proof.
  revert w. induction n as [|n IH]; intros w.
  - simpl. rewrite app_nil_r. now destruct w.
  - simpl fold_left. rewrite IH. simpl. unfold active_name. simpl.
    rewrite <- app_assoc. reflexivity.
Qed.

Lemma legacy_flush_listeners (w : World) :
  exists more,
    listeners (flush w) = listeners w ++ more
    /\ Forall registered more
    /\ invoked (flush w) = invoked w
    /\ wallets (flush w) = wallets w
    /\ activeWallet (flush w) = activeWallet w.
Proof.
  unfold flush. destruct (effect_dirty w).
  - unfold run_effect, effect_body. destruct (activeWallet w) as [a|] eqn:E; simpl.
    + eexists. rewrite <- app_assoc. split; [reflexivity|].
      repeat split; auto. repeat constructor.
    + exists []. rewrite app_nil_r. repeat split; auto.
  - exists []. rewrite app_nil_r. repeat split; auto.
Qed.

(** What a step of the earlier service does to the listeners and to the
    invocations. *)
Lemma legacy_step_keeps (l : Label) (s s' : Sys) :
  sound s ->
  step l s = Some s' ->
  sound s'
  /\ (exists more, listeners (st s') = listeners (st s) ++ more)
  /\ invoked (st s')
     = invoked (st s)
       ++ match l with
          | Call (OpConnect wallet) => [(CapConnect, wallet)]
          | Call OpDisconnect =>
              match activeWallet (st s) with
              | Some active => [(CapDisconnect, active)]
              | None => []
              end
          | _ => []
          end.
Proof.
  intros [Hpool Hreg] Hstep.
  destruct l as [op|i r|x ev arg|]; simpl in Hstep.
  - injection Hstep as <-. unfold call.
    destruct op as [wallet|]; simpl.
    + split; [split; simpl; [|exact Hreg]|].
      * apply Forall_app. split; [exact Hpool|]. repeat constructor.
      * split; [exists []; now rewrite app_nil_r|reflexivity].
    + unfold disconnect. destruct (activeWallet (st s)) as [a|]; simpl.
      * split; [split; simpl; [|exact Hreg]|].
        -- apply Forall_app. split; [exact Hpool|]. repeat constructor.
        -- split; [exists []; now rewrite app_nil_r|reflexivity].
      * rewrite !app_nil_r. split; [split; assumption|].
        split; [exists []; now rewrite app_nil_r|reflexivity].
  - destruct (nth_error (pool s) i) as [[|wallet cap k]|] eqn:E; try discriminate.
    assert (Hw : waiting (Await wallet cap k)).
    { rewrite Forall_forall in Hpool. apply Hpool. eapply nth_error_In; eauto. }
    destruct (Forall_firstn_skipn waiting i (S i) (pool s) Hpool) as [Hf Hk].
    inversion Hw; subst.
    + simpl in Hstep. injection Hstep as <-. simpl. rewrite !app_nil_r.
      split; [split; [apply Forall_app; auto|exact Hreg]|].
      split; [exists []; now rewrite app_nil_r|reflexivity].
    + assert (Hc : exists w',
                 connect_settled wallet r (st s) = (w', Done Fulfilled)
                 /\ listeners w' = listeners (st s)
                 /\ invoked w' = invoked (st s)).
      { destruct r as [|e]; simpl; eexists; (split; [reflexivity|]).
        - unfold activeWallet_set.
          destruct (same_wallet (activeWallet (st s)) (Some wallet)); auto.
        - auto. }
      destruct Hc as (w' & Ec & Hl & Hi). rewrite Ec in Hstep.
      injection Hstep as <-. unfold sound. simpl. rewrite Hl, Hi, !app_nil_r.
      split; [split; [apply Forall_app; auto|exact Hreg]|].
      split; [exists []; now rewrite app_nil_r|reflexivity].
  - injection Hstep as <-. unfold sound. simpl.
    destruct (legacy_emit_frame x ev arg (st s)) as (Hl & Hi & _).
    rewrite Hl, Hi, app_nil_r.
    split; [split; [exact Hpool|exact Hreg]|].
    split; [exists []; now rewrite app_nil_r|reflexivity].
  - injection Hstep as <-. unfold sound. simpl.
    destruct (legacy_flush_listeners (st s)) as (more & Hl & Hm & Hi & _).
    rewrite Hl, Hi, app_nil_r.
    split; [split; [exact Hpool|apply Forall_app; auto]|].
    split; [now exists more|reflexivity].
Qed.

Lemma legacy_run_keeps (ls : list Label) (s s' : Sys) :
  sound s ->
  run ls s = Some s' ->
  sound s'
  /\ (exists more, listeners (st s') = listeners (st s) ++ more)
  /\ (forallb (fun l => negb (calls_disconnect l)) ls = true ->
      invoked (st s') = invoked (st s) ++ connects_of ls).
Proof.
  revert s. induction ls as [|l ls IH]; intros s Hs Hr; simpl in Hr.
  - injection Hr as <-. split; [exact Hs|].
    split; [exists []; now rewrite app_nil_r|].
    intros _. simpl. now rewrite app_nil_r.
  - destruct (step l s) as [s1|] eqn:E; [|discriminate].
    destruct (legacy_step_keeps l s s1 Hs E) as (Hs1 & [m1 Hl1] & Hi1).
    destruct (IH s1 Hs1 Hr) as (Hs' & [m2 Hl2] & Hi2).
    split; [exact Hs'|]. split.
    + exists (m1 ++ m2). rewrite Hl2, Hl1, app_assoc. reflexivity.
    + intros H. simpl in H. apply andb_true_iff in H as [Hl H].
      rewrite (Hi2 H), Hi1. unfold connects_of. simpl.
      rewrite <- app_assoc. f_equal. f_equal.
      destruct l as [[wallet|]| | |]; try reflexivity. discriminate.
Qed.

Lemma legacy_boot_sound (all : list WalletAdapter) : sound (boot all).
Proof. split; constructor. Qed.

End LegacyService.

Section LegacyProperties.

Import Legacy.

Lemma legacy_run_app (ls1 ls2 : list Label) (s : Sys) :
  run (ls1 ++ ls2) s
  = match run ls1 s with
    | Some s' => run ls2 s'
    | None => None
    end.
Proof.
  revert s. induction ls1 as [|l ls1 IH]; intros s; simpl; [reflexivity|].
  destruct (step l s); [apply IH|reflexivity].
Qed.

Lemma legacy_flush_subscribes (w : World) (a : WalletAdapter) :
  effect_dirty w = true ->
  activeWallet w = Some a ->
  listeners (flush w)
  = listeners w ++ [ mkListener a EvDisconnect onDisconnect;
                     mkListener a EvError onError ]
  /\ activeWallet (flush w) = Some a.
Proof.
  intros Hd Ha. unfold flush, run_effect, effect_body. rewrite Hd, Ha. simpl.
  rewrite <- app_assoc. auto.
Qed.

Lemma legacy_flush_idle (w : World) :
  activeWallet w = None ->
  listeners (flush w) = listeners w /\ activeWallet (flush w) = None.
Proof.
  intros Ha. unfold flush, run_effect, effect_body.
  destruct (effect_dirty w); rewrite ?Ha; simpl; auto.
Qed.

Lemma legacy_handlers_app (x : WalletAdapter) (ev : EventName)
  (l1 l2 : list Listener) :
  handlers_for x ev (l1 ++ l2) = handlers_for x ev l1 ++ handlers_for x ev l2.
Proof. unfold handlers_for. now rewrite filter_app, map_app. Qed.

(** A 'disconnect' event that reaches a handler leaves no wallet active. *)
Lemma legacy_emit_disconnect (x : WalletAdapter) (arg : string) (w : World) :
  Forall registered (listeners w) ->
  console (emit x EvDisconnect arg w)
  = console w ++ repeat (ConsoleLog, "undefined disconnected ❌")
                        (length (handlers_for x EvDisconnect (listeners w)))
  /\ (handlers_for x EvDisconnect (listeners w) <> [] ->
      activeWallet (emit x EvDisconnect arg w) = None).
Proof.
  intros Hreg. unfold emit.
  rewrite (legacy_handlers_registered x EvDisconnect _ Hreg).
  rewrite repeat_length.
  destruct (length (handlers_for x EvDisconnect (listeners w))) as [|n].
  - simpl. rewrite app_nil_r. split; [reflexivity|]. intros H. now elim H.
  - destruct (legacy_disconnects n arg w) as [Ha Hc]. split; [exact Hc|].
    intros _. exact Ha.
Qed.

(** One session of the earlier service: the wallet connects, the effect
    runs, the wallet disconnects by itself, the effect runs. *)
Lemma legacy_session (s : Sys) (h : WalletAdapter) :
  sound s -> pool s = [] -> activeWallet (st s) = None ->
  exists s',
    run [ Call (OpConnect h); Settle 0 Fulfilled; Flush;
          Emit h EvDisconnect ""; Flush ] s = Some s'
    /\ sound s' /\ pool s' = [] /\ activeWallet (st s') = None
    /\ listeners (st s')
       = listeners (st s) ++ [ mkListener h EvDisconnect onDisconnect;
                               mkListener h EvError onError ].
Proof.
  intros [_ Hreg] Hpool Ha. destruct s as [w p]. simpl in *. subst p.
  set (w2 := fst (connect_settled h Fulfilled (invoke CapConnect h w))).
  exists (mkSys (flush (emit h EvDisconnect "" (flush w2))) []).
  split; [reflexivity|].
  assert (H2 : effect_dirty w2 = true /\ activeWallet w2 = Some h
               /\ listeners w2 = listeners w).
  { subst w2. simpl. unfold activeWallet_set. simpl. rewrite Ha. simpl. auto. }
  destruct H2 as (Hd2 & Ha2 & Hl2).
  destruct (legacy_flush_subscribes w2 h Hd2 Ha2) as [Hl3 Ha3].
  assert (Hreg3 : Forall registered (listeners (flush w2))).
  { rewrite Hl3, Hl2. apply Forall_app. split; [exact Hreg|].
    repeat constructor. }
  destruct (legacy_emit_frame h EvDisconnect "" (flush w2)) as (Hl4 & _ & _).
  destruct (legacy_emit_disconnect h "" (flush w2) Hreg3) as [_ Ha4].
  assert (Ha4' : activeWallet (emit h EvDisconnect "" (flush w2)) = None).
  { apply Ha4. rewrite Hl3, legacy_handlers_app. unfold handlers_for at 2.
    simpl. rewrite WalletAdapter_eqb_refl. simpl.
    intros E. apply app_eq_nil in E as [_ E]. discriminate. }
  destruct (legacy_flush_idle _ Ha4') as [Hl5 Ha5].
  unfold sound. simpl. rewrite Hl5, Hl4.
  split; [split; [constructor|exact Hreg3]|].
  split; [reflexivity|]. split; [exact Ha5|]. now rewrite Hl3, Hl2.
Qed.

(** X13.  In the earlier service, [connectWallet] invokes [connect()] at every
    call, on the active wallet too, and never [disconnect()]: in a history
    without calls of [disconnect], the invocations are exactly one
    [connect()] per call, in the order of the calls; so a wallet that is
    replaced as the active wallet is never asked to disconnect. *)
Theorem legacy_connect_never_disconnects :
  forall (all : list WalletAdapter) (hist : list Label) (s : Sys),
    run hist (boot all) = Some s ->
    forallb (fun l => negb (calls_disconnect l)) hist = true ->
    invoked (st s) = connects_of hist
    /\ (forall x, ~ In (CapDisconnect, x) (invoked (st s))).
Proof.
  intros all hist s Hr Hn.
  destruct (legacy_run_keeps hist _ _ (legacy_boot_sound all) Hr) as (_ & _ & Hi).
  specialize (Hi Hn). simpl in Hi. split; [exact Hi|].
  intros x Hx. rewrite Hi in Hx. unfold connects_of in Hx.
  apply in_flat_map in Hx as (l & _ & Hl).
  destruct l as [[w|]| | |]; simpl in Hl; try contradiction.
  destruct Hl as [E|[]]. discriminate.
Qed.

Lemma legacy_connect_never_disconnects_witness :
  exists s,
    run [ Call (OpConnect walletA); Settle 0 Fulfilled; Flush;
          Call (OpConnect walletA); Call (OpConnect walletB);
          Settle 0 Fulfilled; Settle 0 Fulfilled; Flush ]
        (boot [walletA; walletB]) = Some s
    /\ activeWallet (st s) = Some walletB
    /\ invoked (st s)
       = [(CapConnect, walletA); (CapConnect, walletA); (CapConnect, walletB)].
Proof.
  destruct (run _ (boot [walletA; walletB])) as [s|] eqn:E;
    [|vm_compute in E; discriminate].
  exists s. split; [reflexivity|]. split.
  - vm_compute in E. injection E as <-. reflexivity.
  - apply (legacy_connect_never_disconnects _ _ _ E). reflexivity.
Defined.

(** X14.  In the earlier service the listeners are never removed: no step takes
    one away, and every session of a wallet (connect, run of the effect,
    'disconnect' event, run of the effect) leaves two more, so that after [n]
    sessions the next 'disconnect' event of the wallet reaches [n]
    handlers. *)
Theorem legacy_listeners_leak :
  forall (all : list WalletAdapter) (h : WalletAdapter) (n : nat),
    (forall hist s l s',
        run hist (boot all) = Some s ->
        step l s = Some s' ->
        exists more, listeners (st s') = listeners (st s) ++ more)
    /\ exists s,
         run (sessions h n) (boot all) = Some s
         /\ length (listeners (st s)) = (2 * n)%nat
         /\ length (handlers_for h EvDisconnect (listeners (st s))) = n
         /\ console (emit h EvDisconnect "" (st s))
            = console (st s)
              ++ repeat (ConsoleLog, "undefined disconnected ❌") n.
Proof.
  intros all h n. split.
  - intros hist s l s' Hr Hstep.
    destruct (legacy_run_keeps hist _ _ (legacy_boot_sound all) Hr) as (Hs & _).
    apply (legacy_step_keeps l s s' Hs Hstep).
  - assert (G : exists s,
               run (sessions h n) (boot all) = Some s
               /\ sound s /\ pool s = [] /\ activeWallet (st s) = None
               /\ length (listeners (st s)) = (2 * n)%nat
               /\ length (handlers_for h EvDisconnect (listeners (st s))) = n).
    { induction n as [|n IH].
      - exists (boot all). repeat split; constructor.
      - destruct IH as (s & Hr & Hs & Hp & Ha & Hl & Hh).
        destruct (legacy_session s h Hs Hp Ha) as (s' & Hr' & Hs' & Hp' & Ha' & Hl').
        exists s'. simpl sessions. rewrite legacy_run_app, Hr.
        split; [exact Hr'|]. split; [exact Hs'|]. split; [exact Hp'|].
        split; [exact Ha'|]. rewrite Hl'. split.
        + rewrite length_app, Hl. simpl. lia.
        + rewrite legacy_handlers_app, length_app, Hh.
          unfold handlers_for at 1. simpl. rewrite WalletAdapter_eqb_refl.
          simpl. lia. }
    destruct G as (s & Hr & [_ Hreg] & _ & _ & Hl & Hh).
    exists s. split; [exact Hr|]. split; [exact Hl|]. split; [exact Hh|].
    destruct (legacy_emit_disconnect h "" (st s) Hreg) as [Hc _].
    now rewrite Hc, Hh.
Qed.

Lemma legacy_listeners_leak_witness :
  exists s s',
    run [Call (OpConnect walletA); Settle 0 Fulfilled; Flush]
        (boot [walletA]) = Some s
    /\ step (Emit walletA EvDisconnect "") s = Some s'
    /\ exists more, listeners (st s') = listeners (st s) ++ more.
Proof.
  destruct (run _ (boot [walletA])) as [s|] eqn:E;
    [|vm_compute in E; discriminate].
  exists s. eexists. split; [reflexivity|]. split; [reflexivity|].
  apply (proj1 (legacy_listeners_leak [walletA] walletA 0) _ s
               (Emit walletA EvDisconnect "") _ E eq_refl).
Defined.

(** X15.  In the earlier service a handler reads [activeWallet] when it runs, not
    the wallet it was registered on.  So a 'disconnect' event of any wallet
    that still has a handler sets [activeWallet] to [null], whichever wallet
    is active, and each handler then prints "undefined disconnected ❌"; and
    an 'error' event of any wallet prints, once per handler, the name of the
    wallet that is active at that moment, and changes nothing else. *)
Theorem legacy_handlers_read_the_signal :
  forall (all : list WalletAdapter) (hist : list Label) (s : Sys)
         (x : WalletAdapter) (arg : string),
    run hist (boot all) = Some s ->
    (handlers_for x EvDisconnect (listeners (st s)) <> [] ->
     activeWallet (emit x EvDisconnect arg (st s)) = None)
    /\ console (emit x EvDisconnect arg (st s))
       = console (st s)
         ++ repeat (ConsoleLog, "undefined disconnected ❌")
                   (length (handlers_for x EvDisconnect (listeners (st s))))
    /\ emit x EvError arg (st s)
       = mkWorld (wallets (st s)) (activeWallet (st s)) (effect_dirty (st s))
                 (listeners (st s)) (invoked (st s))
                 (console (st s)
                  ++ repeat (ConsoleError,
                             (active_name (st s) ++ " error: " ++ arg)%string)
                            (length (handlers_for x EvError (listeners (st s))))).
Proof.
  intros all hist s x arg Hr.
  destruct (legacy_run_keeps hist _ _ (legacy_boot_sound all) Hr) as ([_ Hreg] & _).
  destruct (legacy_emit_disconnect x arg (st s) Hreg) as [Hc Ha].
  split; [exact Ha|]. split; [exact Hc|].
  unfold emit. rewrite (legacy_handlers_registered x EvError _ Hreg).
  rewrite repeat_length. apply legacy_errors.
Qed.

Lemma legacy_handlers_read_the_signal_witness :
  exists s,
    run [ Call (OpConnect walletA); Settle 0 Fulfilled; Flush;
          Call (OpConnect walletB); Settle 0 Fulfilled ]
        (boot [walletA; walletB]) = Some s
    /\ activeWallet (st s) = Some walletB
    /\ activeWallet (emit walletA EvDisconnect "" (st s)) = None.
Proof.
  destruct (run _ (boot [walletA; walletB])) as [s|] eqn:E;
    [|vm_compute in E; discriminate].
  exists s. split; [reflexivity|].
  assert (H : activeWallet (st s) = Some walletB
              /\ handlers_for walletA EvDisconnect (listeners (st s)) <> []).
  { vm_compute in E. injection E as <-. split; [reflexivity|discriminate]. }
  destruct H as [Ha Hh]. split; [exact Ha|].
  apply (proj1 (legacy_handlers_read_the_signal _ _ _ walletA "" E) Hh).
Defined.

End LegacyProperties.

(** ** Calls that do not overlap *)

Lemma app_one_more {A : Type} (l : list A) (x : A) : l = l ++ [x] -> False.
Proof.
  intros H. rewrite <- (app_nil_r l) in H at 1. apply app_inv_head in H.
  discriminate.
Qed.

(** X16.  When every call is awaited to its end before the next call is made,
    [connect()] is never invoked on the wallet that is active at that
    step. *)
Theorem serial_connect_not_on_active :
  forall (all : list WalletAdapter) (hist : list Label) (s : Sys)
         (l : Label) (s' : Sys) (h : WalletAdapter),
    serial hist (boot all) = true ->
    run hist (boot all) = Some s ->
    (is_call l = true -> pool s = []) ->
    step l s = Some s' ->
    invoked (st s') = invoked (st s) ++ [(CapConnect, h)] ->
    activeWallet (st s) <> Some h.
Proof.
  intros all hist s l s' h Hser Hrun Hcall Hstep Hinv Hact.
  pose proof (serial_phase (boot all) hist s eq_refl Hser Hrun) as Hph.
  destruct l as [op|i r now|x ev arg now|].
  - simpl in Hstep. injection Hstep as <-. rewrite call_st in Hinv.
    destruct op as [w|]; simpl in Hinv.
    + destruct (connectWallet_steps w (st s))
        as [[_ E]|[[Hn E]|(a & _ & _ & E)]]; rewrite E in Hinv; simpl in Hinv.
      * now apply app_one_more in Hinv.
      * congruence.
      * apply app_inv_head in Hinv. discriminate.
    + unfold WalletService.disconnect in Hinv.
      destruct (activeWallet (st s)) as [a|]; simpl in Hinv.
      * apply app_inv_head in Hinv. discriminate.
      * now apply app_one_more in Hinv.
  - simpl in Hstep.
    inversion Hph as [? ? Hpool|? ? a Hpool
                      |? ? a wallet pre mid s0 Hpool Hh Hpre Ha0 Hc Hmid Ha
                      |? ? wallet Hpool Hd]; subst; rewrite Hpool in Hstep.
    + destruct i; discriminate.
    + destruct i as [|i]; [|destruct i; discriminate].
      simpl in Hstep. injection Hstep as <-. simpl in Hinv.
      now apply app_one_more in Hinv.
    + destruct i as [|i]; [|destruct i; discriminate].
      simpl in Hstep. unfold WalletService.swap_settled in Hstep.
      destruct r as [|e]; simpl in Hstep; injection Hstep as <-;
        simpl in Hinv; [|now apply app_one_more in Hinv].
      apply app_inv_head in Hinv. injection Hinv as ->.
      assert (a = h) by (destruct Ha; congruence). subst a.
      unfold call, run_op in Hc.
      destruct (connectWallet_steps h (st s0))
        as [[_ E]|[[E _]|(a' & E & Hne & _)]]; try congruence.
      rewrite E in Hc. injection Hc as Hst _.
      apply (f_equal invoked) in Hst. simpl in Hst.
      now apply app_one_more in Hst.
    + destruct i as [|i]; [|destruct i; discriminate].
      simpl in Hstep. destruct r as [|e].
      * destruct (connect_settled_fulfilled wallet now (st s)) as (_ & _ & _ & Hi & _).
        destruct (WalletService.connect_settled wallet Fulfilled now (st s)).
        injection Hstep as <-. simpl in *. rewrite Hi in Hinv.
        now apply app_one_more in Hinv.
      * rewrite connect_settled_rejected in Hstep. injection Hstep as <-.
        simpl in Hinv. now apply app_one_more in Hinv.
  - simpl in Hstep. injection Hstep as <-. simpl in Hinv.
    rewrite emit_invoked in Hinv. now apply app_one_more in Hinv.
  - simpl in Hstep. injection Hstep as <-. simpl in Hinv.
    destruct (flush_frame (st s)) as (_ & _ & _ & Hi & _). rewrite Hi in Hinv.
    now apply app_one_more in Hinv.
Qed.

Lemma serial_connect_not_on_active_witness :
  exists s s',
    run [ Call (OpConnect walletA); Settle 0 Fulfilled 1000; Flush;
          Call (OpConnect walletB) ]
        (boot [walletA; walletB]) = Some s
    /\ step (Settle 0 Fulfilled 1001) s = Some s'
    /\ invoked (st s') = invoked (st s) ++ [(CapConnect, walletB)]
    /\ activeWallet (st s) <> Some walletB.
Proof.
  destruct (run _ (boot [walletA; walletB])) as [s|] eqn:E;
    [|vm_compute in E; discriminate].
  assert (H : serial [ Call (OpConnect walletA); Settle 0 Fulfilled 1000; Flush;
                       Call (OpConnect walletB) ] (boot [walletA; walletB]) = true)
    by (vm_compute; reflexivity).
  assert (Hs : exists s',
             step (Settle 0 Fulfilled 1001) s = Some s'
             /\ invoked (st s') = invoked (st s) ++ [(CapConnect, walletB)]).
  { vm_compute in E. injection E as <-. eexists. split; reflexivity. }
  destruct Hs as (s' & Hstep & Hinv).
  exists s, s'. split; [reflexivity|]. split; [exact Hstep|].
  split; [exact Hinv|].
  apply (serial_connect_not_on_active _ _ _ (Settle 0 Fulfilled 1001) s'
           walletB H E); [discriminate|exact Hstep|exact Hinv].
Defined.
